(* ===== verification/_CoqProject ===== *)
-Q . S2P
Prelude.v
Config.v
LexProduct.v
Enumerator.v
Machine.v
DimensionStore.v
Encoders.v
JoinBenchmark.v
Driver.v
