(* ===== verification/Prelude.v ===== *)
(** * Verification of the star-join benchmark ([src/benchmark.cpp])

    The program compares two physical layouts of a star-schema join.  It
    builds [n] dimension tables of [k] rows each, with one hash index per
    table that maps a row id to a separately allocated copy of the row
    (a [shared_ptr]); it then enumerates the first [L] tuples of the
    cartesian product of the dimension tables twice, once storing row ids
    (foreign keys) and once storing the handles, scans both fact tables
    resolving every column, and writes the timings of each phase.  [main]
    repeats this for every [n] from [2] to a bound, skipping an [n] whose
    product has fewer than [L] tuples.

    ** Files, in dependency order

    - [Prelude] (this file): the semantic basis shared by all components.
      Machine integers ([size_t] as [Z] modulo [2^64], [int] as [Z] with an
      explicit overflow check), the error type ([OutOfFuel] and the kinds of
      undefined behaviour the program can reach), the state-and-error monad
      [M] with its notation in [prog_scope], [zoom] to run a step on a part
      of the state, partial-correctness triples [hoare] with their rules,
      the order [⊑] in which more fuel is more defined, counted loops
      ([for_range], with [Return] for an early [return] from the enclosing
      function), range-based loops ([for_each]) and the [std::vector]
      operations the program uses ([emplace_back], [pop_back], [vec_at] for
      [operator[]]); [terminates], which says that a computation never
      runs out of fuel; the hint database [prog] and the tactics
      [hoare_step] and [run_step].
    - [Config]: the four [constexpr] parameters of lines 36-43 as the type
      class [Config], the values of the source ([reference_config]), a small
      configuration for evaluation ([example_config]), and [ConfigOk], which
      says that every parameter is an [int].
    - [LexProduct]: the abstract specification of the enumeration, with no
      reference to the code: the lexicographic product [lex_product k m] of
      [m] copies of [0..k-1], its length, its order ([lex_lt]), its closed
      form by base-[k] digits ([digits]), the cells in which each tuple
      of a list differs from the tuple before it ([fresh_cells]), and
      their number column by column.
    - [Enumerator]: [get_fact_table] (lines 51-92) with its recursive
      lambda [rec_pointer], one definition per statement of the loop body,
      and the interfaces [PureEncoder] and [Encoder] that state what the
      enumerator needs from its callback.  Theorems: for a pure encoder the
      result is the encoded prefix of the lexicographic product
      ([enumerate_spec]), of [min (L, k^n)] tuples, given column by column
      by the digits of the row number, and [current_tuple] is restored; for
      a callback with a state of its own, the calls it receives are, in
      order, the fresh cells of the prefix ([callback_calls]), for
      dimension [c] as many as the number of tuples divided by
      [k^(n-1-c)], rounded up; for every callback the cap is respected (by
      the triples of [hoare]) and fuel [n] is enough ([terminates]); what
      happens for [n = 0] and for no rows.
    - [Machine]: the same lambda as a machine with an explicit call stack
      and no fuel ([step], [step_fn]).  Theorems: the machine reaches
      whatever the recursive definition returns, undefined behaviour
      included, and is deterministic, so for a pure encoder its runs are
      exactly those that end with the encoded prefix; by rule induction,
      the stack of a reachable configuration is at most [n] deep and the
      counter stays within the cap, whatever the callback does; for a
      callback that ends, the machine ends; undefined behaviour of
      [get_fact_table] comes from its callback or from [pop_back] on an
      empty vector, never from an overflow of the counter.
    - [DimensionStore]: [DimensionObject] (lines 16-24), the heap of
      [make_shared] allocations, the index with the inserting [operator[]]
      of [unordered_map], the build loops of [evaluate_for_n_dimensions]
      (lines 102-124), the store they return in closed form
      ([built_store]) and the invariant [store_ok] that the later phases
      rely on.
    - [Encoders]: the two callbacks ([add_foreign_key_to_tuple], lines
      133-135, and [add_pointer_to_tuple], lines 148-150), the proof that
      both are instances of [PureEncoder] on a store that satisfies
      [store_ok], and the theorems on the two fact tables: the foreign-key
      table is the prefix itself, in strictly increasing order, and every
      handle of the pointer table owns a copy of the row that the key at
      the same place names, and is the very handle of the index of its
      column, at the address the build gave it.
    - [JoinBenchmark]: the two resolutions (lines 169 and 186) and the scans
      around them, the clock, the two output streams and the console
      ([world]), one repetition (lines 125-194) and
      [evaluate_for_n_dimensions] (lines 95-195).  Theorems: the scans
      return without undefined behaviour and leave the store as it was,
      both resolutions of a row and column give the same object, a key
      that an index does not hold leads to a null dereference, what a
      repetition and an experiment write ([experiment_world]), that the
      store at the end of an experiment is the store that the build
      returned, that the durations written are those of intervals that do
      not overlap ([timing_ok]), and that an experiment for [n = 0] reads
      past the end of an empty vector.
    - [Driver]: [main] (lines 197-218), the sweep and its guard.  Theorems:
      [main] returns [0] and leaves [main_world]; each file holds the
      header and two rows per repetition of each experiment that passes the
      guard; every size that the console reports is [L]; for a clock that
      never goes back no duration is negative and the durations add up to
      at most the time that passed; with the parameters of the source the
      experiments [4] to [10] run.

    ** How the model corresponds to the code

    Every function of the source is a definition of the same name in the
    monad [M S] for the state [S] it can reach: locals that a lambda
    captures by reference are fields of that state, and a vector passed by
    reference that a callback also captures (the aliasing of
    [current_tuple]) is one field, shared by both.  The locals of
    [evaluate_for_n_dimensions] start empty on entry and are dropped on
    return.  A step whose behaviour C++ leaves undefined (an index out of
    range, [pop_back] on an empty vector, a null dereference, signed
    overflow) returns [Err (UB _)], so a theorem that a run returns [Ok]
    also shows that none is reached.

    The clock is a function from the number of readings so far to the time
    read; the theorems hold for every clock, those on the durations
    ([timing_ok]) for every clock that never goes back.  A line of a
    stream keeps its fields; a duration stays an integer number of
    nanoseconds.

    ** Fuel

    Recursion through the self-applied lambda [rec_function] takes fuel:
    [rec_pointer] consumes one unit per level of recursion.  For [1 <= n]
    the depth is [n], so fuel [n] is enough, and more fuel never changes a
    result ([Enumerator.rec_pointer_fuel_mono]), whatever the callback
    does ([Enumerator.terminates_rec_pointer]); [main] needs the bound of
    its sweep.  The machine of [Machine] takes no fuel and reaches the same
    results.  For [n = 0] the guard
    [dimension_table_index < number_of_dimension_tables - 1] compares
    against [2^64 - 1]: no fuel below that gives a result.  Every other
    loop is a counted loop whose trip count is fixed on entry.

    ** Assumptions and what is not modelled

    - [pow] in the guard of [main] is compared as an integer power: an
      [int] is a [double] exactly and a power below an [int] is exact, so
      the comparison in [double] agrees when [pow] rounds monotonically.
    - The formatting of numbers as text, the conversion of a duration to
      milliseconds, the file handles and a stream that fails to open.
    - Allocation failure, and the reference counts of the handles: an
      object of the heap lives as long as the store.
    - The measured durations themselves: the model says which readings of
      the clock a row subtracts, not how long a phase takes. *)

From stdpp Require Export base tactics numbers list gmap strings.

#[global] Open Scope Z_scope.

(** ** Machine integers *)

Definition size_t_modulus : Z := 2 ^ 64.
Definition INT_MAX : Z := 2 ^ 31 - 1.
Definition INT_MIN : Z := - 2 ^ 31.

(** Conversion to [size_t], and the result of [size_t] arithmetic. *)
Definition to_size_t (z : Z) : Z := z mod size_t_modulus.

Definition is_size_t (z : Z) : Prop := 0 ≤ z < size_t_modulus.
Definition is_int (z : Z) : Prop := INT_MIN ≤ z ≤ INT_MAX.

#[export] Instance is_size_t_dec z : Decision (is_size_t z).
Proof. unfold is_size_t. apply _. Defined.
#[export] Instance is_int_dec z : Decision (is_int z).
Proof. unfold is_int. apply _. Defined.

(** ** Errors and results *)

Inductive undefined : Set :=
| OutOfRange      (* operator[] of a vector past its size *)
| PopEmpty        (* pop_back on an empty vector *)
| NullDereference (* operator* of an empty shared_ptr *)
| IntOverflow.    (* signed overflow of an int *)

Inductive error : Set :=
| OutOfFuel
| UB (u : undefined).

Inductive result (A : Type) : Type :=
| Ok (a : A)
| Err (e : error).
Arguments Ok {A} a.
Arguments Err {A} e.

#[export] Instance undefined_eq_dec : EqDecision undefined.
Proof. solve_decision. Defined.
#[export] Instance error_eq_dec : EqDecision error.
Proof. solve_decision. Defined.
#[export] Instance result_eq_dec {A} `{EqDecision A} : EqDecision (result A).
Proof. solve_decision. Defined.

Definition is_Ok {A} (r : result A) : Prop := ∃ a, r = Ok a.

Definition result_map {A B} (f : A → B) (r : result A) : result B :=
  match r with Ok a => Ok (f a) | Err e => Err e end.

(** ** The state-and-error monad *)

Definition M (S A : Type) : Type := S → result (A * S).

Definition ret {S A} (a : A) : M S A := λ s, Ok (a, s).
Definition bind {S A B} (m : M S A) (f : A → M S B) : M S B :=
  λ s, match m s with Ok (a, s') => f a s' | Err e => Err e end.
Definition fail {S A} (e : error) : M S A := λ _, Err e.
Definition get {S} : M S S := λ s, Ok (s, s).
Definition put {S} (s : S) : M S unit := λ _, Ok (tt, s).
Definition gets {S A} (f : S → A) : M S A := λ s, Ok (f s, s).
Definition modify {S} (f : S → S) : M S unit := λ s, Ok (tt, f s).
(** A pure step that may be undefined. *)
Definition lift_result {S A} (r : result A) : M S A :=
  λ s, match r with Ok a => Ok (a, s) | Err e => Err e end.
(** Run a computation on a part [T] of the state [S]. *)
Definition zoom {S T A} (proj : S → T) (upd : T → S → S) (m : M T A) : M S A :=
  λ s, match m (proj s) with Ok (a, t) => Ok (a, upd t s) | Err e => Err e end.

Declare Scope prog_scope.
Delimit Scope prog_scope with prog.
Bind Scope prog_scope with M.
Notation "x <- m ;; k" := (bind m (λ x, k))
  (at level 100, m at next level, right associativity) : prog_scope.
Notation "m ;; k" := (bind m (λ _, k))
  (at level 100, right associativity) : prog_scope.
#[global] Open Scope prog_scope.

(** Two computations are equivalent when they agree on every state. *)
#[export] Instance M_equiv {S A} : Equiv (M S A) := λ m1 m2, ∀ s, m1 s = m2 s.

#[export] Instance M_equivalence {S A} : Equivalence (≡@{M S A}).
Proof.
  split; [by intros m s | by intros m1 m2 H s | ].
  intros m1 m2 m3 H1 H2 s. by rewrite H1.
Qed.

#[export] Instance bind_proper {S A B} :
  Proper ((≡) ==> pointwise_relation A (≡) ==> (≡)) (@bind S A B).
Proof.
  intros m1 m2 Hm f1 f2 Hf s. unfold bind. rewrite Hm.
  destruct (m2 s) as [[a s']|e]; [apply Hf | done].
Qed.

(** [m ⊑ m'] when [m'] returns whatever [m] returns: the order in which
    more fuel is more defined. *)
#[export] Instance M_sqsubseteq {S A} : SqSubsetEq (M S A) :=
  λ m m', ∀ s r, m s = Ok r → m' s = Ok r.

(** ** Control flow: counted loops with early return *)

Inductive ctl : Set := Continue | Return.

Fixpoint for_loop {S} (iters : nat) (i : Z) (body : Z → M S ctl) : M S unit :=
  match iters with
  | O => ret tt
  | Datatypes.S iters' =>
      c <- body i ;;
      match c with
      | Return => ret tt
      | Continue => for_loop iters' (i + 1) body
      end
  end.

(** [for (size_t i = lo; i < hi; i++) body]: the body does not assign [i],
    so the trip count is [hi - lo]. *)
Definition for_range {S} (lo hi : Z) (body : Z → M S ctl) : M S unit :=
  for_loop (Z.to_nat (hi - lo)) lo body.

(** [for (auto &x : l) body]. *)
Fixpoint for_each {S A} (l : list A) (body : A → M S unit) : M S unit :=
  match l with
  | [] => ret tt
  | x :: l' => body x ;; for_each l' body
  end.

(** ** Vectors *)

Definition emplace_back {A} (v : list A) (x : A) : list A := v ++ [x].

Definition pop_back {A} (v : list A) : result (list A) :=
  match v with
  | [] => Err (UB PopEmpty)
  | _ => Ok (removelast v)
  end.

(** [v[i]] for a [size_t] index. *)
Definition vec_at {A} (v : list A) (i : Z) : result A :=
  match v !! Z.to_nat i with
  | Some x => if bool_decide (0 ≤ i) then Ok x else Err (UB OutOfRange)
  | None => Err (UB OutOfRange)
  end.

(** The quotient rounded up. *)
Definition cdiv (a b : Z) : Z := (a + b - 1) / b.

(** The sum of a list of integers. *)
Definition sum_Z (l : list Z) : Z := foldr Z.add 0 l.

(** ** Partial correctness *)

Definition hoare {S A} (P : S → Prop) (m : M S A) (Q : A → S → Prop) : Prop :=
  ∀ s, P s → match m s with Ok (a, s') => Q a s' | Err _ => True end.

(** ** Termination

    [OutOfFuel] is the only result that stands for a run that does not end. *)

(** A computation that never runs out of fuel: every run of it returns or
    reaches undefined behaviour. *)
Definition terminates {S A} (m : M S A) : Prop := ∀ s, m s ≠ Err OutOfFuel.

(** * Lemmas *)

Section machine_integers.

Lemma to_size_t_id z : is_size_t z → to_size_t z = z.
Proof. unfold is_size_t, to_size_t. intros. by apply Z.mod_small. Qed.

Lemma to_size_t_range z : is_size_t (to_size_t z).
Proof. unfold is_size_t, to_size_t, size_t_modulus. by apply Z.mod_pos_bound. Qed.

Lemma to_size_t_pred_0 : to_size_t (0 - 1) = size_t_modulus - 1.
Proof. reflexivity. Qed.

Lemma to_size_t_succ z :
  0 ≤ z < size_t_modulus - 1 → to_size_t (z + 1) = z + 1.
Proof. intros. apply to_size_t_id. unfold is_size_t. lia. Qed.

Lemma to_size_t_pred z :
  0 < z < size_t_modulus → to_size_t (z - 1) = z - 1.
Proof. intros. apply to_size_t_id. unfold is_size_t. lia. Qed.

Lemma is_int_size_t z : is_int z → 0 ≤ z → is_size_t z.
Proof. unfold is_int, is_size_t, INT_MAX, size_t_modulus. lia. Qed.

End machine_integers.

Section cdiv.

Lemma cdiv_0 b : 0 < b → cdiv 0 b = 0.
Proof. intros. unfold cdiv. apply Z.div_small. lia. Qed.

Lemma cdiv_1 a b : 0 < a ≤ b → cdiv a b = 1.
Proof.
  intros. unfold cdiv. replace (a + b - 1) with (a - 1 + 1 * b) by lia.
  rewrite Z.div_add, Z.div_small by lia. lia.
Qed.

Lemma cdiv_add_multiple a b q : 0 < b → cdiv (q * b + a) b = q + cdiv a b.
Proof.
  intros. unfold cdiv. replace (q * b + a + b - 1) with (a + b - 1 + q * b) by lia.
  rewrite Z.div_add by lia. lia.
Qed.

(** Counting in blocks of [p] cells, [e] dividing [p]: the count of the
    first block and the count of what is left of [r] more blocks. *)
Lemma cdiv_block (b p e r : Z) :
  0 < e → (e | p) → 0 < p → 0 ≤ b → 0 ≤ r →
  cdiv (b `min` p) e + cdiv ((b - b `min` p) `min` (r * p)) e =
    cdiv (b `min` ((r + 1) * p)) e.
Proof.
  intros He [q ->] Hp Hb Hr. destruct (decide (b ≤ q * e)) as [Hle|Hgt].
  - replace (b `min` (q * e)) with b by lia.
    replace ((b - b) `min` (r * (q * e))) with 0 by nia.
    replace (b `min` ((r + 1) * (q * e))) with b by nia.
    rewrite cdiv_0 by done. lia.
  - rewrite (Z.min_r b (q * e)) by lia. rewrite <- (Z.add_0_r (q * e)) at 1.
    rewrite cdiv_add_multiple, cdiv_0 by done.
    replace (b `min` ((r + 1) * (q * e)))
      with (q * e + (b - q * e) `min` (r * (q * e))) by nia.
    rewrite cdiv_add_multiple by done. lia.
Qed.

End cdiv.

Section monad.
Context {S : Type}.

Lemma bind_ret_l {A B} (a : A) (f : A → M S B) : (x <- ret a ;; f x) ≡ f a.
Proof. by intros s. Qed.

Lemma bind_ret_r {A} (m : M S A) : (x <- m ;; ret x) ≡ m.
Proof. intros s. unfold bind, ret. by destruct (m s) as [[a s']|e]. Qed.

Lemma bind_assoc {A B C} (m : M S A) (f : A → M S B) (g : B → M S C) :
  (y <- (x <- m ;; f x) ;; g y) ≡ (x <- m ;; y <- f x ;; g y).
Proof. intros s. unfold bind. by destruct (m s) as [[a s']|e]. Qed.

Lemma bind_Ok {A B} (m : M S A) (f : A → M S B) s a s' :
  m s = Ok (a, s') → (x <- m ;; f x) s = f a s'.
Proof. unfold bind. by intros ->. Qed.

Lemma bind_Err {A B} (m : M S A) (f : A → M S B) s e :
  m s = Err e → (x <- m ;; f x) s = Err e.
Proof. unfold bind. by intros ->. Qed.

Lemma bind_Ok_inv {A B} (m : M S A) (f : A → M S B) s b s'' :
  (x <- m ;; f x) s = Ok (b, s'') →
  ∃ a s', m s = Ok (a, s') ∧ f a s' = Ok (b, s'').
Proof. unfold bind. destruct (m s) as [[a s']|e]; [eauto | done]. Qed.

Lemma bind_Err_inv {A B} (m : M S A) (f : A → M S B) s e :
  (x <- m ;; f x) s = Err e →
  m s = Err e ∨ ∃ a s', m s = Ok (a, s') ∧ f a s' = Err e.
Proof. unfold bind. destruct (m s) as [[a s']|e']; [eauto | intros [= ->]; eauto]. Qed.

Lemma lift_result_Ok {A} (r : result A) (a : A) (s : S) :
  r = Ok a → lift_result r s = Ok (a, s).
Proof. by intros ->. Qed.

#[export] Instance M_sqsubseteq_preorder {A} : PreOrder (⊑@{M S A}).
Proof. split; [by intros m s r | intros m1 m2 m3 H1 H2 s r Hr; by apply H2, H1]. Qed.

Lemma bind_mono {A B} (m m' : M S A) (f f' : A → M S B) :
  m ⊑ m' → (∀ a, f a ⊑ f' a) → (x <- m ;; f x) ⊑ (x <- m' ;; f' x).
Proof.
  intros Hm Hf s r. unfold bind. destruct (m s) as [[a s']|e] eqn:Hms; [|done].
  rewrite (Hm s _ Hms). apply Hf.
Qed.

End monad.

Section zoom.
Context {S T : Type} (proj : S → T) (upd : T → S → S).

Lemma zoom_Ok {A} (m : M T A) s a t :
  m (proj s) = Ok (a, t) → zoom proj upd m s = Ok (a, upd t s).
Proof. unfold zoom. by intros ->. Qed.

Lemma zoom_Err {A} (m : M T A) s e :
  m (proj s) = Err e → zoom proj upd m s = Err e.
Proof. unfold zoom. by intros ->. Qed.

Lemma zoom_Ok_inv {A} (m : M T A) s a s' :
  zoom proj upd m s = Ok (a, s') →
  ∃ t, m (proj s) = Ok (a, t) ∧ s' = upd t s.
Proof.
  unfold zoom. destruct (m (proj s)) as [[a' t]|e]; [|done].
  intros [= -> <-]. eauto.
Qed.

Lemma zoom_Err_inv {A} (m : M T A) s e :
  zoom proj upd m s = Err e → m (proj s) = Err e.
Proof. unfold zoom. destruct (m (proj s)) as [[a t]|e']; [done | by intros [= ->]]. Qed.

End zoom.

Section loops.
Context {S : Type}.
Implicit Types (body : Z → M S ctl) (s : S).

Lemma for_range_ge lo hi body s : hi ≤ lo → for_range lo hi body s = Ok (tt, s).
Proof. intros. unfold for_range. by replace (Z.to_nat (hi - lo)) with O by lia. Qed.

Lemma for_range_lt lo hi body :
  lo < hi →
  for_range lo hi body ≡
    (c <- body lo ;;
     match c with Return => ret tt | Continue => for_range (lo + 1) hi body end).
Proof.
  intros Hlt s. unfold for_range.
  replace (Z.to_nat (hi - lo)) with (Datatypes.S (Z.to_nat (hi - (lo + 1)))) by lia.
  done.
Qed.

Lemma for_range_Return lo hi body s s' :
  lo < hi → body lo s = Ok (Return, s') → for_range lo hi body s = Ok (tt, s').
Proof. intros Hlt Hb. rewrite (for_range_lt _ _ _ Hlt s). by rewrite (bind_Ok _ _ _ _ _ Hb). Qed.

Lemma for_range_Continue lo hi body s s' :
  lo < hi → body lo s = Ok (Continue, s') →
  for_range lo hi body s = for_range (lo + 1) hi body s'.
Proof. intros Hlt Hb. rewrite (for_range_lt _ _ _ Hlt s). by rewrite (bind_Ok _ _ _ _ _ Hb). Qed.

Lemma for_range_Err lo hi body s e :
  lo < hi → body lo s = Err e → for_range lo hi body s = Err e.
Proof. intros Hlt Hb. rewrite (for_range_lt _ _ _ Hlt s). by rewrite (bind_Err _ _ _ _ Hb). Qed.

(** Induction over the iterations of a counted loop, from the first. *)
Lemma for_range_ind (P : Z → Prop) lo hi :
  (∀ i, hi ≤ i → P i) →
  (∀ i, lo ≤ i < hi → P (i + 1) → P i) →
  ∀ i, lo ≤ i → P i.
Proof.
  intros Hend Hstep i Hi.
  remember (Z.to_nat (hi - i)) as d eqn:Hd.
  revert i Hi Hd. induction d as [|d IH]; intros i Hi Hd.
  - apply Hend. lia.
  - apply Hstep; [lia|]. apply IH; lia.
Qed.

Lemma for_loop_mono iters i body body' :
  (∀ j, body j ⊑ body' j) → for_loop iters i body ⊑ for_loop iters i body'.
Proof.
  intros Hb. revert i. induction iters as [|iters IH]; intros i; [done|].
  simpl. apply bind_mono; [apply Hb|]. intros [|]; [apply IH | done].
Qed.

Lemma for_range_mono lo hi body body' :
  (∀ j, body j ⊑ body' j) → for_range lo hi body ⊑ for_range lo hi body'.
Proof. apply for_loop_mono. Qed.

(** A loop whose iterations continue and leave the state as it is. *)
Lemma for_range_skip lo hi body s :
  (∀ i, lo ≤ i < hi → body i s = Ok (Continue, s)) →
  for_range lo hi body s = Ok (tt, s).
Proof.
  intros H. apply (for_range_ind (λ i, for_range i hi body s = Ok (tt, s)) lo hi); [..|lia].
  - intros i Hi. by apply for_range_ge.
  - intros i Hi IH. by rewrite (for_range_Continue _ _ _ s s) by (lia || by apply H).
Qed.

Lemma for_each_skip {A} (l : list A) (body : A → M S unit) s :
  (∀ x, x ∈ l → body x s = Ok (tt, s)) → for_each l body s = Ok (tt, s).
Proof.
  induction l as [|x l IH]; intros H; [done|]. simpl.
  rewrite (bind_Ok _ _ _ tt s) by (apply H; by left).
  apply IH. intros y Hy. apply H. by right.
Qed.

(** A loop whose iteration [i] continues and maps the state by [step i], on
    the states of an invariant [I]. *)
Lemma for_range_steps (I : S → Prop) (step : Z → S → S) lo hi body s :
  (∀ i s, lo ≤ i < hi → I s → body i s = Ok (Continue, step i s) ∧ I (step i s)) →
  I s →
  for_range lo hi body s = Ok (tt, foldl (λ s i, step i s) s (seqZ lo (hi - lo))).
Proof.
  intros Hbody. remember (Z.to_nat (hi - lo)) as d eqn:Hd. revert lo s Hd Hbody.
  induction d as [|d IH]; intros lo s Hd Hbody Hs.
  - rewrite for_range_ge by lia. unfold seqZ. by rewrite <- Hd.
  - destruct (Hbody lo s) as [Hb HI]; [lia | done |].
    rewrite (for_range_Continue lo hi body s (step lo s)), seqZ_cons by (lia || done).
    simpl.
    replace (Z.pred (hi - lo)) with (hi - Z.succ lo) by lia.
    apply IH; [lia | | done]. intros i s' Hi. apply Hbody. lia.
Qed.

Lemma for_range_steps_inv (I : S → Prop) (step : Z → S → S) lo hi s :
  (∀ i s, lo ≤ i < hi → I s → I (step i s)) → I s →
  I (foldl (λ s i, step i s) s (seqZ lo (hi - lo))).
Proof.
  intros Hstep. remember (Z.to_nat (hi - lo)) as d eqn:Hd. revert lo s Hd Hstep.
  induction d as [|d IH]; intros lo s Hd Hstep Hs.
  - unfold seqZ. by rewrite <- Hd.
  - rewrite seqZ_cons by lia. simpl.
    replace (Z.pred (hi - lo)) with (hi - Z.succ lo) by lia.
    apply IH; [lia | | apply Hstep; [lia | done]]. intros i s' Hi. apply Hstep. lia.
Qed.
Lemma foldl_const_iter {A} (step : S → S) (l : list A) s :
  foldl (λ s _, step s) s l = Nat.iter (length l) step s.
Proof.
  revert s. induction l as [|x l IH]; intros s; [done|].
  simpl foldl. rewrite IH. simpl length. by rewrite Nat.iter_succ_r.
Qed.

(** A loop whose every iteration continues and maps the state by [step]. *)
Lemma for_range_iter (I : S → Prop) (step : S → S) lo hi body s :
  (∀ i s, lo ≤ i < hi → I s → body i s = Ok (Continue, step s) ∧ I (step s)) →
  I s →
  for_range lo hi body s = Ok (tt, Nat.iter (Z.to_nat (hi - lo)) step s).
Proof.
  intros Hbody Hs. rewrite (for_range_steps I (λ _, step)) by done.
  by rewrite foldl_const_iter, length_seqZ.
Qed.
Lemma for_each_app {A} (l1 l2 : list A) (body : A → M S unit) :
  for_each (l1 ++ l2) body ≡ (for_each l1 body ;; for_each l2 body).
Proof.
  induction l1 as [|x l1 IH]; simpl; [by rewrite bind_ret_l|].
  rewrite bind_assoc. by setoid_rewrite IH.
Qed.

End loops.

Section vectors.
Context {A : Type}.
Implicit Types (v : list A) (x : A).

(** A prefix of an append, by the length of the prefix taken of the first
    part. *)
Lemma take_budget_app (b : nat) (l1 l2 : list A) :
  take b (l1 ++ l2) = take b l1 ++ take (b - length (take b l1)) l2.
Proof.
  rewrite take_app, length_take. f_equal.
  destruct (decide (b ≤ length l1)%nat); [|f_equal; lia].
  by replace (b - length l1)%nat with O by lia;
     replace (b - b `min` length l1)%nat with O by lia.
Qed.

Lemma insert_last v i x y : length v = i → <[i := y]> (v ++ [x]) = v ++ [y].
Proof. intros <-. rewrite <- (Nat.add_0_r (length v)). by rewrite insert_app_r. Qed.

Lemma lookup_last v i x : length v = i → (v ++ [x]) !! i = Some x.
Proof. intros <-. by apply list_lookup_middle. Qed.

Lemma length_join_replicate (n : nat) v :
  length (mjoin (replicate n v)) = (n * length v)%nat.
Proof. induction n as [|n IH]; simpl; [done|]. rewrite length_app, IH. lia. Qed.

Lemma join_replicate_lookup (n : nat) v (i j : nat) :
  (i < n)%nat → (j < length v)%nat →
  mjoin (replicate n v) !! (i * length v + j)%nat = v !! j.
Proof.
  revert i. induction n as [|n IH]; intros i Hi Hj; [lia|]. simpl.
  destruct i as [|i]; simpl.
  - by rewrite lookup_app_l.
  - rewrite lookup_app_r by lia. rewrite <- (IH i) by lia. f_equal. lia.
Qed.

Lemma flat_map_singleton v : flat_map (λ x, [x]) v = v.
Proof. induction v as [|x v IH]; simpl; [done | by rewrite IH]. Qed.

Lemma length_flat_map_const {B} (f : B → list A) (l : list B) (c : nat) :
  (∀ y, length (f y) = c) → length (flat_map f l) = (c * length l)%nat.
Proof.
  intros Hf. induction l as [|y l IH]; simpl; [lia|].
  rewrite length_app, Hf, IH. lia.
Qed.

Lemma flat_map_replicate_const {B} (f : B → A) (l : list B) (c : nat) x :
  (∀ y, y ∈ l → f y = x) →
  flat_map (λ y, replicate c (f y)) l = replicate (c * length l) x.
Proof.
  intros Hf. induction l as [|y l IH]; simpl; [by rewrite Nat.mul_0_r|].
  rewrite IH, Hf, <- replicate_add by (set_solver || (intros; apply Hf; set_solver)).
  f_equal. lia.
Qed.

Lemma pop_back_emplace_back v x : pop_back (emplace_back v x) = Ok v.
Proof.
  unfold pop_back, emplace_back. rewrite removelast_last.
  by destruct v.
Qed.

Lemma length_emplace_back v x : length (emplace_back v x) = Datatypes.S (length v).
Proof. unfold emplace_back. rewrite length_app. simpl. lia. Qed.

Lemma vec_at_Ok v i x : vec_at v i = Ok x ↔ 0 ≤ i ∧ v !! Z.to_nat i = Some x.
Proof.
  unfold vec_at. destruct (v !! Z.to_nat i) as [y|]; [|by intros; split; [|intros []]].
  case_bool_decide; split; try done; [by intros [= ->] | by intros [_ [= ->]] | by intros []].
Qed.

Lemma vec_at_lookup v (i : nat) x : v !! i = Some x → vec_at v (Z.of_nat i) = Ok x.
Proof. intros H. apply vec_at_Ok. rewrite Nat2Z.id. split; [lia | done]. Qed.

Lemma vec_at_Err v i :
  ¬ (0 ≤ i < Z.of_nat (length v)) → vec_at v i = Err (UB OutOfRange).
Proof.
  intros Hi. unfold vec_at.
  destruct (v !! Z.to_nat i) as [y|] eqn:Hl; [|done].
  apply lookup_lt_Some in Hl. case_bool_decide; [lia | done].
Qed.

Lemma vec_at_emplace_back_last v x :
  vec_at (emplace_back v x) (Z.of_nat (length v)) = Ok x.
Proof. apply vec_at_lookup. unfold emplace_back. by rewrite list_lookup_middle. Qed.

End vectors.

Lemma sum_Z_app (l1 l2 : list Z) : sum_Z (l1 ++ l2) = sum_Z l1 + sum_Z l2.
Proof. induction l1 as [|x l1 IH]; simpl; lia. Qed.

Section hoare.
Context {S : Type}.
Implicit Types (P : S → Prop).

Lemma hoare_ret {A} P (a : A) (Q : A → S → Prop) :
  (∀ s, P s → Q a s) → hoare P (ret a) Q.
Proof. intros H s Hs. by apply H. Qed.

Lemma hoare_bind {A B} P (m : M S A) (R : A → S → Prop) (f : A → M S B) Q :
  hoare P m R → (∀ a, hoare (R a) (f a) Q) → hoare P (x <- m ;; f x) Q.
Proof.
  intros Hm Hf s Hs. unfold bind. specialize (Hm s Hs).
  destruct (m s) as [[a s']|e]; [by apply Hf | done].
Qed.

Lemma hoare_conseq {A} (P P' : S → Prop) (m : M S A) (Q Q' : A → S → Prop) :
  hoare P' m Q' → (∀ s, P s → P' s) → (∀ a s, Q' a s → Q a s) → hoare P m Q.
Proof.
  intros Hm HP HQ s Hs. specialize (Hm s (HP s Hs)).
  destruct (m s) as [[a s']|e]; [by apply HQ | done].
Qed.

Lemma hoare_gets {A} P (f : S → A) (Q : A → S → Prop) :
  (∀ s, P s → Q (f s) s) → hoare P (gets f) Q.
Proof. intros H s Hs. by apply H. Qed.

Lemma hoare_modify P (f : S → S) (Q : unit → S → Prop) :
  (∀ s, P s → Q tt (f s)) → hoare P (modify f) Q.
Proof. intros H s Hs. by apply H. Qed.

Lemma hoare_fail {A} P e (Q : A → S → Prop) : hoare P (fail e) Q.
Proof. by intros s Hs. Qed.

Lemma hoare_lift_result {A} P (r : result A) (Q : A → S → Prop) :
  (∀ a s, r = Ok a → P s → Q a s) → hoare P (lift_result r) Q.
Proof. intros H s Hs. unfold lift_result. destruct r; [by apply H | done]. Qed.

Lemma hoare_zoom {T A} (proj : S → T) (upd : T → S → S) P (m : M T A) Q :
  (∀ s a t, P s → m (proj s) = Ok (a, t) → Q a (upd t s)) →
  hoare P (zoom proj upd m) Q.
Proof.
  intros H s Hs. unfold zoom.
  destruct (m (proj s)) as [[a t]|e] eqn:Hm; [by eapply H | done].
Qed.

(** The invariant rule for counted loops. *)
Lemma hoare_for_loop (I : S → Prop) iters i (body : Z → M S ctl) :
  (∀ j, hoare I (body j) (λ _, I)) → hoare I (for_loop iters i body) (λ _, I).
Proof.
  intros Hbody. revert i. induction iters as [|n IH]; intros i; simpl.
  - by apply hoare_ret.
  - eapply hoare_bind; [apply Hbody|]. intros [|]; [apply IH | by apply hoare_ret].
Qed.

Lemma hoare_for_range (I : S → Prop) lo hi (body : Z → M S ctl) :
  (∀ j, hoare I (body j) (λ _, I)) → hoare I (for_range lo hi body) (λ _, I).
Proof. apply hoare_for_loop. Qed.

Lemma hoare_for_each {A} (I : S → Prop) (l : list A) (body : A → M S unit) :
  (∀ x, x ∈ l → hoare I (body x) (λ _, I)) → hoare I (for_each l body) (λ _, I).
Proof.
  induction l as [|x l IH]; intros Hbody; simpl.
  - by apply hoare_ret.
  - eapply hoare_bind; [apply Hbody; by left|].
    intros []. apply IH. intros y Hy. apply Hbody. by right.
Qed.

End hoare.

Section terminates.
Context {S : Type}.

Lemma terminates_ret {A} (a : A) : terminates (ret (S := S) a).
Proof. by intros s. Qed.

Lemma terminates_bind {A B} (m : M S A) (f : A → M S B) :
  terminates m → (∀ a, terminates (f a)) → terminates (x <- m ;; f x).
Proof.
  intros Hm Hf s. unfold bind. specialize (Hm s).
  destruct (m s) as [[a s']|e]; [apply Hf | intros [= ->]; by apply Hm].
Qed.

Lemma terminates_gets {A} (f : S → A) : terminates (gets f).
Proof. by intros s. Qed.

Lemma terminates_get : terminates (get (S := S)).
Proof. by intros s. Qed.

Lemma terminates_put (s : S) : terminates (put s).
Proof. by intros s'. Qed.

Lemma terminates_modify (f : S → S) : terminates (modify f).
Proof. by intros s. Qed.

Lemma terminates_fail {A} u : terminates (fail (S := S) (A := A) (UB u)).
Proof. by intros s. Qed.

Lemma terminates_lift_result {A} (r : result A) :
  r ≠ Err OutOfFuel → terminates (lift_result (S := S) r).
Proof. intros Hr s. unfold lift_result. by destruct r as [a|e]; [|intros [= ->]]. Qed.

Lemma terminates_zoom {T A} (proj : S → T) (upd : T → S → S) (m : M T A) :
  terminates m → terminates (zoom proj upd m).
Proof.
  intros Hm s. unfold zoom. specialize (Hm (proj s)).
  destruct (m (proj s)) as [[a t]|e]; [done | intros [= ->]; by apply Hm].
Qed.

Lemma terminates_for_loop iters i (body : Z → M S ctl) :
  (∀ j, terminates (body j)) → terminates (for_loop iters i body).
Proof.
  intros Hbody. revert i. induction iters as [|iters IH]; intros i; simpl.
  - apply terminates_ret.
  - apply terminates_bind; [done|]. intros [|]; [apply IH | apply terminates_ret].
Qed.

Lemma terminates_for_range lo hi (body : Z → M S ctl) :
  (∀ j, terminates (body j)) → terminates (for_range lo hi body).
Proof. apply terminates_for_loop. Qed.

Lemma terminates_for_each {A} (l : list A) (body : A → M S unit) :
  (∀ x, terminates (body x)) → terminates (for_each l body).
Proof.
  intros Hbody. induction l as [|x l IH]; simpl; [apply terminates_ret|].
  apply terminates_bind; [done | by intros _].
Qed.

End terminates.

Lemma pop_back_defined {A} (v : list A) : pop_back v ≠ Err OutOfFuel.
Proof. by destruct v. Qed.

Lemma vec_at_defined {A} (v : list A) i : vec_at v i ≠ Err OutOfFuel.
Proof. unfold vec_at. destruct (v !! Z.to_nat i); [case_bool_decide|]; done. Qed.

(** * Automation *)

Create HintDb prog discriminated.
Create Rewrite HintDb prog.

(** [eauto with prog] shows that a program built from the operations of
    the monad never runs out of fuel. *)
#[export] Hint Resolve terminates_ret terminates_gets terminates_get terminates_put
  terminates_modify terminates_fail terminates_bind terminates_zoom
  terminates_lift_result terminates_for_range terminates_for_each
  pop_back_defined vec_at_defined : prog.
#[export] Hint Extern 2 (terminates (if bool_decide _ then _ else _)) =>
  case_bool_decide : prog.

(** [autorewrite with prog] simplifies the vector operations. *)
#[export] Hint Rewrite @pop_back_emplace_back @length_emplace_back : prog.

(** The rule of the triple for the statement at the head of the
    program. *)
Ltac hoare_step :=
  lazymatch goal with
  | |- hoare _ (bind _ _) _ => eapply hoare_bind
  | |- hoare _ (ret _) _ => apply hoare_ret
  | |- hoare _ (gets _) _ => apply hoare_gets
  | |- hoare _ (modify _) _ => apply hoare_modify
  | |- hoare _ (fail _) _ => apply hoare_fail
  | |- hoare _ (lift_result _) _ => apply hoare_lift_result
  | |- hoare _ (zoom _ _ _) _ => apply hoare_zoom
  | |- hoare _ (for_range _ _ _) _ => apply hoare_for_range
  | |- hoare _ (for_each _ _) _ => apply hoare_for_each
  | |- hoare _ (if bool_decide _ then _ else _) _ => case_bool_decide
  end.

(** Evaluate the first step of a run [(x <- m ;; k) s] whose [m] computes. *)
Ltac run_step :=
  lazymatch goal with
  | |- context [bind ?m ?f ?s] =>
      let r := eval hnf in (m s) in
      lazymatch r with
      | Ok (?a, ?s') => rewrite (bind_Ok m f s a s' eq_refl)
      | Err ?e => rewrite (bind_Err m f s e eq_refl)
      end
  end.
