(* ===== verification/Config.v ===== *)
(** * The parameters of the benchmark

    The four [constexpr int] constants of [src/benchmark.cpp] (lines 36-43)
    as the fields of a type class, so that the definitions of the other
    files name them as the source does and the theorems hold for every
    configuration, the reference one included.  A constant is an [int];
    where the source compares it with a [size_t] loop counter it is first
    converted to [size_t], which [rows_per_dimension], [repetitions] and
    [max_dimensions] write out. *)

From S2P Require Import Prelude.

Class Config : Set := {
  number_of_tuples_in_dimension_tables : Z;
  max_number_of_dimension_tables : Z;
  number_of_repetitions : Z;
  number_of_tuples_in_fact_table : Z;
}.

(** The values of the source. *)
Definition reference_config : Config := {|
  number_of_tuples_in_dimension_tables := 100;
  max_number_of_dimension_tables := 10;
  number_of_repetitions := 10;
  number_of_tuples_in_fact_table := 50000000;
|}.

(** A small configuration, for evaluating the model: three rows per
    dimension table and a cap of five tuples. *)
Definition example_config : Config := {|
  number_of_tuples_in_dimension_tables := 3;
  max_number_of_dimension_tables := 3;
  number_of_repetitions := 2;
  number_of_tuples_in_fact_table := 5;
|}.

(** Every constant has the type [int]. *)
Class ConfigOk (cfg : Config) : Prop := {
  rows_is_int : is_int number_of_tuples_in_dimension_tables;
  max_dims_is_int : is_int max_number_of_dimension_tables;
  repetitions_is_int : is_int number_of_repetitions;
  cap_is_int : is_int number_of_tuples_in_fact_table;
}.

#[export] Instance ConfigOk_dec cfg : Decision (ConfigOk cfg).
Proof.
  destruct (decide (is_int number_of_tuples_in_dimension_tables
                    ∧ is_int max_number_of_dimension_tables
                    ∧ is_int number_of_repetitions
                    ∧ is_int number_of_tuples_in_fact_table)) as [H|H];
    [left; destruct_and!; by split | right; intros []; by apply H].
Defined.

Section config.
Context `{cfg : Config}.

(** The bound of [tuple_index < number_of_tuples_in_dimension_tables] and
    of [j < number_of_tuples_in_dimension_tables], as the [size_t] that the
    comparison reads. *)
Definition rows_per_dimension : Z := to_size_t number_of_tuples_in_dimension_tables.

(** The bound of [i < number_of_repetitions]. *)
Definition repetitions : Z := to_size_t number_of_repetitions.

(** The bound of [i <= max_number_of_dimension_tables]. *)
Definition max_dimensions : Z := to_size_t max_number_of_dimension_tables.

Lemma rows_per_dimension_range : is_size_t rows_per_dimension.
Proof. apply to_size_t_range. Qed.

Lemma rows_per_dimension_nonneg `{!ConfigOk cfg} :
  0 ≤ number_of_tuples_in_dimension_tables →
  rows_per_dimension = number_of_tuples_in_dimension_tables.
Proof. intros. apply to_size_t_id, is_int_size_t; [apply rows_is_int | done]. Qed.

Lemma repetitions_nonneg `{!ConfigOk cfg} :
  0 ≤ number_of_repetitions → repetitions = number_of_repetitions.
Proof. intros. apply to_size_t_id, is_int_size_t; [apply repetitions_is_int | done]. Qed.

Lemma max_dimensions_nonneg `{!ConfigOk cfg} :
  0 ≤ max_number_of_dimension_tables →
  max_dimensions = max_number_of_dimension_tables.
Proof. intros. apply to_size_t_id, is_int_size_t; [apply max_dims_is_int | done]. Qed.

Lemma cap_lt_INT_MAX `{!ConfigOk cfg} c :
  c < number_of_tuples_in_fact_table → c < INT_MAX.
Proof. pose proof cap_is_int as [_ ?]. lia. Qed.

End config.

Lemma reference_config_ok : ConfigOk reference_config.
Proof. by apply (bool_decide_unpack _). Qed.

Lemma example_config_ok : ConfigOk example_config.
Proof. by apply (bool_decide_unpack _). Qed.

#[export] Existing Instance reference_config_ok.
#[export] Existing Instance example_config_ok.
