(* ===== verification/LexProduct.v ===== *)
(** * The lexicographic product: the abstract specification of the enumeration

    [lex_product k m] lists the tuples of [{0..k-1}^m] with column [0]
    varying slowest.  Nothing here refers to the program: the file states
    what the enumerator promises (a prefix of this list) and proves that the
    list is what its name says: it holds exactly the tuples of length [m]
    over [0..k-1], each once, in strictly increasing lexicographic order, and
    its [i]-th tuple is [i] written with [m] digits in base [k].

    [fresh_cells] lists, for the tuples of a list in order, the cells
    (column and value) from the first column in which a tuple differs from
    the tuple before it: the nodes of the tree of prefixes, in the order a
    depth-first walk meets them.  Over the first [b] tuples of the product
    column [c] has one fresh cell for each block of [k^(m-1-c)] tuples that
    the prefix meets ([cells_of_fresh_cells]). *)

From stdpp Require Import sorting.
From S2P Require Import Prelude.

(** Lexicographic order on tuples of the same length. *)
Inductive lex_lt : list Z → list Z → Prop :=
| lex_lt_head x y s t : x < y → length s = length t → lex_lt (x :: s) (y :: t)
| lex_lt_tail x s t : lex_lt s t → lex_lt (x :: s) (x :: t).

(** The number of leading columns in which two tuples agree. *)
Fixpoint common_prefix (s t : list Z) : nat :=
  match s, t with
  | x :: s', y :: t' => if decide (x = y) then S (common_prefix s' t') else O
  | _, _ => O
  end.

(** The cells of a tuple: its values with their columns, numbered from
    [d]. *)
Definition cells (d : Z) (t : list Z) : list (Z * Z) :=
  imap (λ c j, (d + Z.of_nat c, j)) t.

(** The cells of [t] from the first column in which it differs from the
    tuple before it; all of them when there is none. *)
Definition fresh (d : Z) (prev : option (list Z)) (t : list Z) : list (Z * Z) :=
  drop (from_option (λ p, common_prefix p t) O prev) (cells d t).

(** The fresh cells of the tuples of a list, in the order of the list. *)
Fixpoint fresh_cells (d : Z) (prev : option (list Z)) (rows : list (list Z))
    : list (Z * Z) :=
  match rows with
  | [] => []
  | t :: rows' => fresh d prev t ++ fresh_cells d (Some t) rows'
  end.

(** The number of cells of column [c]. *)
Definition cells_of (c : Z) (cs : list (Z * Z)) : Z :=
  Z.of_nat (length (filter (λ x, x.1 = c) cs)).

(** The tuple before the one that follows [rows]. *)
Definition last_or (prev : option (list Z)) (rows : list (list Z)) : option (list Z) :=
  match last rows with Some t => Some t | None => prev end.

(** No tuple yet, or one whose first column is below [j]. *)
Definition starts_below (prev : option (list Z)) (j : Z) : Prop :=
  match prev with Some (j' :: _) => j' < j | _ => True end.

Section lex_product.
Context (k : Z).

Fixpoint lex_product (m : nat) : list (list Z) :=
  match m with
  | O => [[]]
  | S m' => seqZ 0 k ≫= λ j, (j ::.) <$> lex_product m'
  end.

(** The tuples of length [S m] whose first column is at least [j0]: what the
    loop over a dimension table has left to produce when it is at row [j0]. *)
Definition rows_from (m : nat) (j0 : Z) : list (list Z) :=
  seqZ j0 (k - j0) ≫= λ j, (j ::.) <$> lex_product m.

(** [i] in base [k] on [m] digits, most significant first. *)
Fixpoint digits (m : nat) (i : Z) : list Z :=
  match m with
  | O => []
  | S m' => i / k ^ Z.of_nat m' :: digits m' (i `mod` k ^ Z.of_nat m')
  end.

(** The number of tuples, [k^m] (no tuple when [k] is negative and
    [0 < m]). *)
Definition lex_size (m : nat) : nat := Z.to_nat k ^ m.

(** ** Unfolding *)

Lemma lex_product_S m : lex_product (S m) = rows_from m 0.
Proof. unfold rows_from. by rewrite Z.sub_0_r. Qed.

Lemma rows_from_ge m j0 : k ≤ j0 → rows_from m j0 = [].
Proof. intros. unfold rows_from. by rewrite seqZ_nil by lia. Qed.

Lemma rows_from_lt m j0 :
  j0 < k →
  rows_from m j0 = ((j0 ::.) <$> lex_product m) ++ rows_from m (j0 + 1).
Proof.
  intros. unfold rows_from. rewrite seqZ_cons by lia. rewrite bind_cons.
  do 3 f_equal; lia.
Qed.

(** ** Size *)

Lemma length_rows_from m j0 :
  length (rows_from m j0) = (Z.to_nat (k - j0) * length (lex_product m))%nat.
Proof.
  apply (for_range_ind
    (λ j, length (rows_from m j) = (Z.to_nat (k - j) * length (lex_product m))%nat)
    j0 k); [| |done].
  - intros i Hi. rewrite rows_from_ge by done. by replace (Z.to_nat (k - i)) with O by lia.
  - intros i Hi IH. rewrite rows_from_lt, length_app, length_fmap, IH by lia.
    replace (Z.to_nat (k - i)) with (S (Z.to_nat (k - (i + 1)))) by lia. simpl. lia.
Qed.

Lemma length_lex_product m : length (lex_product m) = lex_size m.
Proof.
  unfold lex_size. induction m as [|m IH]; [done|].
  rewrite lex_product_S, length_rows_from, IH, Z.sub_0_r. by rewrite Nat.pow_succ_r'.
Qed.

Lemma lex_size_Z m : 0 ≤ k → Z.of_nat (lex_size m) = k ^ Z.of_nat m.
Proof. intros. unfold lex_size. rewrite Nat2Z.inj_pow. f_equal. lia. Qed.

Lemma lex_size_pos m : 0 < k → (0 < lex_size m)%nat.
Proof. intros. unfold lex_size. apply Nat.neq_0_lt_0, Nat.pow_nonzero. lia. Qed.

(** ** Membership *)

Lemma elem_of_rows_from m j0 t :
  t ∈ rows_from m j0 ↔ ∃ j s, t = j :: s ∧ j0 ≤ j < k ∧ s ∈ lex_product m.
Proof.
  unfold rows_from. rewrite list_elem_of_bind. split.
  - intros (j & (s & -> & Hs)%list_elem_of_fmap & Hj%elem_of_seqZ).
    exists j, s. split_and!; [done | lia | lia | done].
  - intros (j & s & -> & Hj & Hs). exists j. split.
    + apply list_elem_of_fmap. eauto.
    + apply elem_of_seqZ. lia.
Qed.

Lemma elem_of_lex_product m t :
  t ∈ lex_product m ↔ length t = m ∧ Forall (λ j, 0 ≤ j < k) t.
Proof.
  revert t. induction m as [|m IH]; intros t.
  - simpl. rewrite list_elem_of_singleton. split; [by intros -> | ].
    intros [Hl _]. by destruct t.
  - rewrite lex_product_S, elem_of_rows_from. split.
    + intros (j & s & -> & Hj & [Hl Hs]%IH). simpl. split; [lia | by constructor].
    + intros [Hl Ht]. destruct t as [|j s]; [done|].
      apply Forall_cons in Ht as [Hj Hs]. exists j, s. split_and!; try done; try lia.
      apply IH. split; [simpl in Hl; lia | done].
Qed.

Lemma lex_product_tuple_length m t : t ∈ lex_product m → length t = m.
Proof. by intros [? _]%elem_of_lex_product. Qed.

(** ** Order *)

Lemma lex_lt_length s t : lex_lt s t → length s = length t.
Proof. induction 1; simpl; congruence. Qed.

Lemma lex_lt_irrefl t : ¬ lex_lt t t.
Proof. induction t as [|x t IH]; inversion 1; subst; [lia | done]. Qed.

Lemma lex_lt_trans s t u : lex_lt s t → lex_lt t u → lex_lt s u.
Proof.
  intros Hst. revert u. induction Hst as [x y s t Hxy Hl|x s t Hst IH]; intros u Htu.
  - inversion Htu; subst.
    + apply lex_lt_head; [lia | congruence].
    + apply lex_lt_head; [done|]. rewrite Hl. by apply lex_lt_length.
  - inversion Htu; subst.
    + apply lex_lt_head; [done|]. apply lex_lt_length in Hst. congruence.
    + apply lex_lt_tail. by apply IH.
Qed.

#[export] Instance lex_lt_strict : StrictOrder lex_lt.
Proof. split; [exact lex_lt_irrefl | exact lex_lt_trans]. Qed.

Lemma rows_from_sorted m j0 :
  StronglySorted lex_lt (lex_product m) → StronglySorted lex_lt (rows_from m j0).
Proof.
  intros Hm.
  apply (for_range_ind (λ j, StronglySorted lex_lt (rows_from m j)) j0 k); [| |done].
  - intros i Hi. rewrite rows_from_ge by done. constructor.
  - intros i Hi IH. rewrite rows_from_lt by lia. apply StronglySorted_app_2; [| |done].
    + intros s t (s' & -> & Hs)%list_elem_of_fmap (j & t' & -> & Hj & Ht)%elem_of_rows_from.
      apply lex_lt_head; [lia|].
      apply lex_product_tuple_length in Hs, Ht. congruence.
    + apply StronglySorted_fmap with (R1 := lex_lt); [|done]. intros s t. apply lex_lt_tail.
Qed.

Lemma lex_product_sorted m : StronglySorted lex_lt (lex_product m).
Proof.
  induction m as [|m IH]; [repeat constructor|].
  rewrite lex_product_S. by apply rows_from_sorted.
Qed.

(** Every prefix of the product is strictly increasing. *)
Lemma lex_product_take_sorted (b m : nat) :
  StronglySorted lex_lt (take b (lex_product m)).
Proof.
  apply (StronglySorted_app_1_l _ _ (drop b (lex_product m))).
  rewrite take_drop. apply lex_product_sorted.
Qed.

Lemma lex_product_NoDup m : NoDup (lex_product m).
Proof.
  pose proof (lex_product_sorted m) as H.
  induction H as [|t l Hl IH Ht]; constructor; [|done].
  intros Hin. rewrite Forall_forall in Ht. by apply (lex_lt_irrefl t), Ht.
Qed.

(** ** The closed form *)

Lemma rows_from_lookup m j0 (i : nat) :
  0 < k →
  (∀ i' : nat, Z.of_nat i' < k ^ Z.of_nat m →
     lex_product m !! i' = Some (digits m (Z.of_nat i'))) →
  Z.of_nat i < (k - j0) * k ^ Z.of_nat m →
  rows_from m j0 !! i =
    Some (j0 + Z.of_nat i / k ^ Z.of_nat m :: digits m (Z.of_nat i `mod` k ^ Z.of_nat m)).
Proof.
  intros Hk Hm. assert (HN : 0 < k ^ Z.of_nat m) by (apply Z.pow_pos_nonneg; lia).
  assert (Hlen : ∀ j, length ((j ::.) <$> lex_product m) = Z.to_nat (k ^ Z.of_nat m)).
  { intros j. rewrite length_fmap, length_lex_product, <- lex_size_Z by lia. lia. }
  set (N := k ^ Z.of_nat m) in *. revert i.
  apply (for_range_ind (λ j, ∀ i : nat, Z.of_nat i < (k - j) * N →
    rows_from m j !! i = Some (j + Z.of_nat i / N :: digits m (Z.of_nat i `mod` N))) j0 k);
    [| |done].
  - intros j Hj i Hi. nia.
  - intros j Hj IH i Hi.
    rewrite rows_from_lt by lia. destruct (decide (Z.of_nat i < N)) as [Hlt|Hge].
    + rewrite lookup_app_l by (rewrite Hlen; lia).
      rewrite list_lookup_fmap, Hm by done. simpl.
      by rewrite Z.div_small, Z.mod_small, Z.add_0_r by lia.
    + rewrite lookup_app_r, Hlen by (rewrite Hlen; lia). rewrite IH by lia.
      replace (Z.of_nat (i - Z.to_nat N)) with (Z.of_nat i + (-1) * N) by lia.
      rewrite Z.div_add, Z.mod_add by lia. do 2 f_equal. lia.
Qed.

(** The [i]-th tuple is [i] in base [k]. *)
Lemma lex_product_lookup m (i : nat) :
  0 ≤ k → Z.of_nat i < k ^ Z.of_nat m →
  lex_product m !! i = Some (digits m (Z.of_nat i)).
Proof.
  intros Hk. revert i. induction m as [|m IH]; intros i Hi.
  - simpl in *. by replace i with O by lia.
  - rewrite Nat2Z.inj_succ, Z.pow_succ_r in Hi by lia.
    destruct (decide (k = 0)) as [->|]; [lia|].
    rewrite lex_product_S, rows_from_lookup; [done | lia | done |].
    by rewrite Z.sub_0_r.
Qed.

Lemma length_digits m i : length (digits m i) = m.
Proof. revert i. induction m as [|m IH]; intros i; simpl; [done | by rewrite IH]. Qed.

(** Dividing by [k^e] and reducing modulo [k] commutes with reducing
    modulo a higher power of [k]. *)
Lemma div_mod_pow (i : Z) (e j : nat) :
  0 < k →
  ((i `mod` k ^ Z.of_nat (e + S j)) / k ^ Z.of_nat e) `mod` k =
  (i / k ^ Z.of_nat e) `mod` k.
Proof.
  intros Hk.
  assert (0 < k ^ Z.of_nat e) by (apply Z.pow_pos_nonneg; lia).
  assert (0 < k ^ Z.of_nat j) by (apply Z.pow_pos_nonneg; lia).
  replace (k ^ Z.of_nat (e + S j)) with (k ^ Z.of_nat e * (k * k ^ Z.of_nat j)).
  2:{ by rewrite Nat2Z.inj_add, Nat2Z.inj_succ, Z.pow_add_r, Z.pow_succ_r by lia. }
  rewrite Z.rem_mul_r by lia.
  rewrite (Z.mul_comm (k ^ Z.of_nat e)), Z.div_add by lia.
  rewrite (Z.div_small (i `mod` _)) by (apply Z.mod_pos_bound; lia).
  rewrite Z.add_0_l, Z.rem_mul_r by lia.
  by rewrite (Z.mul_comm k), Z.mod_add, Z.mod_mod by lia.
Qed.

(** Column [j] of the [i]-th tuple. *)
Lemma digits_lookup (m : nat) (i : Z) (j : nat) :
  0 < k → 0 ≤ i < k ^ Z.of_nat m → (j < m)%nat →
  digits m i !! j = Some ((i / k ^ Z.of_nat (m - 1 - j)) `mod` k).
Proof.
  intros Hk. revert i j. induction m as [|m IH]; intros i j Hi Hj; [lia|].
  assert (0 < k ^ Z.of_nat m) by (apply Z.pow_pos_nonneg; lia).
  rewrite Nat2Z.inj_succ, Z.pow_succ_r in Hi by lia.
  destruct j as [|j]; simpl.
  - replace (m - 0 - 0)%nat with m by lia. f_equal. symmetry. apply Z.mod_small.
    split; [apply Z.div_pos; lia | apply Z.div_lt_upper_bound; lia].
  - rewrite IH; [|by apply Z.mod_pos_bound|lia]. f_equal.
    replace (m - 0 - S j)%nat with (m - 1 - j)%nat by lia.
    replace m with ((m - 1 - j) + S j)%nat at 1 by lia. by apply div_mod_pow.
Qed.

End lex_product.

(** ** Fresh cells *)

Section fresh_cells.
Implicit Types (d j : Z) (prev : option (list Z)) (t : list Z) (rows : list (list Z)).

Lemma cells_cons d j t : cells d (j :: t) = (d, j) :: cells (d + 1) t.
Proof.
  unfold cells. rewrite imap_cons, Z.add_0_r. f_equal.
  apply imap_ext. intros c x _. simpl. f_equal. lia.
Qed.

Lemma fresh_cells_app d prev rows1 rows2 :
  fresh_cells d prev (rows1 ++ rows2) =
    fresh_cells d prev rows1 ++ fresh_cells d (last_or prev rows1) rows2.
Proof.
  revert prev. induction rows1 as [|t rows1 IH]; intros prev; [done|].
  simpl. rewrite IH, <- app_assoc. do 2 f_equal.
  unfold last_or. rewrite last_cons. by destruct (last rows1).
Qed.

(** Below a tuple with the same first column, the first column is not
    fresh. *)
Lemma fresh_cells_cons_same d j t rows :
  fresh_cells d (Some (j :: t)) ((j ::.) <$> rows) = fresh_cells (d + 1) (Some t) rows.
Proof.
  revert t. induction rows as [|t' rows IH]; intros t; [done|].
  cbn [fmap list_fmap fresh_cells]. rewrite IH. f_equal.
  unfold fresh. simpl. rewrite decide_True by done. by rewrite cells_cons.
Qed.

(** After a tuple with another first column, every column of the first
    tuple is fresh. *)
Lemma fresh_cells_cons_new d prev j rows :
  starts_below prev j → rows ≠ [] →
  fresh_cells d prev ((j ::.) <$> rows) = (d, j) :: fresh_cells (d + 1) None rows.
Proof.
  intros Hprev Hrows. destruct rows as [|t rows]; [done|].
  cbn [fmap list_fmap fresh_cells]. rewrite fresh_cells_cons_same.
  assert (fresh d prev (j :: t) = (d, j) :: fresh (d + 1) None t) as ->; [|done].
  unfold fresh. rewrite cells_cons.
  destruct prev as [[|j' p]|]; simpl; [done | | done].
  simpl in Hprev. by rewrite decide_False by lia.
Qed.

Lemma starts_below_last_or prev j j' rows :
  j < j' → rows ≠ [] → starts_below (last_or prev ((j ::.) <$> rows)) j'.
Proof.
  intros Hj Hrows. unfold last_or. rewrite fmap_last.
  destruct (last rows) as [t|] eqn:Hlast; [done|].
  by apply last_None in Hlast.
Qed.

End fresh_cells.

(** ** Counting the fresh cells of a column *)

Section counting.
Context (k : Z) (Hk : 0 < k).
Implicit Types (d c j : Z) (prev : option (list Z)) (rows : list (list Z)).
Implicit Types (cs : list (Z * Z)) (b m : nat).

Lemma cells_of_app c cs1 cs2 : cells_of c (cs1 ++ cs2) = cells_of c cs1 + cells_of c cs2.
Proof. unfold cells_of. rewrite filter_app, length_app. lia. Qed.

Lemma cells_of_cons c x cs :
  cells_of c (x :: cs) = (if decide (x.1 = c) then 1 else 0) + cells_of c cs.
Proof.
  unfold cells_of. destruct (decide (x.1 = c)).
  - rewrite filter_cons_True by done. simpl. lia.
  - by rewrite filter_cons_False by done.
Qed.

Lemma elem_of_cells d t x : x ∈ cells d t → d ≤ x.1.
Proof.
  unfold cells. intros (i & Hx)%list_elem_of_lookup. rewrite list_lookup_imap in Hx.
  destruct (t !! i); simplify_eq/=. lia.
Qed.

(** Every fresh cell has a column from [d] on. *)
Lemma fresh_cells_columns d prev rows x : x ∈ fresh_cells d prev rows → d ≤ x.1.
Proof.
  revert prev. induction rows as [|t rows IH]; intros prev; simpl; [by intros ?%elem_of_nil|].
  intros [Hx|Hx]%elem_of_app; [|by eapply IH].
  unfold fresh in Hx. apply list_elem_of_lookup in Hx as [i Hx].
  rewrite lookup_drop in Hx. by eapply elem_of_cells, list_elem_of_lookup_2.
Qed.

Lemma cells_of_none c cs : (∀ x, x ∈ cs → x.1 ≠ c) → cells_of c cs = 0.
Proof.
  induction cs as [|x cs IH]; intros H; [done|].
  rewrite cells_of_cons, decide_False, IH; [done | | ].
  - intros y Hy. apply H. by right.
  - apply H. by left.
Qed.

Lemma cells_of_below c d prev rows : c < d → cells_of c (fresh_cells d prev rows) = 0.
Proof. intros Hc. apply cells_of_none. intros x Hx%fresh_cells_columns. lia. Qed.

Lemma take_lex_product_nonempty b m : (0 < b)%nat → take b (lex_product k m) ≠ [].
Proof.
  intros Hb Hnil%(f_equal length).
  rewrite length_take, length_lex_product in Hnil.
  pose proof (lex_size_pos k m Hk). simpl in Hnil. lia.
Qed.

(** A prefix of the rows from [j0]: a prefix of the rows that start with
    [j0], and a prefix of the rows from [j0 + 1]. *)
Lemma take_rows_from m j0 b :
  j0 < k →
  take b (rows_from k m j0) =
    ((j0 ::.) <$> take b (lex_product k m)) ++
    take (b - length (take b (lex_product k m))) (rows_from k m (j0 + 1)).
Proof.
  intros. rewrite (rows_from_lt k m j0) by done.
  by rewrite take_budget_app, fmap_take, !length_take, length_fmap.
Qed.

Lemma length_take_lex_product b m :
  Z.of_nat (length (take b (lex_product k m))) = Z.of_nat b `min` k ^ Z.of_nat m.
Proof. rewrite length_take, length_lex_product, Nat2Z.inj_min, lex_size_Z; lia. Qed.

(** The cells of a column over the loop of one level, given their number
    over the rows that start with one value. *)
Lemma cells_of_rows_from m d c e :
  0 < e → (e | k ^ Z.of_nat m) →
  (∀ b j prev, (0 < b)%nat → starts_below prev j →
     cells_of c (fresh_cells d prev ((j ::.) <$> take b (lex_product k m))) =
       cdiv (Z.of_nat b `min` k ^ Z.of_nat m) e) →
  ∀ j0 b prev, 0 ≤ j0 ≤ k → starts_below prev j0 →
    cells_of c (fresh_cells d prev (take b (rows_from k m j0))) =
      cdiv (Z.of_nat b `min` ((k - j0) * k ^ Z.of_nat m)) e.
Proof.
  intros He Hdiv Hblock j0 b prev [Hj0 Hle]. revert Hle b prev.
  assert (0 < k ^ Z.of_nat m) as HP by (apply Z.pow_pos_nonneg; lia).
  apply (for_range_ind (λ j, j ≤ k → ∀ b prev, starts_below prev j →
    cells_of c (fresh_cells d prev (take b (rows_from k m j))) =
      cdiv (Z.of_nat b `min` ((k - j) * k ^ Z.of_nat m)) e) j0 k); [| |done].
  - intros j Hj Hle b prev _. rewrite rows_from_ge, take_nil by done.
    replace (Z.of_nat b `min` ((k - j) * k ^ Z.of_nat m)) with 0 by nia.
    by rewrite cdiv_0.
  - intros j Hj IH _ b prev Hprev. destruct (decide (b = 0)%nat) as [->|Hb].
    { rewrite take_0. replace (Z.of_nat 0 `min` ((k - j) * k ^ Z.of_nat m)) with 0 by nia.
      by rewrite cdiv_0. }
    rewrite take_rows_from, fresh_cells_app, cells_of_app by lia.
    rewrite Hblock by (done || lia).
    rewrite IH; [|lia|apply starts_below_last_or; [lia|apply take_lex_product_nonempty; lia]].
    rewrite Nat2Z.inj_sub by (rewrite length_take; lia). rewrite length_take_lex_product.
    replace ((k - j) * k ^ Z.of_nat m) with ((k - (j + 1) + 1) * k ^ Z.of_nat m) by lia.
    apply cdiv_block; (done || lia).
Qed.

(** The number of fresh cells of column [c] in the first [b] tuples of
    the product: the number of blocks of [k ^ (d + m - 1 - c)] tuples that
    the prefix meets. *)
Lemma cells_of_fresh_cells m d c b :
  d ≤ c < d + Z.of_nat m →
  cells_of c (fresh_cells d None (take b (lex_product k m))) =
    cdiv (Z.of_nat b `min` k ^ Z.of_nat m) (k ^ (d + Z.of_nat m - 1 - c)).
Proof.
  revert d c b. induction m as [|m IH]; intros d c b Hc; [lia|].
  assert (0 < k ^ Z.of_nat m) as HP by (apply Z.pow_pos_nonneg; lia).
  rewrite lex_product_S.
  rewrite (cells_of_rows_from m d c (k ^ (d + Z.of_nat (S m) - 1 - c))); [| | | |lia|done].
  - rewrite Z.sub_0_r, Nat2Z.inj_succ, Z.pow_succ_r by lia. done.
  - apply Z.pow_pos_nonneg; lia.
  - exists (k ^ (c - d)). rewrite <- Z.pow_add_r by lia. f_equal. lia.
  - intros b' j prev Hb Hprev.
    rewrite fresh_cells_cons_new by (done || by apply take_lex_product_nonempty).
    rewrite cells_of_cons. cbn [fst]. destruct (decide (d = c)) as [->|Hdc].
    + rewrite cells_of_below by lia.
      replace (c + Z.of_nat (S m) - 1 - c) with (Z.of_nat m) by lia.
      rewrite cdiv_1; lia.
    + rewrite IH, Z.add_0_l by lia. do 2 f_equal. lia.
Qed.

End counting.
