(* ===== verification/Enumerator.v ===== *)
(** * The bounded cartesian enumerator: [get_fact_table]

    [get_fact_table] (lines 51-92 of [src/benchmark.cpp]) fills a fact table
    with at most [number_of_tuples_in_fact_table] tuples.  Its recursive
    lambda [rec_pointer] walks the dimension tables depth first; the tuple
    under construction is the caller's vector [current_tuple], which the
    caller's callback [add_entry_to_tuple] extends and [rec_pointer] pops.

    - [caller] is what the callback can reach: the vector [current_tuple]
      (shared with [get_fact_table], which received it by reference) and
      whatever else it captured.
    - [frame] adds the locals of [get_fact_table] that [rec_pointer]
      captures by reference: [fact_table] and [tuples_in_fact_table].
    - [rec_pointer_iteration] is the body of the [for] loop,
      [rec_pointer_body] the lambda with its parameter [rec_function],
      [rec_pointer] the lambda applied to itself (one unit of fuel per
      level), [get_fact_table] the function.
    - [PureEncoder] is what the enumerator needs from a callback to produce
      a prefix of the lexicographic product: on the rows and dimensions it is
      called with it appends one value, a function of the two indices, and
      changes nothing else.  [Encoder] is the same for a callback that
      also changes a state of its own, by a function of the two indices.

    The theorems: for a pure encoder and [1 <= n] the fact table is the
    encoding of the first [number_of_tuples_in_fact_table] tuples of
    [lex_product] ([get_fact_table_prefix]); its size is the minimum of the
    cap and [k^n]; [current_tuple] and the captured state are as before the
    call; for an encoder with a state of its own, that state is changed
    by one call for each fresh cell of the prefix, in order
    ([get_fact_table_calls]), of which the pure case is an instance, and
    the number of calls for each dimension follows
    ([get_fact_table_call_count]); for
    every callback the counter stays within the cap and equals the number
    of tuples added; fuel [n] is enough and more fuel changes nothing; for
    [n = 0] no fuel below [2^64 - 1] gives a result. *)

From S2P Require Import Prelude Config LexProduct.

(** A tuple of the fact table (the class template [FactTableObject]). *)
Record FactTableObject (T : Type) : Type := { relations_ : list T }.
Arguments Build_FactTableObject {T} _.
Arguments relations_ {T} _.

#[export] Instance FactTableObject_eq_dec {T} `{EqDecision T} :
  EqDecision (FactTableObject T).
Proof. solve_decision. Defined.

(** The variables of the caller that its callback captures by reference. *)
Record caller (E W : Type) : Type := {
  current_tuple : list E;
  captured : W;
}.
Arguments Build_caller {E W} _ _.
Arguments current_tuple {E W} _.
Arguments captured {E W} _.

(** [std::function<void(size_t i, size_t j)>]. *)
Definition callback (E W : Type) : Type := Z → Z → M (caller E W) unit.

(** The variables [rec_pointer] captures by reference. *)
Record frame (E W : Type) : Type := {
  fact_table : list (FactTableObject E);
  tuples_in_fact_table : Z;
  outer : caller E W;
}.
Arguments Build_frame {E W} _ _ _.
Arguments fact_table {E W} _.
Arguments tuples_in_fact_table {E W} _.
Arguments outer {E W} _.

Section enumerator.
Context `{cfg : Config} {E W : Type}.
Implicit Types (f : frame E W) (c : caller E W).

Definition set_outer c f : frame E W :=
  {| fact_table := fact_table f;
     tuples_in_fact_table := tuples_in_fact_table f;
     outer := c |}.

Definition set_current_tuple (v : list E) c : caller E W :=
  {| current_tuple := v; captured := captured c |}.

(** [fact_table.emplace_back(current_tuple)]: the tuple is copied. *)
Definition emplace_back_current_tuple : M (frame E W) unit :=
  modify (λ f,
    {| fact_table :=
         emplace_back (fact_table f)
                      {| relations_ := current_tuple (outer f) |};
       tuples_in_fact_table := tuples_in_fact_table f;
       outer := outer f |}).

(** [tuples_in_fact_table++] on an [int]. *)
Definition increment_tuples_in_fact_table : M (frame E W) unit :=
  f <- get ;;
  if bool_decide (tuples_in_fact_table f < INT_MAX) then
    put {| fact_table := fact_table f;
           tuples_in_fact_table := tuples_in_fact_table f + 1;
           outer := outer f |}
  else fail (UB IntOverflow).

(** [current_tuple.pop_back()]. *)
Definition pop_back_current_tuple : M (frame E W) unit :=
  zoom outer set_outer
    (c <- get ;;
     v <- lift_result (pop_back (current_tuple c)) ;;
     put (set_current_tuple v c)).

(** The [if] of the loop body: go to the next dimension table, or add the
    completed tuple to the fact table and count it. *)
Definition descend_or_emit (number_of_dimension_tables : Z)
    (rec_function : Z → M (frame E W) unit)
    (dimension_table_index : Z) : M (frame E W) unit :=
  if bool_decide (dimension_table_index < to_size_t (number_of_dimension_tables - 1))
  then rec_function (to_size_t (dimension_table_index + 1))
  else emplace_back_current_tuple ;; increment_tuples_in_fact_table.

(** One iteration of the loop of [rec_pointer]. *)
Definition rec_pointer_iteration (number_of_dimension_tables : Z)
    (add_entry_to_tuple : callback E W)
    (rec_function : Z → M (frame E W) unit)
    (dimension_table_index tuple_index : Z) : M (frame E W) ctl :=
  tuples <- gets tuples_in_fact_table ;;
  if bool_decide (number_of_tuples_in_fact_table ≤ tuples) then ret Return
  else
    zoom outer set_outer (add_entry_to_tuple dimension_table_index tuple_index) ;;
    descend_or_emit number_of_dimension_tables rec_function dimension_table_index ;;
    pop_back_current_tuple ;;
    ret Continue.

(** The lambda [rec_pointer], with the function it calls for the next
    dimension as a parameter. *)
Definition rec_pointer_body (number_of_dimension_tables : Z)
    (add_entry_to_tuple : callback E W)
    (rec_function : Z → M (frame E W) unit)
    (dimension_table_index : Z) : M (frame E W) unit :=
  for_range 0 rows_per_dimension
    (rec_pointer_iteration number_of_dimension_tables add_entry_to_tuple
       rec_function dimension_table_index).

(** [rec_pointer(_, rec_pointer)]. *)
Fixpoint rec_pointer (fuel : nat) (number_of_dimension_tables : Z)
    (add_entry_to_tuple : callback E W)
    (dimension_table_index : Z) : M (frame E W) unit :=
  match fuel with
  | O => fail OutOfFuel
  | S fuel' =>
      rec_pointer_body number_of_dimension_tables add_entry_to_tuple
        (rec_pointer fuel' number_of_dimension_tables add_entry_to_tuple)
        dimension_table_index
  end.

(** The locals of [get_fact_table] on entry: an empty fact table and a
    counter at zero. *)
Definition initial_frame c : frame E W :=
  {| fact_table := []; tuples_in_fact_table := 0; outer := c |}.

Definition get_fact_table (fuel : nat) (number_of_dimension_tables : Z)
    (add_entry_to_tuple : callback E W) : M (caller E W) (list (FactTableObject E)) :=
  λ c,
    match rec_pointer fuel number_of_dimension_tables add_entry_to_tuple 0
            (initial_frame c)
    with
    | Ok (_, f) => Ok (fact_table f, outer f)
    | Err e => Err e
    end.

End enumerator.

(** ** The callback interface

    What [get_fact_table] needs from [add_entry_to_tuple] to produce a
    prefix of the product: called with a dimension below [n] and a row below
    the row count, in a caller state whose captured part is [w], it appends
    [encode d j] to [current_tuple] and leaves the captured part as it is. *)
Class PureEncoder `{cfg : Config} {E W : Type} (n : Z)
    (add_entry_to_tuple : callback E W) (w : W) (encode : Z → Z → E) : Prop :=
  pure_encoder d j v :
    0 ≤ d < n → 0 ≤ j < rows_per_dimension →
    add_entry_to_tuple d j {| current_tuple := v; captured := w |} =
      Ok (tt, {| current_tuple := emplace_back v (encode d j); captured := w |}).

(** The same for a callback that keeps a state of its own: on the states
    [I] of its captured part it appends [encode d j] and changes the
    captured part by [act d j], staying within [I]. *)
Class Encoder `{cfg : Config} {E W : Type} (n : Z)
    (add_entry_to_tuple : callback E W) (I : W → Prop) (encode : Z → Z → E)
    (act : Z → Z → W → W) : Prop := {
  encoder_call d j v w :
    0 ≤ d < n → 0 ≤ j < rows_per_dimension → I w →
    add_entry_to_tuple d j {| current_tuple := v; captured := w |} =
      Ok (tt, {| current_tuple := emplace_back v (encode d j);
                 captured := act d j w |});
  encoder_inv d j w : I w → I (act d j w);
}.

(** ** The specification *)

Section specification.
Context `{cfg : Config} {E W : Type} (encode : Z → Z → E) (act : Z → Z → W → W).
Implicit Types (f : frame E W) (v : list E) (t : list Z) (rows : list (list Z)).
Implicit Types (prev : option (list Z)).

(** The encoding of the columns [d], [d + 1], ... of a tuple. *)
Definition encode_from (d : Z) t : list E :=
  imap (λ p j, encode (d + Z.of_nat p) j) t.

(** The fact tuples for [rows] below the stack [v] at dimension [d]. *)
Definition emitted v (d : Z) rows : list (FactTableObject E) :=
  (λ t, {| relations_ := v ++ encode_from d t |}) <$> rows.

(** What [get_fact_table] returns for [n] dimensions when [current_tuple]
    holds [v] on entry. *)
Definition enumerate_spec (n : Z) v : list (FactTableObject E) :=
  emitted v 0
    (take (Z.to_nat number_of_tuples_in_fact_table)
          (lex_product rows_per_dimension (Z.to_nat n))).

(** The calls of the callback, in order, while [get_fact_table] runs for
    [n] dimensions: for each tuple of the prefix, the cells from the first
    column in which it differs from the tuple before it. *)
Definition callback_calls (n : Z) : list (Z * Z) :=
  fresh_cells 0 None
    (take (Z.to_nat number_of_tuples_in_fact_table)
          (lex_product rows_per_dimension (Z.to_nat n))).

(** The captured state after the calls [cs] of the callback. *)
Definition run_calls (w : W) (cs : list (Z * Z)) : W :=
  foldl (λ w c, act c.1 c.2 w) w cs.

(** The frame after the rows [rows] were added at dimension [d], when the
    row before them at that dimension was [prev]. *)
Definition after_rows f (d : Z) prev rows : frame E W :=
  {| fact_table := fact_table f ++ emitted (current_tuple (outer f)) d rows;
     tuples_in_fact_table := tuples_in_fact_table f + Z.of_nat (length rows);
     outer := {| current_tuple := current_tuple (outer f);
                 captured := run_calls (captured (outer f))
                                       (fresh_cells d prev rows) |} |}.

(** The number of tuples the cap still allows. *)
Definition budget f : nat :=
  Z.to_nat (number_of_tuples_in_fact_table - tuples_in_fact_table f).

(** The frame after the call of the callback for row [j]. *)
Definition pushed f (d j : Z) : frame E W :=
  set_outer
    {| current_tuple := emplace_back (current_tuple (outer f)) (encode d j);
       captured := act d j (captured (outer f)) |} f.

(** The counter is the number of tuples of the fact table and is within
    the cap. *)
Definition counter_inv f : Prop :=
  tuples_in_fact_table f = Z.of_nat (length (fact_table f)) ∧
  tuples_in_fact_table f ≤ Z.max 0 number_of_tuples_in_fact_table.

End specification.

(** A callback that fails on every call. *)
Definition failing_callback : callback Z unit := λ _ _ _, Err (UB OutOfRange).

(** A callback that records the pair of indices it is called with. *)
Definition pair_callback : callback (Z * Z) unit :=
  λ d j c, Ok (tt, set_current_tuple (emplace_back (current_tuple c) (d, j)) c).

(** A callback that also keeps a log of its calls. *)
Definition log_callback : callback (Z * Z) (list (Z * Z)) :=
  λ d j c, Ok (tt, {| current_tuple := emplace_back (current_tuple c) (d, j);
                      captured := emplace_back (captured c) (d, j) |}).

(** * Lemmas on the specification *)

Section specification_lemmas.
Context `{cfg : Config} {E W : Type} (encode : Z → Z → E) (act : Z → Z → W → W).
Implicit Types (f : frame E W) (v : list E) (t : list Z) (rows : list (list Z)).
Implicit Types (prev : option (list Z)).

Lemma encode_from_cons d j t :
  encode_from encode d (j :: t) = encode d j :: encode_from encode (d + 1) t.
Proof.
  unfold encode_from. rewrite imap_cons, Z.add_0_r. f_equal.
  apply imap_ext. intros p x _. simpl. f_equal. lia.
Qed.

Lemma length_encode_from d t : length (encode_from encode d t) = length t.
Proof. apply length_imap. Qed.

Lemma emitted_app v d rows1 rows2 :
  emitted encode v d (rows1 ++ rows2) = emitted encode v d rows1 ++ emitted encode v d rows2.
Proof. apply fmap_app. Qed.

Lemma emitted_cons_fmap v d j rows :
  emitted encode v d ((j ::.) <$> rows) = emitted encode (emplace_back v (encode d j)) (d + 1) rows.
Proof.
  unfold emitted, emplace_back. rewrite <- list_fmap_compose. apply list_fmap_ext.
  intros _ t _. simpl. by rewrite encode_from_cons, <- app_assoc.
Qed.

Lemma length_emitted v d rows : length (emitted encode v d rows) = length rows.
Proof. apply length_fmap. Qed.

Lemma run_calls_app w cs1 cs2 :
  run_calls act w (cs1 ++ cs2) = run_calls act (run_calls act w cs1) cs2.
Proof. apply foldl_app. Qed.

Lemma run_calls_inv (I : W → Prop) w cs :
  (∀ d j w, I w → I (act d j w)) → I w → I (run_calls act w cs).
Proof.
  intros Hact. revert w. induction cs as [|c cs IH]; intros w Hw; [done|].
  simpl. by apply IH, Hact.
Qed.

Lemma after_rows_nil f d prev : after_rows encode act f d prev [] = f.
Proof.
  destruct f as [ft c [v w]]. unfold after_rows. simpl.
  by rewrite app_nil_r, Z.add_0_r.
Qed.

Lemma after_rows_app f d prev rows1 rows2 :
  after_rows encode act (after_rows encode act f d prev rows1) d (last_or prev rows1) rows2 =
    after_rows encode act f d prev (rows1 ++ rows2).
Proof.
  unfold after_rows. simpl.
  rewrite emitted_app, length_app, app_assoc, fresh_cells_app, run_calls_app.
  f_equal. lia.
Qed.

Lemma budget_after_rows f d prev rows :
  budget (after_rows encode act f d prev rows) = (budget f - length rows)%nat.
Proof. unfold budget. simpl. lia. Qed.

Lemma budget_0 f :
  number_of_tuples_in_fact_table ≤ tuples_in_fact_table f → budget f = O.
Proof. unfold budget. lia. Qed.

Lemma budget_pos f :
  tuples_in_fact_table f < number_of_tuples_in_fact_table → (0 < budget f)%nat.
Proof. unfold budget. lia. Qed.

Lemma encode_from_lookup d t (j : nat) :
  encode_from encode d t !! j = encode (d + Z.of_nat j) <$> t !! j.
Proof. unfold encode_from. by rewrite list_lookup_imap. Qed.

(** Row [i] of the specification is [i] in base [k], encoded. *)
Lemma enumerate_spec_lookup n v (i : nat) :
  0 ≤ n → Z.of_nat i < number_of_tuples_in_fact_table →
  Z.of_nat i < rows_per_dimension ^ n →
  enumerate_spec encode n v !! i =
    Some {| relations_ :=
              v ++ encode_from encode 0 (digits rows_per_dimension (Z.to_nat n) (Z.of_nat i)) |}.
Proof.
  intros Hn HL HK. pose proof rows_per_dimension_range as [HK0 _].
  unfold enumerate_spec, emitted.
  rewrite list_lookup_fmap, lookup_take_lt, lex_product_lookup by (rewrite ?Z2Nat.id; lia).
  done.
Qed.

(** Row [i] of the specification encodes row [i] of the prefix. *)
Lemma enumerate_spec_lookup_Some n v (i : nat) rel :
  enumerate_spec encode n v !! i = Some rel ↔
  ∃ t, take (Z.to_nat number_of_tuples_in_fact_table)
            (lex_product rows_per_dimension (Z.to_nat n)) !! i = Some t ∧
       rel = {| relations_ := v ++ encode_from encode 0 t |}.
Proof.
  unfold enumerate_spec, emitted. rewrite list_lookup_fmap_Some.
  split; [intros (t & -> & Ht) | intros (t & Ht & ->)]; by exists t.
Qed.

(** A tuple of the specification encodes a tuple of the product. *)
Lemma elem_of_enumerate_spec n v rel :
  rel ∈ enumerate_spec encode n v →
  ∃ t, relations_ rel = v ++ encode_from encode 0 t ∧ length t = Z.to_nat n ∧
       Forall (λ j, 0 ≤ j < rows_per_dimension) t.
Proof.
  unfold enumerate_spec, emitted. intros (t & -> & Ht)%list_elem_of_fmap.
  apply elem_of_take in Ht as (i & Ht%list_elem_of_lookup_2 & _).
  apply elem_of_lex_product in Ht as [Hlen Ht]. by exists t.
Qed.

(** The size of the specification, as the [size_t] that [size()] returns. *)
Lemma length_enumerate_spec n v :
  0 ≤ n →
  Z.of_nat (length (enumerate_spec encode n v)) =
    Z.max 0 number_of_tuples_in_fact_table `min` rows_per_dimension ^ n.
Proof.
  intros Hn. pose proof rows_per_dimension_range as [HK0 _]. unfold enumerate_spec.
  rewrite length_emitted, length_take, length_lex_product, Nat2Z.inj_min.
  rewrite lex_size_Z, (Z2Nat.id n) by done. lia.
Qed.

End specification_lemmas.

(** ** Two encodings of the same enumeration *)

Section two_encodings.
Context `{cfg : Config} {E1 E2 : Type} (R : E1 → E2 → Prop).
Context (enc1 : Z → Z → E1) (enc2 : Z → Z → E2).

Lemma encode_from_Forall2 d t :
  (∀ (p : nat) j, t !! p = Some j →
     R (enc1 (d + Z.of_nat p) j) (enc2 (d + Z.of_nat p) j)) →
  Forall2 R (encode_from enc1 d t) (encode_from enc2 d t).
Proof.
  intros H. apply Forall2_same_length_lookup_2.
  - by rewrite !length_encode_from.
  - intros p x y. rewrite !encode_from_lookup.
    destruct (t !! p) as [j|] eqn:Hj; [|done]. intros [= <-] [= <-]. by apply H.
Qed.

(** Two encodings are related column by column on every tuple of the
    enumeration when they are related on every row of every dimension. *)
Lemma enumerate_spec_Forall2 n :
  (∀ d j, 0 ≤ d < n → 0 ≤ j < rows_per_dimension → R (enc1 d j) (enc2 d j)) →
  Forall2 (λ r1 r2, Forall2 R (relations_ r1) (relations_ r2))
          (enumerate_spec enc1 n []) (enumerate_spec enc2 n []).
Proof.
  intros H. unfold enumerate_spec, emitted. apply Forall2_fmap, Forall_Forall2_diag.
  apply Forall_take, Forall_forall. intros t [Hlen Ht]%elem_of_lex_product. simpl.
  apply encode_from_Forall2. intros p j Hj. rewrite Forall_forall in Ht.
  apply H; [|by eapply Ht, list_elem_of_lookup_2].
  apply lookup_lt_Some in Hj. lia.
Qed.

End two_encodings.

(** The encoding that keeps the row index keeps the tuple. *)
Lemma encode_from_id d t : encode_from (λ _ j, j) d t = t.
Proof.
  unfold encode_from. apply list_eq. intros p. rewrite list_lookup_imap.
  by destruct (t !! p).
Qed.

(** * Lemmas for every callback *)

Section any_callback.
Context `{cfg : Config} {E W : Type}.
Context (n : Z) (add_entry_to_tuple : callback E W).
Implicit Types (f : frame E W) (rec_function : Z → M (frame E W) unit).

#[local] Abbreviation K := rows_per_dimension.
#[local] Abbreviation L := number_of_tuples_in_fact_table.
#[local] Abbreviation iteration := (rec_pointer_iteration n add_entry_to_tuple).

(** ** Steps of one iteration *)

Lemma rec_pointer_iteration_capped rec_function d j f :
  L ≤ tuples_in_fact_table f → iteration rec_function d j f = Ok (Return, f).
Proof.
  intros. unfold rec_pointer_iteration. run_step.
  by rewrite bool_decide_eq_true_2.
Qed.

Lemma rec_pointer_iteration_callback_Err rec_function d j f e :
  tuples_in_fact_table f < L →
  add_entry_to_tuple d j (outer f) = Err e →
  iteration rec_function d j f = Err e.
Proof.
  intros Hc He. unfold rec_pointer_iteration. run_step.
  rewrite bool_decide_eq_false_2 by lia.
  apply bind_Err. by apply zoom_Err.
Qed.

Lemma rec_pointer_iteration_descend_Err rec_function d j f c e :
  tuples_in_fact_table f < L →
  add_entry_to_tuple d j (outer f) = Ok (tt, c) →
  descend_or_emit n rec_function d (set_outer c f) = Err e →
  iteration rec_function d j f = Err e.
Proof.
  intros Hc Hcb He. unfold rec_pointer_iteration. run_step.
  rewrite bool_decide_eq_false_2 by lia.
  erewrite bind_Ok; [|by apply zoom_Ok]. by apply bind_Err.
Qed.

(** With nothing to do (no row, or a cap already reached) the loop ends at
    once. *)
Lemma rec_pointer_body_nothing rec_function d f :
  K = 0 ∨ L ≤ tuples_in_fact_table f →
  rec_pointer_body n add_entry_to_tuple rec_function d f = Ok (tt, f).
Proof.
  intros [HK|HL]; unfold rec_pointer_body.
  - apply for_range_ge. lia.
  - pose proof rows_per_dimension_range as [HK _].
    destruct (decide (K = 0)) as [->|]; [by apply for_range_ge|].
    apply for_range_Return; [lia | by apply rec_pointer_iteration_capped].
Qed.

(** ** More fuel is more defined *)

Lemma descend_or_emit_mono rec_function rec_function' d :
  (∀ d', rec_function d' ⊑ rec_function' d') →
  descend_or_emit n rec_function d ⊑ descend_or_emit n rec_function' d.
Proof. intros H. unfold descend_or_emit. by case_bool_decide. Qed.

Lemma rec_pointer_iteration_mono rec_function rec_function' d j :
  (∀ d', rec_function d' ⊑ rec_function' d') →
  iteration rec_function d j ⊑ iteration rec_function' d j.
Proof.
  intros H. unfold rec_pointer_iteration. apply bind_mono; [done|]. intros c.
  case_bool_decide; [done|]. apply bind_mono; [done|]. intros _.
  apply bind_mono; [by apply descend_or_emit_mono | done].
Qed.

Lemma rec_pointer_S fuel d :
  rec_pointer fuel n add_entry_to_tuple d ⊑ rec_pointer (S fuel) n add_entry_to_tuple d.
Proof.
  revert d. induction fuel as [|fuel IH]; intros d; [done|].
  apply for_range_mono. intros j. by apply rec_pointer_iteration_mono.
Qed.

Lemma rec_pointer_fuel_mono fuel fuel' d :
  (fuel ≤ fuel')%nat →
  rec_pointer fuel n add_entry_to_tuple d ⊑ rec_pointer fuel' n add_entry_to_tuple d.
Proof.
  induction 1 as [|fuel' _ IH]; [done|]. etrans; [apply IH | apply rec_pointer_S].
Qed.

(** ** The counter invariant *)

Lemma hoare_descend_or_emit rec_function d :
  (∀ d', hoare counter_inv (rec_function d') (λ _, counter_inv)) →
  hoare (λ f, counter_inv f ∧ tuples_in_fact_table f < L)
        (descend_or_emit n rec_function d) (λ _, counter_inv).
Proof.
  intros Hrec. unfold descend_or_emit. case_bool_decide.
  - eapply hoare_conseq; [apply Hrec | by intros f [? _] | done].
  - intros f [[Hlen Hle] Hlt]. unfold bind, emplace_back_current_tuple, modify.
    unfold increment_tuples_in_fact_table, bind, get. simpl.
    case_bool_decide; [|done]. unfold put, counter_inv. simpl.
    autorewrite with prog. lia.
Qed.

Lemma hoare_pop_back_current_tuple (P : frame E W → Prop) :
  (∀ f c, P f → P (set_outer c f)) →
  hoare P pop_back_current_tuple (λ _, P).
Proof.
  intros HP. unfold pop_back_current_tuple. hoare_step.
  intros f [] c Hf _. by apply HP.
Qed.

Lemma hoare_rec_pointer_iteration rec_function d j :
  (∀ d', hoare counter_inv (rec_function d') (λ _, counter_inv)) →
  hoare counter_inv (iteration rec_function d j) (λ _, counter_inv).
Proof.
  intros Hrec. unfold rec_pointer_iteration.
  eapply hoare_bind with (R := λ c f, counter_inv f ∧ c = tuples_in_fact_table f).
  { by hoare_step. }
  intros c. hoare_step; [by hoare_step; intros f [? _]|].
  eapply hoare_bind with (R := λ _ f, counter_inv f ∧ tuples_in_fact_table f < L).
  { hoare_step. intros f [] c' [Hf ->] _. split; [done | simpl; lia]. }
  intros []. hoare_step; [by apply hoare_descend_or_emit|].
  intros []. hoare_step; [by apply hoare_pop_back_current_tuple|].
  intros []. by hoare_step.
Qed.

Lemma hoare_rec_pointer fuel d :
  hoare counter_inv (rec_pointer fuel n add_entry_to_tuple d) (λ _, counter_inv).
Proof.
  revert d. induction fuel as [|fuel IH]; intros d; simpl; [hoare_step|].
  unfold rec_pointer_body. hoare_step. intros j.
  by apply hoare_rec_pointer_iteration.
Qed.

End any_callback.

(** * No dimension table *)

Section no_dimension.
Context `{cfg : Config} {E W : Type} (add_entry_to_tuple : callback E W).
Implicit Types (f : frame E W).

(** For [n = 0] the guard compares with [2^64 - 1]: every level descends. *)
Lemma rec_pointer_no_dimension fuel d f :
  0 < rows_per_dimension →
  tuples_in_fact_table f < number_of_tuples_in_fact_table →
  0 ≤ d → d + Z.of_nat fuel ≤ size_t_modulus - 1 →
  ∃ e, rec_pointer fuel 0 add_entry_to_tuple d f = Err e.
Proof.
  intros HK. revert d f. induction fuel as [|fuel IH]; intros d f Hc Hd Hfuel.
  { by exists OutOfFuel. }
  destruct (add_entry_to_tuple d 0 (outer f)) as [[[] c]|e] eqn:Hcb.
  - destruct (IH (d + 1) (set_outer c f)) as [e He]; [done | lia | lia |].
    exists e. apply for_range_Err; [done|].
    eapply rec_pointer_iteration_descend_Err; [done | done |].
    unfold descend_or_emit. rewrite to_size_t_pred_0.
    by rewrite bool_decide_eq_true_2, to_size_t_succ by lia.
  - exists e. apply for_range_Err; [done|].
    by apply rec_pointer_iteration_callback_Err.
Qed.

End no_dimension.

(** * Encoders: the enumeration is a prefix of the product *)

Instance pair_callback_pure `{cfg : Config} n : PureEncoder n pair_callback tt pair.
Proof. by intros d j v _ _. Qed.

Instance log_callback_encoder `{cfg : Config} n :
  Encoder n log_callback (λ _, True) pair (λ d j log, emplace_back log (d, j)).
Proof. by split. Qed.

(** The state of [log_callback] after calls: the log, with the calls at
    its end. *)
Lemma run_calls_log (log cs : list (Z * Z)) :
  run_calls (λ d j log, emplace_back log (d, j)) log cs = log ++ cs.
Proof.
  revert log. induction cs as [|[d j] cs IH]; intros log; simpl.
  - by rewrite app_nil_r.
  - rewrite IH. unfold emplace_back. by rewrite <- app_assoc.
Qed.

(** A pure encoder is an encoder that leaves its captured state as it
    is. *)
Instance pure_encoder_encoder `{cfg : Config} {E W : Type} n
    (add_entry_to_tuple : callback E W) w encode :
  PureEncoder n add_entry_to_tuple w encode →
  Encoder n add_entry_to_tuple (λ w', w' = w) encode (λ _ _ w', w').
Proof. intros Hpure. split; [|done]. intros d j v w' Hd Hj ->. by apply pure_encoder. Qed.

Section encoder.
Context `{cfg : Config} `{!ConfigOk cfg} {E W : Type}.
Context (n : Z) (add_entry_to_tuple : callback E W) (I : W → Prop).
Context (encode : Z → Z → E) (act : Z → Z → W → W).
Context {Hencoder : Encoder n add_entry_to_tuple I encode act}.
Context (Hn : 1 ≤ n < size_t_modulus).
Implicit Types (f : frame E W) (rec_function : Z → M (frame E W) unit).
Implicit Types (prev : option (list Z)).

#[local] Abbreviation K := rows_per_dimension.
#[local] Abbreviation L := number_of_tuples_in_fact_table.
#[local] Abbreviation iteration := (rec_pointer_iteration n add_entry_to_tuple).
#[local] Abbreviation after := (after_rows encode act).

Lemma callback_pushed d j f :
  I (captured (outer f)) → 0 ≤ d < n → 0 ≤ j < K →
  zoom outer set_outer (add_entry_to_tuple d j) f = Ok (tt, pushed encode act f d j).
Proof.
  intros Hw Hd Hj. unfold zoom. destruct f as [ft c [v w]]. simpl in *.
  by rewrite encoder_call.
Qed.

Lemma pop_back_pushed f d j prev rows :
  starts_below prev j → rows ≠ [] →
  pop_back_current_tuple (after (pushed encode act f d j) (d + 1) None rows) =
    Ok (tt, after f d prev ((j ::.) <$> rows)).
Proof.
  intros Hprev Hrows. unfold pop_back_current_tuple. erewrite zoom_Ok.
  2:{ simpl. run_step. simpl. autorewrite with prog. simpl. reflexivity. }
  unfold after_rows, set_outer, set_current_tuple, pushed. simpl.
  by rewrite emitted_cons_fmap, length_fmap, fresh_cells_cons_new.
Qed.

Lemma emit_pushed f d j :
  tuples_in_fact_table f < L →
  (emplace_back_current_tuple ;; increment_tuples_in_fact_table) (pushed encode act f d j) =
    Ok (tt, after (pushed encode act f d j) (d + 1) None [[]]).
Proof.
  intros Hc. run_step. unfold increment_tuples_in_fact_table. run_step.
  rewrite bool_decide_eq_true_2 by (by apply cap_lt_INT_MAX).
  unfold after_rows, emitted, put. simpl. by rewrite app_nil_r.
Qed.

Lemma rec_pointer_iteration_step rec_function d j f prev rows :
  tuples_in_fact_table f < L → I (captured (outer f)) → 0 ≤ d < n → 0 ≤ j < K →
  starts_below prev j → rows ≠ [] →
  descend_or_emit n rec_function d (pushed encode act f d j) =
    Ok (tt, after (pushed encode act f d j) (d + 1) None rows) →
  iteration rec_function d j f = Ok (Continue, after f d prev ((j ::.) <$> rows)).
Proof.
  intros Hc Hw Hd Hj Hprev Hrows Hsub. unfold rec_pointer_iteration. run_step.
  rewrite bool_decide_eq_false_2 by lia.
  rewrite (bind_Ok _ _ _ _ _ (callback_pushed d j f Hw Hd Hj)).
  rewrite (bind_Ok _ _ _ _ _ Hsub).
  by rewrite (bind_Ok _ _ _ _ _ (pop_back_pushed f d j prev rows Hprev Hrows)).
Qed.

Lemma after_rows_inv f d prev rows :
  I (captured (outer f)) → I (captured (outer (after f d prev rows))).
Proof.
  intros Hw. cbn [after_rows outer captured].
  apply run_calls_inv; [apply (encoder_inv (Encoder := Hencoder)) | done].
Qed.

(** The loop of one level, given what the level below does. *)
Lemma rec_pointer_loop_spec rec_function (m : nat) d :
  0 ≤ d < n →
  (∀ j f, tuples_in_fact_table f < L → I (captured (outer f)) → 0 ≤ j < K →
     descend_or_emit n rec_function d (pushed encode act f d j) =
       Ok (tt, after (pushed encode act f d j) (d + 1) None
                 (take (budget f) (lex_product K m)))) →
  ∀ j0 f prev, 0 ≤ j0 → I (captured (outer f)) → starts_below prev j0 →
    for_range j0 K (iteration rec_function d) f =
      Ok (tt, after f d prev (take (budget f) (rows_from K m j0))).
Proof.
  intros Hd Hsub j0 f prev Hj0. revert f prev.
  apply (for_range_ind (λ j, ∀ f prev, I (captured (outer f)) → starts_below prev j →
    for_range j K (iteration rec_function d) f =
      Ok (tt, after f d prev (take (budget f) (rows_from K m j)))) j0 K);
    [| |done].
  - intros j Hj f prev Hw _.
    by rewrite for_range_ge, rows_from_ge, take_nil, after_rows_nil by done.
  - intros j Hj IH f prev Hw Hprev.
    destruct (decide (L ≤ tuples_in_fact_table f)) as [Hcap|Hcap].
    { erewrite for_range_Return; [|lia|by apply rec_pointer_iteration_capped].
      by rewrite budget_0, take_0, after_rows_nil. }
    assert (take (budget f) (lex_product K m) ≠ []) as Hrows
      by (apply take_lex_product_nonempty; [lia | apply budget_pos; lia]).
    erewrite for_range_Continue;
      [|lia|apply (rec_pointer_iteration_step _ _ _ _ prev);
            [lia|done|done|lia|done|done|apply Hsub; [lia|done|lia]]].
    rewrite (IH _ (last_or prev ((j ::.) <$> take (budget f) (lex_product K m))));
      [|by apply after_rows_inv|apply starts_below_last_or; [lia | done]].
    rewrite after_rows_app, budget_after_rows, length_fmap.
    rewrite (rows_from_lt K m j) by lia.
    by rewrite take_budget_app, fmap_take, !length_take, length_fmap.
Qed.

Lemma to_size_t_last : to_size_t (n - 1) = n - 1.
Proof. apply to_size_t_pred. lia. Qed.

(** [rec_pointer] at a dimension with [m] dimensions below it. *)
Lemma rec_pointer_spec (m fuel : nat) d f :
  (m < fuel)%nat → d = n - 1 - Z.of_nat m → 0 ≤ d → I (captured (outer f)) →
  rec_pointer fuel n add_entry_to_tuple d f =
    Ok (tt, after f d None (take (budget f) (lex_product K (S m)))).
Proof.
  revert fuel d f. induction m as [|m IH]; intros [|fuel] d f Hfuel Hd Hd0 Hw; try lia;
    simpl rec_pointer; unfold rec_pointer_body;
    rewrite lex_product_S; apply rec_pointer_loop_spec; try done; try lia;
    intros j f' Hc Hw' Hj; unfold descend_or_emit; rewrite to_size_t_last.
  - rewrite bool_decide_eq_false_2 by lia. rewrite emit_pushed by done.
    pose proof (budget_pos f' Hc). by rewrite take_ge by (simpl; lia).
  - rewrite bool_decide_eq_true_2, to_size_t_succ by lia.
    rewrite (IH fuel); [done | lia | lia | lia |].
    by apply (encoder_inv (Encoder := Hencoder)).
Qed.

(** The whole run of [rec_pointer] inside [get_fact_table]. *)
Lemma rec_pointer_calls fuel v w :
  (Z.to_nat n ≤ fuel)%nat → I w →
  rec_pointer fuel n add_entry_to_tuple 0
    (initial_frame {| current_tuple := v; captured := w |}) =
  Ok (tt, {| fact_table := enumerate_spec encode n v;
             tuples_in_fact_table := Z.of_nat (length (enumerate_spec encode n v));
             outer := {| current_tuple := v;
                         captured := run_calls act w (callback_calls n) |} |}).
Proof.
  intros Hfuel Hw. rewrite (rec_pointer_spec (Z.to_nat n - 1)) by (lia || done).
  replace (S (Z.to_nat n - 1)) with (Z.to_nat n) by lia.
  unfold after_rows, enumerate_spec, callback_calls, budget, initial_frame.
  cbn [fact_table tuples_in_fact_table outer current_tuple captured app].
  by rewrite length_emitted, Z.sub_0_r.
Qed.

End encoder.

(** A pure encoder leaves the captured state as it was. *)
Lemma rec_pointer_top `{cfg : Config} `{!ConfigOk cfg} {E W : Type}
    (n : Z) (add_entry_to_tuple : callback E W) (w : W) (encode : Z → Z → E)
    `{!PureEncoder n add_entry_to_tuple w encode} fuel v :
  1 ≤ n < size_t_modulus → (Z.to_nat n ≤ fuel)%nat →
  rec_pointer fuel n add_entry_to_tuple 0
    (initial_frame {| current_tuple := v; captured := w |}) =
  Ok (tt, {| fact_table := enumerate_spec encode n v;
             tuples_in_fact_table := Z.of_nat (length (enumerate_spec encode n v));
             outer := {| current_tuple := v; captured := w |} |}).
Proof.
  intros Hn Hfuel.
  rewrite (rec_pointer_calls n add_entry_to_tuple (λ w', w' = w) encode (λ _ _ w', w'))
    by done.
  do 4 f_equal. by apply (run_calls_inv _ (λ w', w' = w)).
Qed.

(** * Termination, for every callback *)

Section total.
Context `{cfg : Config} {E W : Type}.
Context (n : Z) (add_entry_to_tuple : callback E W).
Context (Hcb : ∀ d j, terminates (add_entry_to_tuple d j)).
Context (Hn : 1 ≤ n < size_t_modulus).

Lemma terminates_increment_tuples_in_fact_table :
  terminates (increment_tuples_in_fact_table (E := E) (W := W)).
Proof. unfold increment_tuples_in_fact_table. eauto with prog. Qed.

Lemma terminates_pop_back_current_tuple :
  terminates (pop_back_current_tuple (E := E) (W := W)).
Proof. unfold pop_back_current_tuple. eauto 7 with prog. Qed.

Lemma terminates_rec_pointer_iteration rec_function d j :
  (d < n - 1 → terminates (rec_function (d + 1))) → 0 ≤ d < n →
  terminates (rec_pointer_iteration n add_entry_to_tuple rec_function d j).
Proof.
  intros Hrec Hd. apply terminates_bind; [apply terminates_gets|]. intros tuples.
  case_bool_decide; [apply terminates_ret|].
  apply terminates_bind; [apply terminates_zoom, Hcb|]. intros _.
  apply terminates_bind; [|intros _].
  - unfold descend_or_emit. rewrite to_size_t_pred by lia. case_bool_decide.
    + rewrite to_size_t_succ by lia. by apply Hrec.
    + apply terminates_bind; [apply terminates_modify|]. intros _.
      apply terminates_increment_tuples_in_fact_table.
  - apply terminates_bind; [apply terminates_pop_back_current_tuple|].
    intros _. apply terminates_ret.
Qed.

(** Fuel for the levels below [d] is enough, whatever the callback does. *)
Lemma terminates_rec_pointer fuel d :
  0 ≤ d < n → (Z.to_nat (n - d) ≤ fuel)%nat →
  terminates (rec_pointer fuel n add_entry_to_tuple d).
Proof.
  revert d. induction fuel as [|fuel IH]; intros d Hd Hfuel; [lia|]. simpl.
  apply terminates_for_range. intros j.
  apply terminates_rec_pointer_iteration; [|done]. intros Hlt. apply IH; lia.
Qed.

End total.

(** * Theorems *)

(** Claim C1 (prefix property).  For a pure encoder, at least one dimension
    table and fuel of at least [n], [get_fact_table] returns the encoding of
    the first [number_of_tuples_in_fact_table] tuples of the lexicographic
    product of [n] copies of [0 .. rows_per_dimension - 1], below what
    [current_tuple] held on entry, and leaves [current_tuple] and the
    captured state as they were. *)
Theorem get_fact_table_prefix `{cfg : Config} `{!ConfigOk cfg} {E W : Type}
    (n : Z) (add_entry_to_tuple : callback E W) (w : W) (encode : Z → Z → E)
    `{!PureEncoder n add_entry_to_tuple w encode} (fuel : nat) (v : list E) :
  1 ≤ n < size_t_modulus → (Z.to_nat n ≤ fuel)%nat →
  get_fact_table fuel n add_entry_to_tuple {| current_tuple := v; captured := w |} =
    Ok (enumerate_spec encode n v, {| current_tuple := v; captured := w |}).
Proof.
  intros Hn Hfuel. unfold get_fact_table.
  by rewrite (rec_pointer_top n _ w encode).
Qed.

Lemma get_fact_table_prefix_witness :
  get_fact_table (cfg := example_config) 2 2 pair_callback
    {| current_tuple := []; captured := tt |} =
  Ok (enumerate_spec (cfg := example_config) pair 2 [],
      {| current_tuple := []; captured := tt |}).
Proof.
  apply (get_fact_table_prefix (cfg := example_config) 2 pair_callback tt pair 2 []);
    [unfold size_t_modulus; lia | lia].
Defined.

(** Claim C19 (calls of the callback).  For a callback that keeps a state of
    its own, [get_fact_table] returns the encoded prefix, restores
    [current_tuple], and leaves the captured state that the calls
    [callback_calls n] make, in that order: one call for every cell in
    which a tuple of the prefix differs from the tuple before it, so one
    call per node of the enumeration, none for a tuple that is not added
    and none after the cap is reached. *)
Theorem get_fact_table_calls `{cfg : Config} `{!ConfigOk cfg} {E W : Type}
    (n : Z) (add_entry_to_tuple : callback E W) (I : W → Prop)
    (encode : Z → Z → E) (act : Z → Z → W → W)
    `{!Encoder n add_entry_to_tuple I encode act} (fuel : nat) (v : list E) (w : W) :
  1 ≤ n < size_t_modulus → (Z.to_nat n ≤ fuel)%nat → I w →
  get_fact_table fuel n add_entry_to_tuple {| current_tuple := v; captured := w |} =
    Ok (enumerate_spec encode n v,
        {| current_tuple := v; captured := run_calls act w (callback_calls n) |}).
Proof.
  intros Hn Hfuel Hw. unfold get_fact_table.
  by rewrite (rec_pointer_calls n _ I encode act).
Qed.

Lemma get_fact_table_calls_witness :
  get_fact_table (cfg := example_config) 2 2 log_callback
    {| current_tuple := []; captured := [] |} =
  Ok (enumerate_spec (cfg := example_config) pair 2 [],
      {| current_tuple := [];
         captured := [(0, 0); (1, 0); (1, 1); (1, 2); (0, 1); (1, 0); (1, 1)] |}).
Proof.
  apply (get_fact_table_calls (cfg := example_config) 2 log_callback (λ _, True) pair
           (λ d j log, emplace_back log (d, j)) 2 [] []);
    [unfold size_t_modulus; lia | lia | done].
Defined.

(** Claim C20 (number of calls).  With a row to visit, the number of calls
    that the callback receives for dimension [c] is the number of tuples
    of the fact table divided by [rows_per_dimension ^ (n - 1 - c)],
    rounded up: one call for each block of tuples that agree up to column
    [c], the last block included when the cap cuts it short.  The log of
    [log_callback] keeps the calls.  With the parameters of the source and
    four dimension tables these are 50, 5000, 500000 and 50000000 calls
    for the dimensions 0 to 3. *)
Theorem get_fact_table_call_count `{cfg : Config} `{!ConfigOk cfg}
    (n : Z) (fuel : nat) (c : Z) (log : list (Z * Z)) :
  1 ≤ n < size_t_modulus → (Z.to_nat n ≤ fuel)%nat →
  0 < rows_per_dimension → 0 ≤ c < n →
  ∃ ft calls,
    get_fact_table fuel n log_callback {| current_tuple := []; captured := log |} =
      Ok (ft, {| current_tuple := []; captured := log ++ calls |}) ∧
    Z.of_nat (length ft) =
      Z.max 0 number_of_tuples_in_fact_table `min` rows_per_dimension ^ n ∧
    cells_of c calls =
      cdiv (Z.max 0 number_of_tuples_in_fact_table `min` rows_per_dimension ^ n)
           (rows_per_dimension ^ (n - 1 - c)).
Proof.
  intros Hn Hfuel HK Hc. exists (enumerate_spec pair n []), (callback_calls n).
  split_and!.
  - unfold get_fact_table.
    rewrite (rec_pointer_calls n _ (λ _, True) pair (λ d j log, emplace_back log (d, j)))
      by done.
    by rewrite run_calls_log.
  - apply length_enumerate_spec. lia.
  - unfold callback_calls, enumerate_spec.
    rewrite (cells_of_fresh_cells _ HK) by lia.
    rewrite (Z2Nat.id n) by lia. f_equal; (lia || (f_equal; lia)).
Qed.

Lemma get_fact_table_call_count_witness :
  ∃ ft calls,
    get_fact_table (cfg := reference_config) 4 4 log_callback
      {| current_tuple := []; captured := [] |} =
      Ok (ft, {| current_tuple := []; captured := [] ++ calls |}) ∧
    Z.of_nat (length ft) = 50000000 ∧
    cells_of 1 calls = 5000.
Proof.
  apply (get_fact_table_call_count (cfg := reference_config) 4 4 1 []);
    [unfold size_t_modulus; lia | lia | done | lia].
Defined.

(** Claim C2 (cap respected).  Under the same conditions the fact table has
    [min (number_of_tuples_in_fact_table, rows_per_dimension ^ n)] tuples. *)
Theorem get_fact_table_size `{cfg : Config} `{!ConfigOk cfg} {E W : Type}
    (n : Z) (add_entry_to_tuple : callback E W) (w : W) (encode : Z → Z → E)
    `{!PureEncoder n add_entry_to_tuple w encode} (fuel : nat) (v : list E) :
  1 ≤ n < size_t_modulus → (Z.to_nat n ≤ fuel)%nat →
  ∃ ft,
    get_fact_table fuel n add_entry_to_tuple {| current_tuple := v; captured := w |} =
      Ok (ft, {| current_tuple := v; captured := w |}) ∧
    length ft = (Z.to_nat number_of_tuples_in_fact_table
                 `min` lex_size rows_per_dimension (Z.to_nat n))%nat.
Proof.
  intros Hn Hfuel. eexists. split.
  - unfold get_fact_table. by rewrite (rec_pointer_top n _ w encode).
  - cbn [fact_table]. unfold enumerate_spec.
    by rewrite length_emitted, length_take, length_lex_product.
Qed.

Lemma get_fact_table_size_witness :
  ∃ ft,
    get_fact_table (cfg := example_config) 2 2 pair_callback
      {| current_tuple := []; captured := tt |} =
      Ok (ft, {| current_tuple := []; captured := tt |}) ∧
    length ft = 5%nat.
Proof.
  apply (get_fact_table_size (cfg := example_config) 2 pair_callback tt pair 2 []);
    [unfold size_t_modulus; lia | lia].
Defined.

(** Claim C21 (fuel [n] is enough for every callback).  For at least one
    dimension table, fuel of at least [n] and a callback that itself ends,
    no run of [get_fact_table] runs out of fuel: it returns a fact table or
    reaches undefined behaviour.  The depth of the recursion is [n]
    whatever the callback does to [current_tuple] and to its captured
    state. *)
Theorem get_fact_table_total `{cfg : Config} {E W : Type}
    (n : Z) (add_entry_to_tuple : callback E W) (fuel : nat) c :
  (∀ d j, terminates (add_entry_to_tuple d j)) →
  1 ≤ n < size_t_modulus → (Z.to_nat n ≤ fuel)%nat →
  get_fact_table fuel n add_entry_to_tuple c ≠ Err OutOfFuel.
Proof.
  intros Hcb Hn Hfuel. unfold get_fact_table.
  pose proof (terminates_rec_pointer n add_entry_to_tuple Hcb Hn fuel 0
                ltac:(lia) ltac:(lia) (initial_frame c)) as H.
  destruct (rec_pointer fuel _ _ _ _) as [[[] f]|e]; [done|].
  intros [= ->]. by apply H.
Qed.

Lemma get_fact_table_total_witness :
  get_fact_table (cfg := example_config) 2 2 pair_callback
    {| current_tuple := []; captured := tt |} ≠ Err OutOfFuel.
Proof.
  apply (get_fact_table_total (cfg := example_config) 2 pair_callback 2);
    [by intros d j s | unfold size_t_modulus; lia | lia].
Defined.

(** Claim C12 (closed form).  Column [j] of tuple [i] of the fact table is the
    encoding, for dimension [j], of digit [j] of [i] in base
    [rows_per_dimension]: column [0] varies slowest, column [n - 1]
    fastest. *)
Theorem get_fact_table_lookup `{cfg : Config} `{!ConfigOk cfg} {E W : Type}
    (n : Z) (add_entry_to_tuple : callback E W) (w : W) (encode : Z → Z → E)
    `{!PureEncoder n add_entry_to_tuple w encode} (fuel i j : nat) :
  1 ≤ n < size_t_modulus → (Z.to_nat n ≤ fuel)%nat →
  Z.of_nat i < number_of_tuples_in_fact_table →
  Z.of_nat i < rows_per_dimension ^ n → Z.of_nat j < n →
  ∃ ft row,
    get_fact_table fuel n add_entry_to_tuple {| current_tuple := []; captured := w |} =
      Ok (ft, {| current_tuple := []; captured := w |}) ∧
    ft !! i = Some row ∧
    relations_ row !! j =
      Some (encode (Z.of_nat j)
              ((Z.of_nat i / rows_per_dimension ^ (n - 1 - Z.of_nat j))
               `mod` rows_per_dimension)).
Proof.
  intros Hn Hfuel HL HK Hj. pose proof rows_per_dimension_range as [HK0 _].
  assert (0 < rows_per_dimension).
  { destruct (decide (rows_per_dimension = 0)) as [Heq|]; [|lia].
    rewrite Heq, Z.pow_0_l in HK; lia. }
  do 2 eexists. split_and!.
  - unfold get_fact_table. by rewrite (rec_pointer_top n _ w encode).
  - cbn [fact_table]. apply enumerate_spec_lookup; lia.
  - cbn [relations_ app]. rewrite encode_from_lookup, digits_lookup by (rewrite ?Z2Nat.id; lia).
    cbn [fmap option_fmap option_map]. rewrite Z.add_0_l.
    by replace (Z.of_nat (Z.to_nat n - 1 - j)) with (n - 1 - Z.of_nat j) by lia.
Qed.

Lemma get_fact_table_lookup_witness :
  ∃ ft row,
    get_fact_table (cfg := example_config) 2 2 pair_callback
      {| current_tuple := []; captured := tt |} =
      Ok (ft, {| current_tuple := []; captured := tt |}) ∧
    ft !! 4%nat = Some row ∧
    relations_ row !! 0%nat = Some (0, (4 / 3 ^ (2 - 1 - 0)) `mod` 3).
Proof.
  apply (get_fact_table_lookup (cfg := example_config) 2 pair_callback tt pair 2 4 0);
    [unfold size_t_modulus; lia | lia | done | done | done].
Defined.

(** Claim C6 (cap, every callback).  Whatever the callback does, a fact
    table that [get_fact_table] returns has at most
    [number_of_tuples_in_fact_table] tuples (none when the cap is
    negative). *)
Theorem get_fact_table_cap `{cfg : Config} {E W : Type}
    (fuel : nat) (n : Z) (add_entry_to_tuple : callback E W) c :
  match get_fact_table fuel n add_entry_to_tuple c with
  | Ok (ft, _) => Z.of_nat (length ft) ≤ Z.max 0 number_of_tuples_in_fact_table
  | Err _ => True
  end.
Proof.
  unfold get_fact_table.
  pose proof (hoare_rec_pointer n add_entry_to_tuple fuel 0 (initial_frame c)) as H.
  destruct (rec_pointer fuel _ _ _ _) as [[[] f]|e]; [|done].
  destruct H as [Hlen Hle]; [split; simpl; lia | lia].
Qed.

(** Claim C7 (no dimension table).  For [n = 0] the guard
    [dimension_table_index < number_of_dimension_tables - 1] is evaluated in
    [size_t], where [0 - 1] is [2^64 - 1]: with a row to visit and a positive
    cap every level descends, and no fuel up to [2^64 - 1] gives a fact
    table, whatever the callback does. *)
Theorem get_fact_table_no_dimension `{cfg : Config} {E W : Type}
    (add_entry_to_tuple : callback E W) (fuel : nat) c :
  0 < rows_per_dimension → 0 < number_of_tuples_in_fact_table →
  Z.of_nat fuel ≤ size_t_modulus - 1 →
  ∃ e, get_fact_table fuel 0 add_entry_to_tuple c = Err e.
Proof.
  intros HK HL Hfuel. unfold get_fact_table.
  destruct (rec_pointer_no_dimension add_entry_to_tuple fuel 0 (initial_frame c))
    as [e ->]; [done | done | done | lia |]. by exists e.
Qed.

Lemma get_fact_table_no_dimension_witness :
  ∃ e, get_fact_table (cfg := example_config) 9 0 pair_callback
         {| current_tuple := []; captured := tt |} = Err e.
Proof.
  apply (get_fact_table_no_dimension (cfg := example_config) pair_callback 9);
    [done | done | unfold size_t_modulus; lia].
Defined.

(** Claim C32 (nothing to enumerate).  With no row per dimension table, or a
    cap that is not positive, [get_fact_table] returns an empty fact table
    for every number of dimension tables and every callback, without
    calling it. *)
Theorem get_fact_table_nothing `{cfg : Config} {E W : Type}
    (fuel : nat) (n : Z) (add_entry_to_tuple : callback E W) c :
  rows_per_dimension = 0 ∨ number_of_tuples_in_fact_table ≤ 0 →
  get_fact_table (S fuel) n add_entry_to_tuple c = Ok ([], c).
Proof.
  intros H. unfold get_fact_table. simpl rec_pointer.
  by rewrite rec_pointer_body_nothing.
Qed.

Lemma get_fact_table_nothing_witness :
  get_fact_table
    (cfg := {| number_of_tuples_in_dimension_tables := 0;
               max_number_of_dimension_tables := 3;
               number_of_repetitions := 1;
               number_of_tuples_in_fact_table := 5 |})
    1 0 failing_callback {| current_tuple := []; captured := tt |} =
  Ok ([], {| current_tuple := []; captured := tt |}).
Proof. apply get_fact_table_nothing. by left. Defined.
