(* ===== verification/Machine.v ===== *)
(** * The enumerator as a machine with an explicit call stack

    [rec_pointer] (lines 68-90 of [src/benchmark.cpp]) once more, as the
    steps a processor takes: a configuration is the stack of the
    activations of the lambda, each with its [dimension_table_index], the
    [tuple_index] of its loop and the point of the loop body it stands at,
    and the variables that the lambda captures by reference ([frame]).
    The machine needs no fuel.

    - [step_fn] is the step as a function, [step] the same as a relation
      with one rule per path through the loop body.
    - The simulation theorem: whatever the recursive definition of
      [Enumerator] returns, the machine reaches, from the activation
      [rec_pointer(d, _)] on any stack, that stack again with the same
      frame.
    - By rule induction: the stack of every reachable configuration holds
      the dimensions [0], [1], ... from the bottom and is at most
      [number_of_dimension_tables] deep, and the counter is the size of
      the fact table and within the cap, whatever the callback does.
    - Because the machine stops at the very step that is undefined, it
      shows where undefined behaviour of the recursive definition comes
      from: the callback, or [pop_back] on an empty vector, never the
      counter.
    - [exec] runs the machine for a number of steps, for evaluation. *)

From stdpp Require Import relations.
From S2P Require Import Prelude Config LexProduct Enumerator.

(** Where an activation stands: at the head of its loop, or after the
    [if] of the loop body, before [current_tuple.pop_back()]. *)
Inductive point : Set := LoopHead | AfterBranch.

#[export] Instance point_eq_dec : EqDecision point.
Proof. solve_decision. Defined.

(** An activation of [rec_pointer]. *)
Record activation : Set := {
  dimension_table_index : Z;
  tuple_index : Z;
  point_of : point;
}.

#[export] Instance activation_eq_dec : EqDecision activation.
Proof. solve_decision. Defined.

(** The activation that [rec_function(d, rec_function)] starts. *)
Definition call (d : Z) : activation :=
  {| dimension_table_index := d; tuple_index := 0; point_of := LoopHead |}.

Section machine.
Context `{cfg : Config} {E W : Type}.
Context (number_of_dimension_tables : Z) (add_entry_to_tuple : callback E W).

Definition config : Type := list activation * frame E W.

(** The activation [a] after the [if] of its loop body. *)
Definition after_branch (a : activation) : activation :=
  {| dimension_table_index := dimension_table_index a;
     tuple_index := tuple_index a;
     point_of := AfterBranch |}.

(** The activation [a] at the head of its next iteration. *)
Definition next_iteration (a : activation) : activation :=
  {| dimension_table_index := dimension_table_index a;
     tuple_index := tuple_index a + 1;
     point_of := LoopHead |}.

(** The body of the loop up to the [if]: the callback, then the descent
    into the next dimension or the emission of the tuple. *)
Definition enter_branch (a : activation) (K : list activation)
    : M (frame E W) (list activation) :=
  zoom outer set_outer
    (add_entry_to_tuple (dimension_table_index a) (tuple_index a)) ;;
  if bool_decide (dimension_table_index a < to_size_t (number_of_dimension_tables - 1))
  then ret (call (to_size_t (dimension_table_index a + 1)) :: after_branch a :: K)
  else
    emplace_back_current_tuple ;;
    increment_tuples_in_fact_table ;;
    ret (after_branch a :: K).

(** One step of the topmost activation; [None] when the stack is empty. *)
Definition step_fn (c : config) : option (result config) :=
  match c.1 with
  | [] => None
  | a :: K =>
      Some
        match point_of a with
        | LoopHead =>
            if bool_decide (tuple_index a < rows_per_dimension) then
              if bool_decide (number_of_tuples_in_fact_table ≤ tuples_in_fact_table c.2)
              then Ok (K, c.2)
              else enter_branch a K c.2
            else Ok (K, c.2)
        | AfterBranch =>
            (pop_back_current_tuple ;; ret (next_iteration a :: K)) c.2
        end
  end.

(** The steps as rules. *)
Inductive step : config → config → Prop :=
| step_loop_end d j K f :
    rows_per_dimension ≤ j →
    step ({| dimension_table_index := d; tuple_index := j; point_of := LoopHead |} :: K, f)
         (K, f)
| step_capped d j K f :
    j < rows_per_dimension →
    number_of_tuples_in_fact_table ≤ tuples_in_fact_table f →
    step ({| dimension_table_index := d; tuple_index := j; point_of := LoopHead |} :: K, f)
         (K, f)
| step_descend d j K f f1 :
    j < rows_per_dimension →
    tuples_in_fact_table f < number_of_tuples_in_fact_table →
    zoom outer set_outer (add_entry_to_tuple d j) f = Ok (tt, f1) →
    d < to_size_t (number_of_dimension_tables - 1) →
    step ({| dimension_table_index := d; tuple_index := j; point_of := LoopHead |} :: K, f)
         (call (to_size_t (d + 1))
            :: {| dimension_table_index := d; tuple_index := j; point_of := AfterBranch |}
            :: K, f1)
| step_emit d j K f f1 f2 f3 :
    j < rows_per_dimension →
    tuples_in_fact_table f < number_of_tuples_in_fact_table →
    zoom outer set_outer (add_entry_to_tuple d j) f = Ok (tt, f1) →
    ¬ d < to_size_t (number_of_dimension_tables - 1) →
    emplace_back_current_tuple f1 = Ok (tt, f2) →
    increment_tuples_in_fact_table f2 = Ok (tt, f3) →
    step ({| dimension_table_index := d; tuple_index := j; point_of := LoopHead |} :: K, f)
         ({| dimension_table_index := d; tuple_index := j; point_of := AfterBranch |} :: K, f3)
| step_pop_back d j K f f1 :
    pop_back_current_tuple f = Ok (tt, f1) →
    step ({| dimension_table_index := d; tuple_index := j; point_of := AfterBranch |} :: K, f)
         ({| dimension_table_index := d; tuple_index := j + 1; point_of := LoopHead |} :: K, f1).

(** At most [steps] steps from [c]: the configuration reached, which is
    final when its stack is empty. *)
Fixpoint exec (steps : nat) (c : config) : result config :=
  match steps with
  | O => Ok c
  | S steps' =>
      match step_fn c with
      | None => Ok c
      | Some (Ok c') => exec steps' c'
      | Some (Err e) => Err e
      end
  end.

(** The configurations from which the machine reaches a step that is
    undefined behaviour [u]. *)
Definition undefined_from (c : config) (u : undefined) : Prop :=
  ∃ c', rtc step c c' ∧ step_fn c' = Some (Err (UB u)).

End machine.

(** The stack of a configuration that a run of [rec_pointer(0, _)] reaches:
    the bottom activation is that of dimension [0], every activation was
    called by the one below it, for the next dimension, and the caller
    waits after its [if]. *)
Inductive stack_ok : list activation → Prop :=
| stack_ok_nil : stack_ok []
| stack_ok_bottom a : dimension_table_index a = 0 → stack_ok [a]
| stack_ok_call a b K :
    stack_ok (b :: K) → point_of b = AfterBranch →
    dimension_table_index a = dimension_table_index b + 1 →
    stack_ok (a :: b :: K).

(** * Lemmas *)

Section relations.
Context {A : Type} (R : relation A).

(** Two runs of a deterministic relation that both end, end in the same
    place. *)
Lemma rtc_terminal_unique x y z :
  (∀ a b c, R a b → R a c → b = c) →
  rtc R x y → rtc R x z → (∀ w, ¬ R y w) → (∀ w, ¬ R z w) → y = z.
Proof.
  intros Hdet Hy. revert z. induction Hy as [x|x x' y Hxx' Hy IH]; intros z Hz Hny Hnz.
  - destruct Hz as [|x x' z Hxx' _]; [done | by destruct (Hny x')].
  - destruct Hz as [|x x'' z Hxx'' Hz]; [by destruct (Hnz x')|].
    rewrite <- (Hdet _ _ _ Hxx' Hxx'') in Hz. by apply IH.
Qed.

End relations.

Section machine_lemmas.
Context `{cfg : Config} {E W : Type}.
Context (n : Z) (add_entry_to_tuple : callback E W).
Implicit Types (K : list activation) (f : frame E W) (a : activation).

#[local] Abbreviation step_fn := (step_fn n add_entry_to_tuple).
#[local] Abbreviation step := (step n add_entry_to_tuple).
#[local] Abbreviation rows := rows_per_dimension.
#[local] Abbreviation cap := number_of_tuples_in_fact_table.
#[local] Abbreviation undefined_from := (undefined_from n add_entry_to_tuple).

(** ** The rules and the function agree *)

Lemma step_step_fn c c' : step c c' → step_fn c = Some (Ok c').
Proof.
  destruct 1; unfold Machine.step_fn, enter_branch; cbn [fst snd point_of tuple_index
    dimension_table_index]; f_equal.
  - by rewrite bool_decide_eq_false_2 by lia.
  - by rewrite !bool_decide_eq_true_2 by lia.
  - rewrite bool_decide_eq_true_2, bool_decide_eq_false_2 by lia.
    erewrite bind_Ok by done. by rewrite bool_decide_eq_true_2.
  - rewrite bool_decide_eq_true_2, bool_decide_eq_false_2 by lia.
    erewrite bind_Ok by done. rewrite bool_decide_eq_false_2 by done.
    by do 2 (erewrite bind_Ok by done).
  - by erewrite bind_Ok by done.
Qed.

Lemma step_fn_step c c' : step_fn c = Some (Ok c') → step c c'.
Proof.
  destruct c as [[|[d j p] K] f], c' as [K' f']; [done|].
  unfold Machine.step_fn, enter_branch.
  cbn [fst snd point_of tuple_index dimension_table_index]. intros [= Hc].
  destruct p.
  - case_bool_decide; [|injection Hc as <- <-; apply step_loop_end; lia].
    case_bool_decide; [injection Hc as <- <-; by apply step_capped|].
    apply bind_Ok_inv in Hc as ([] & f1 & Hcall & Hc). case_bool_decide.
    + injection Hc as <- <-. apply step_descend; (done || lia).
    + apply bind_Ok_inv in Hc as ([] & f2 & Hemit & Hc).
      apply bind_Ok_inv in Hc as ([] & f3 & Hinc & [= <- <-]).
      eapply step_emit; (done || lia).
  - apply bind_Ok_inv in Hc as ([] & f1 & Hpop & [= <- <-]). by apply step_pop_back.
Qed.

Lemma step_deterministic c c1 c2 : step c c1 → step c c2 → c1 = c2.
Proof. intros H1%step_step_fn H2%step_step_fn. congruence. Qed.

Lemma step_empty f c : ¬ step ([], f) c.
Proof. by intros H%step_step_fn. Qed.

(** ** Simulation of the recursive definition *)

Lemma rec_pointer_iteration_Ok_inv rec_function d j f c f' :
  rec_pointer_iteration n add_entry_to_tuple rec_function d j f = Ok (c, f') →
  (cap ≤ tuples_in_fact_table f ∧ c = Return ∧ f' = f) ∨
  (tuples_in_fact_table f < cap ∧ c = Continue ∧
   ∃ f1 f2, zoom outer set_outer (add_entry_to_tuple d j) f = Ok (tt, f1) ∧
            descend_or_emit n rec_function d f1 = Ok (tt, f2) ∧
            pop_back_current_tuple f2 = Ok (tt, f')).
Proof.
  unfold rec_pointer_iteration.
  rewrite (bind_Ok _ _ f (tuples_in_fact_table f) f eq_refl).
  case_bool_decide as Hcap; [intros [= <- <-]; by left|]. intros H. right.
  apply bind_Ok_inv in H as ([] & f1 & Hcall & H).
  apply bind_Ok_inv in H as ([] & f2 & Hbranch & H).
  apply bind_Ok_inv in H as ([] & f3 & Hpop & [= <- <-]).
  split_and!; [lia | done | by exists f1, f2].
Qed.

Lemma rec_pointer_iteration_Err_inv rec_function d j f e :
  rec_pointer_iteration n add_entry_to_tuple rec_function d j f = Err e →
  tuples_in_fact_table f < cap ∧
  (zoom outer set_outer (add_entry_to_tuple d j) f = Err e ∨
   ∃ f1, zoom outer set_outer (add_entry_to_tuple d j) f = Ok (tt, f1) ∧
         (descend_or_emit n rec_function d f1 = Err e ∨
          ∃ f2, descend_or_emit n rec_function d f1 = Ok (tt, f2) ∧
                pop_back_current_tuple f2 = Err e)).
Proof.
  unfold rec_pointer_iteration.
  rewrite (bind_Ok _ _ f (tuples_in_fact_table f) f eq_refl).
  case_bool_decide as Hcap; [done|]. intros H. split; [lia|].
  apply bind_Err_inv in H as [H | ([] & f1 & Hcall & H)]; [by left|]. right.
  exists f1. split; [done|].
  apply bind_Err_inv in H as [H | ([] & f2 & Hbranch & H)]; [by left|]. right.
  exists f2. split; [done|].
  by apply bind_Err_inv in H as [H | ([] & f3 & _ & [=])].
Qed.

Section one_level.
Context (rec_function : Z → M (frame E W) unit) (d : Z).
Context (Hrec : ∀ f f' K, rec_function (to_size_t (d + 1)) f = Ok (tt, f') →
                          rtc step (call (to_size_t (d + 1)) :: K, f) (K, f')).

#[local] Abbreviation at_head j :=
  {| dimension_table_index := d; tuple_index := j; point_of := LoopHead |}.
#[local] Abbreviation at_pop j :=
  {| dimension_table_index := d; tuple_index := j; point_of := AfterBranch |}.

(** The [if] of the loop body, from the state after the callback. *)
Lemma branch_run j f f1 f2 K :
  j < rows → tuples_in_fact_table f < cap →
  zoom outer set_outer (add_entry_to_tuple d j) f = Ok (tt, f1) →
  descend_or_emit n rec_function d f1 = Ok (tt, f2) →
  rtc step (at_head j :: K, f) (at_pop j :: K, f2).
Proof.
  intros Hj Hcap Hcall Hbranch. unfold descend_or_emit in Hbranch.
  case_bool_decide.
  - eapply rtc_l; [by apply step_descend|]. by apply Hrec.
  - apply bind_Ok_inv in Hbranch as ([] & f2' & Hemit & Hinc).
    apply rtc_once. by eapply step_emit.
Qed.

(** An iteration that goes on to the next. *)
Lemma iteration_run j f f' K :
  j < rows →
  rec_pointer_iteration n add_entry_to_tuple rec_function d j f = Ok (Continue, f') →
  rtc step (at_head j :: K, f) (at_head (j + 1) :: K, f').
Proof.
  intros Hj [(_ & [=] & _) | (Hcap & _ & f1 & f2 & Hcall & Hbranch & Hpop)]
    %rec_pointer_iteration_Ok_inv.
  etrans; [by eapply branch_run|]. by apply rtc_once, step_pop_back.
Qed.

Lemma loop_simulation :
  ∀ j, 0 ≤ j → ∀ f f' K,
    for_range j rows (rec_pointer_iteration n add_entry_to_tuple rec_function d) f =
      Ok (tt, f') →
    rtc step (at_head j :: K, f) (K, f').
Proof.
  apply (for_range_ind
           (λ j, ∀ f f' K,
              for_range j rows
                (rec_pointer_iteration n add_entry_to_tuple rec_function d) f =
                Ok (tt, f') →
              rtc step (at_head j :: K, f) (K, f')) 0 rows).
  - intros j Hj f f' K. rewrite for_range_ge by lia. intros [= <-].
    apply rtc_once, step_loop_end. lia.
  - intros j Hj IH f f' K. rewrite (for_range_lt _ _ _ (proj2 Hj) f). intros H.
    apply bind_Ok_inv in H as ([|] & f3 & Hit & H).
    + etrans; [by apply iteration_run; [lia|]|]. by apply IH.
    + injection H as <-.
      apply rec_pointer_iteration_Ok_inv in Hit as [(Hcap & _ & ->) | (_ & [=] & _)].
      apply rtc_once, step_capped; lia.
Qed.

Context (Hrec_Err : ∀ f u K, rec_function (to_size_t (d + 1)) f = Err (UB u) →
                             undefined_from (call (to_size_t (d + 1)) :: K, f) u).

Lemma undefined_from_rtc c c' u :
  rtc step c c' → undefined_from c' u → undefined_from c u.
Proof. intros Hrun (c'' & Hrun' & Hu). exists c''. split; [by etrans | done]. Qed.

(** An iteration that is undefined behaviour. *)
Lemma iteration_undefined j f u K :
  j < rows →
  rec_pointer_iteration n add_entry_to_tuple rec_function d j f = Err (UB u) →
  undefined_from (at_head j :: K, f) u.
Proof.
  intros Hj (Hcap & [Hcall | (f1 & Hcall & [Hbranch | (f2 & Hbranch & Hpop)])])
    %rec_pointer_iteration_Err_inv.
  - exists (at_head j :: K, f). split; [done|].
    unfold Machine.step_fn, enter_branch. cbn [fst snd point_of tuple_index
      dimension_table_index].
    rewrite bool_decide_eq_true_2, bool_decide_eq_false_2 by lia.
    by erewrite bind_Err.
  - unfold descend_or_emit in Hbranch. case_bool_decide.
    + eapply undefined_from_rtc; [by apply rtc_once, step_descend|].
      by apply Hrec_Err.
    + exists (at_head j :: K, f). split; [done|].
      unfold Machine.step_fn, enter_branch. cbn [fst snd point_of tuple_index
        dimension_table_index].
      rewrite bool_decide_eq_true_2, bool_decide_eq_false_2 by lia.
      erewrite bind_Ok by done. rewrite bool_decide_eq_false_2 by done.
      apply bind_Err_inv in Hbranch as [Hemit | ([] & f2 & Hemit & Hinc)]; [done|].
      erewrite bind_Ok by done. by erewrite bind_Err.
  - eapply undefined_from_rtc; [by eapply branch_run|].
    exists (at_pop j :: K, f2). split; [done|].
    unfold Machine.step_fn. cbn [fst snd point_of]. by erewrite bind_Err.
Qed.

Lemma loop_undefined :
  ∀ j, 0 ≤ j → ∀ f u K,
    for_range j rows (rec_pointer_iteration n add_entry_to_tuple rec_function d) f =
      Err (UB u) →
    undefined_from (at_head j :: K, f) u.
Proof.
  apply (for_range_ind
           (λ j, ∀ f u K,
              for_range j rows
                (rec_pointer_iteration n add_entry_to_tuple rec_function d) f =
                Err (UB u) →
              undefined_from (at_head j :: K, f) u) 0 rows).
  - intros j Hj f u K. by rewrite for_range_ge by lia.
  - intros j Hj IH f u K. rewrite (for_range_lt _ _ _ (proj2 Hj) f). intros H.
    apply bind_Err_inv in H as [Hit | ([|] & f3 & Hit & H)]; [| |done].
    + apply iteration_undefined; [lia | done].
    + eapply undefined_from_rtc; [by apply iteration_run; [lia|]|]. by apply IH.
Qed.

End one_level.

(** Whatever [rec_pointer] returns, the machine reaches. *)
Lemma rec_pointer_simulation fuel d f f' K :
  rec_pointer fuel n add_entry_to_tuple d f = Ok (tt, f') →
  rtc step (call d :: K, f) (K, f').
Proof.
  revert d f f' K. induction fuel as [|fuel IH]; intros d f f' K H; [done|].
  apply (loop_simulation (rec_pointer fuel n add_entry_to_tuple) d); [|done|done].
  intros f1 f2 K'. apply IH.
Qed.

(** Undefined behaviour of [rec_pointer] is undefined behaviour of the
    machine. *)
Lemma rec_pointer_undefined fuel d f u K :
  rec_pointer fuel n add_entry_to_tuple d f = Err (UB u) →
  undefined_from (call d :: K, f) u.
Proof.
  revert d f u K. induction fuel as [|fuel IH]; intros d f u K H; [done|].
  apply (loop_undefined (rec_pointer fuel n add_entry_to_tuple) d); [| |done|done].
  - intros f1 f2 K'. apply rec_pointer_simulation.
  - intros f1 u' K'. apply IH.
Qed.

(** ** Invariants of the reachable configurations *)

Lemma stack_ok_tail a K : stack_ok (a :: K) → stack_ok K.
Proof. inversion 1; [constructor | done]. Qed.

Lemma stack_ok_replace_top a a' K :
  dimension_table_index a' = dimension_table_index a →
  stack_ok (a :: K) → stack_ok (a' :: K).
Proof.
  intros Hd. inversion 1; subst.
  - apply stack_ok_bottom. congruence.
  - apply stack_ok_call; [done | done | congruence].
Qed.

(** The dimension of the topmost activation is the depth of the stack
    below it. *)
Lemma stack_ok_top a K :
  stack_ok (a :: K) → dimension_table_index a = Z.of_nat (length K).
Proof.
  revert a. induction K as [|b K IH]; intros a; inversion 1; subst; [done|].
  rewrite (IH b) in * by done. simpl length. lia.
Qed.

Lemma step_stack_ok K f K' f' :
  1 ≤ n < size_t_modulus → step (K, f) (K', f') →
  stack_ok K ∧ Z.of_nat (length K) ≤ n → stack_ok K' ∧ Z.of_nat (length K') ≤ n.
Proof.
  intros Hn Hstep [Hok Hlen].
  inversion Hstep; subst; simpl length in *.
  - split; [by eapply stack_ok_tail | lia].
  - split; [by eapply stack_ok_tail | lia].
  - pose proof (stack_ok_top _ _ Hok) as Hd. simpl in Hd.
    rewrite to_size_t_pred in * by lia. rewrite to_size_t_succ by lia.
    split; [|lia]. apply stack_ok_call; [|done|done].
    eapply stack_ok_replace_top; [|exact Hok]. done.
  - split; [|lia]. eapply stack_ok_replace_top; [|exact Hok]. done.
  - split; [|lia]. eapply stack_ok_replace_top; [|exact Hok]. done.
Qed.

Lemma zoom_outer_counter {A} (m : M (caller E W) A) f (x : A) f' :
  zoom outer set_outer m f = Ok (x, f') →
  fact_table f' = fact_table f ∧ tuples_in_fact_table f' = tuples_in_fact_table f.
Proof. by intros (c & _ & ->)%zoom_Ok_inv. Qed.

Lemma emit_counter_inv f1 f2 f3 :
  emplace_back_current_tuple f1 = Ok (tt, f2) →
  increment_tuples_in_fact_table f2 = Ok (tt, f3) →
  counter_inv f1 → tuples_in_fact_table f1 < cap → counter_inv f3.
Proof.
  intros [= <-]. unfold increment_tuples_in_fact_table, bind, get. simpl.
  case_bool_decide; [|done]. intros [= <-] [Hlen Hle] Hlt. unfold counter_inv.
  simpl. autorewrite with prog. lia.
Qed.

Lemma step_counter_inv K f K' f' :
  step (K, f) (K', f') → counter_inv f → counter_inv f'.
Proof.
  unfold counter_inv at 1.
  inversion 1 as [ | | d j K0 f0 f1 Hj Hcap Hcall Hd
                 | d j K0 f0 f1 f2 f3 Hj Hcap Hcall Hd Hemit Hinc
                 | d j K0 f0 f1 Hpop]; subst; intros [Hlen Hle]; [done | done | ..].
  - apply zoom_outer_counter in Hcall as [Hft Htu]. unfold counter_inv.
    by rewrite Hft, Htu.
  - apply zoom_outer_counter in Hcall as [Hft Htu].
    apply (emit_counter_inv f1 f2); [done | done | | lia].
    unfold counter_inv. by rewrite Hft, Htu.
  - apply zoom_outer_counter in Hpop as [Hft Htu]. unfold counter_inv.
    by rewrite Hft, Htu.
Qed.

(** What holds of every configuration that a run from [rec_pointer(0, _)]
    reaches. *)
Lemma reachable_invariant f0 K f :
  1 ≤ n < size_t_modulus → counter_inv f0 →
  rtc step ([call 0], f0) (K, f) →
  stack_ok K ∧ Z.of_nat (length K) ≤ n ∧ counter_inv f.
Proof.
  intros Hn Hf0 Hrun.
  cut (∀ c, rtc step ([call 0], f0) c →
            stack_ok c.1 ∧ Z.of_nat (length c.1) ≤ n ∧ counter_inv c.2);
    [intros H; apply (H (K, f) Hrun)|].
  apply rtc_ind_r.
  - split_and!; [by apply stack_ok_bottom | simpl; lia | done].
  - intros [K1 f1] [K2 f2] _ Hstep (Hok & Hlen & Hinv).
    destruct (step_stack_ok _ _ _ _ Hn Hstep (conj Hok Hlen)) as [? ?].
    split_and!; [done | done | by eapply step_counter_inv].
Qed.

(** ** Running the machine *)

Lemma exec_rtc steps c c' : exec n add_entry_to_tuple steps c = Ok c' → rtc step c c'.
Proof.
  revert c. induction steps as [|steps IH]; intros c; simpl; [by intros [= ->]|].
  destruct (step_fn c) as [[c1|e]|] eqn:Hc; [|done|by intros [= ->]].
  intros H. eapply rtc_l; [by apply step_fn_step | by apply IH].
Qed.

End machine_lemmas.

(** ** Where undefined behaviour comes from *)

Section undefined_steps.
Context `{cfg : Config} `{!ConfigOk cfg} {E W : Type}.
Context (n : Z) (add_entry_to_tuple : callback E W).

(** A step is undefined only in the callback or in [pop_back]: the counter
    is incremented only below the cap, which is an [int]. *)
Lemma step_fn_undefined c u :
  step_fn n add_entry_to_tuple c = Some (Err (UB u)) →
  (∃ d j c', add_entry_to_tuple d j c' = Err (UB u)) ∨ u = PopEmpty.
Proof.
  destruct c as [[|[d j p] K] f]; [done|]. unfold step_fn, enter_branch.
  cbn [fst snd point_of tuple_index dimension_table_index]. intros [= Hc]. destruct p.
  - repeat case_bool_decide; try done;
      apply bind_Err_inv in Hc as [Hc%zoom_Err_inv|([] & f1 & Hcall & Hc)];
      [left; eauto | done | left; eauto |].
    apply zoom_Ok_inv in Hcall as (c' & _ & ->).
    apply bind_Err_inv in Hc as [Hc|([] & f2 & [= <-] & Hc)]; [done|].
    apply bind_Err_inv in Hc as [Hc|([] & f3 & _ & Hc)]; [|done].
    unfold increment_tuples_in_fact_table, bind, get in Hc. simpl in Hc.
    case_bool_decide as Hmax; [done|]. destruct Hmax. apply cap_lt_INT_MAX. lia.
  - apply bind_Err_inv in Hc as [Hc|([] & f1 & _ & Hc)]; [|done].
    unfold pop_back_current_tuple, zoom, bind, get, lift_result in Hc. simpl in Hc.
    right. destruct (current_tuple (outer f)); simpl in Hc; by simplify_eq.
Qed.

End undefined_steps.

(** * Theorems *)

(** Claim C9 (the machine simulates the recursion).  Whatever fact table
    [get_fact_table] returns, with whatever callback and fuel, the machine
    reaches from the activation [rec_pointer(0, _)] the empty stack with
    that fact table and that state of the caller. *)
Theorem machine_simulates `{cfg : Config} {E W : Type}
    (n : Z) (add_entry_to_tuple : callback E W) (fuel : nat) c ft c' :
  get_fact_table fuel n add_entry_to_tuple c = Ok (ft, c') →
  ∃ f', rtc (step n add_entry_to_tuple) ([call 0], initial_frame c) ([], f') ∧
        fact_table f' = ft ∧ outer f' = c'.
Proof.
  unfold get_fact_table.
  destruct (rec_pointer fuel _ _ _ _) as [[[] f']|e] eqn:Hrun; [|done].
  intros [= <- <-]. exists f'. split; [|done]. by eapply rec_pointer_simulation.
Qed.

Lemma machine_simulates_witness :
  ∃ f', rtc (step (cfg := example_config) 2 pair_callback)
            ([call 0], initial_frame {| current_tuple := []; captured := tt |})
            ([], f') ∧
        fact_table f' = enumerate_spec (cfg := example_config) pair 2 [] ∧
        outer f' = {| current_tuple := []; captured := tt |}.
Proof.
  by apply (machine_simulates (cfg := example_config) 2 pair_callback 2).
Defined.

(** Claim C25 (undefined behaviour is simulated).  When [get_fact_table] is
    undefined behaviour, the machine reaches a configuration whose next
    step is that undefined behaviour. *)
Theorem machine_simulates_undefined `{cfg : Config} {E W : Type}
    (n : Z) (add_entry_to_tuple : callback E W) (fuel : nat) c u :
  get_fact_table fuel n add_entry_to_tuple c = Err (UB u) →
  undefined_from n add_entry_to_tuple ([call 0], initial_frame c) u.
Proof.
  unfold get_fact_table.
  destruct (rec_pointer fuel _ _ _ _) as [[[] f']|e] eqn:Hrun; [done|].
  intros [= ->]. by eapply rec_pointer_undefined.
Qed.

Lemma machine_simulates_undefined_witness :
  undefined_from (cfg := example_config) 2 failing_callback
    ([call 0], initial_frame {| current_tuple := []; captured := tt |}) OutOfRange.
Proof.
  by apply (machine_simulates_undefined (cfg := example_config) 2 failing_callback 2).
Defined.

(** Claim C23 (the machine enumerates the prefix).  For a pure encoder and
    at least one dimension table, the runs of the machine from
    [rec_pointer(0, _)] that empty the stack are exactly those that end
    with the encoded prefix of the lexicographic product as the fact
    table, its size as the counter, and [current_tuple] as it was.  The
    machine takes no fuel. *)
Theorem machine_enumerates `{cfg : Config} `{!ConfigOk cfg} {E W : Type}
    (n : Z) (add_entry_to_tuple : callback E W) (w : W) (encode : Z → Z → E)
    `{!PureEncoder n add_entry_to_tuple w encode} (v : list E) f' :
  1 ≤ n < size_t_modulus →
  rtc (step n add_entry_to_tuple)
      ([call 0], initial_frame {| current_tuple := v; captured := w |}) ([], f') ↔
  f' = {| fact_table := enumerate_spec encode n v;
          tuples_in_fact_table := Z.of_nat (length (enumerate_spec encode n v));
          outer := {| current_tuple := v; captured := w |} |}.
Proof.
  intros Hn.
  set (final := {| fact_table := enumerate_spec encode n v;
                   tuples_in_fact_table :=
                     Z.of_nat (length (enumerate_spec encode n v));
                   outer := {| current_tuple := v; captured := w |} |}).
  assert (rtc (step n add_entry_to_tuple)
            ([call 0], initial_frame {| current_tuple := v; captured := w |})
            ([], final)) as Hrun.
  { apply (rec_pointer_simulation n add_entry_to_tuple (Z.to_nat n)).
    by apply (rec_pointer_top n add_entry_to_tuple w encode). }
  split; [|by intros ->]. intros Hrun'.
  assert (([] : list activation, f') = ([], final)) as [= ->]; [|done].
  eapply (rtc_terminal_unique (step n add_entry_to_tuple));
    [apply step_deterministic | done | done | apply step_empty | apply step_empty].
Qed.

Lemma machine_enumerates_witness :
  rtc (step (cfg := example_config) 2 pair_callback)
      ([call 0], initial_frame {| current_tuple := []; captured := tt |})
      ([], {| fact_table := enumerate_spec (cfg := example_config) pair 2 [];
              tuples_in_fact_table := 5;
              outer := {| current_tuple := []; captured := tt |} |}) ↔
  {| fact_table := enumerate_spec (cfg := example_config) pair 2 [];
     tuples_in_fact_table := 5;
     outer := {| current_tuple := []; captured := tt |} |} =
  {| fact_table := enumerate_spec (cfg := example_config) pair 2 [];
     tuples_in_fact_table := Z.of_nat (length (enumerate_spec (cfg := example_config)
                                                 pair 2 []));
     outer := {| current_tuple := []; captured := tt |} |}.
Proof.
  apply (machine_enumerates (cfg := example_config) 2 pair_callback tt pair []).
  unfold size_t_modulus. lia.
Defined.

(** Claim C24 (depth of the recursion, and the counter).  In every
    configuration that a run from [rec_pointer(0, _)] reaches, whatever the
    callback does, the activations on the stack are those of the
    dimensions [0], [1], ... from the bottom, each caller waiting after its
    [if]; the stack is at most [number_of_dimension_tables] deep; and the
    counter is the size of the fact table and within the cap. *)
Theorem machine_invariant `{cfg : Config} {E W : Type}
    (n : Z) (add_entry_to_tuple : callback E W) c K f :
  1 ≤ n < size_t_modulus →
  rtc (step n add_entry_to_tuple) ([call 0], initial_frame c) (K, f) →
  stack_ok K ∧ Z.of_nat (length K) ≤ n ∧
  tuples_in_fact_table f = Z.of_nat (length (fact_table f)) ∧
  tuples_in_fact_table f ≤ Z.max 0 number_of_tuples_in_fact_table.
Proof.
  intros Hn Hrun. apply (reachable_invariant n add_entry_to_tuple (initial_frame c));
    [done | | done].
  split; simpl; lia.
Qed.

Lemma machine_invariant_witness :
  stack_ok [call 1; {| dimension_table_index := 0; tuple_index := 0;
                       point_of := AfterBranch |}] ∧
  Z.of_nat 2 ≤ 2 ∧
  0 = Z.of_nat (length (@nil (FactTableObject (Z * Z)))) ∧
  0 ≤ Z.max 0 5.
Proof.
  apply (machine_invariant (cfg := example_config) 2 pair_callback
           {| current_tuple := []; captured := tt |}
           [call 1; {| dimension_table_index := 0; tuple_index := 0;
                       point_of := AfterBranch |}]
           {| fact_table := []; tuples_in_fact_table := 0;
              outer := {| current_tuple := [(0, 0)]; captured := tt |} |});
    [unfold size_t_modulus; lia|].
  by apply rtc_once, step_descend.
Defined.

(** Claim C26 (the machine ends).  For at least one dimension table and a
    callback that itself ends, the machine reaches, from
    [rec_pointer(0, _)], the empty stack or a step that is undefined
    behaviour: no run goes on for ever. *)
Theorem machine_total `{cfg : Config} {E W : Type}
    (n : Z) (add_entry_to_tuple : callback E W) c :
  (∀ d j, terminates (add_entry_to_tuple d j)) → 1 ≤ n < size_t_modulus →
  (∃ f', rtc (step n add_entry_to_tuple) ([call 0], initial_frame c) ([], f')) ∨
  (∃ u, undefined_from n add_entry_to_tuple ([call 0], initial_frame c) u).
Proof.
  intros Hcb Hn.
  pose proof (terminates_rec_pointer n add_entry_to_tuple Hcb Hn (Z.to_nat n) 0
                ltac:(lia) ltac:(lia) (initial_frame c)) as H.
  destruct (rec_pointer (Z.to_nat n) n add_entry_to_tuple 0 (initial_frame c))
    as [[[] f']|[|u]] eqn:Hrun; [left | done | right].
  - exists f'. by eapply rec_pointer_simulation.
  - exists u. by eapply rec_pointer_undefined.
Qed.

Lemma machine_total_witness :
  (∃ f', rtc (step (cfg := example_config) 2 pair_callback)
             ([call 0], initial_frame {| current_tuple := []; captured := tt |})
             ([], f')) ∨
  (∃ u, undefined_from (cfg := example_config) 2 pair_callback
          ([call 0], initial_frame {| current_tuple := []; captured := tt |}) u).
Proof.
  apply (machine_total (cfg := example_config) 2 pair_callback);
    [by intros d j s | unfold size_t_modulus; lia].
Defined.

(** Claim C22 (where undefined behaviour comes from).  With constants that
    are [int]s, undefined behaviour of [get_fact_table] is undefined
    behaviour of a call of its callback, or [pop_back] on a
    [current_tuple] that the callback left empty, whatever the callback,
    the fuel and the number of dimension tables: [tuples_in_fact_table++]
    never overflows, since the counter is incremented only below the
    cap.  The proof finds the step that is undefined on the machine. *)
Theorem get_fact_table_undefined `{cfg : Config} `{!ConfigOk cfg} {E W : Type}
    (n : Z) (add_entry_to_tuple : callback E W) (fuel : nat) c u :
  get_fact_table fuel n add_entry_to_tuple c = Err (UB u) →
  (∃ d j c', add_entry_to_tuple d j c' = Err (UB u)) ∨ u = PopEmpty.
Proof.
  unfold get_fact_table.
  destruct (rec_pointer fuel _ _ _ _) as [[[] f']|e] eqn:Hrun; [done|].
  intros [= ->].
  destruct (rec_pointer_undefined n add_entry_to_tuple fuel 0 _ u [] Hrun)
    as (c' & _ & Hc').
  by apply (step_fn_undefined n add_entry_to_tuple c').
Qed.

Lemma get_fact_table_undefined_witness :
  (∃ d j c', failing_callback d j c' = Err (UB OutOfRange)) ∨ OutOfRange = PopEmpty.
Proof.
  by apply (get_fact_table_undefined (cfg := example_config) 2 failing_callback 2
              {| current_tuple := []; captured := tt |}).
Defined.

(** The machine on the example of the specification, in sixty steps. *)
Example exec_example :
  exec (cfg := example_config) 2 pair_callback 60
    ([call 0], initial_frame {| current_tuple := []; captured := tt |}) =
  Ok ([], {| fact_table := enumerate_spec (cfg := example_config) pair 2 [];
             tuples_in_fact_table := 5;
             outer := {| current_tuple := []; captured := tt |} |}).
Proof. reflexivity. Qed.
