(* ===== verification/DimensionStore.v ===== *)
(** * The dimension store

    The first phase of [evaluate_for_n_dimensions] (lines 102-124 of
    [src/benchmark.cpp]) builds [n] dimension tables and, beside each, a hash
    index from row id to a [shared_ptr] that owns a copy of the row.

    - [DimensionObject] is the class of the source; a [DimensionTable] is a
      vector of them.
    - A [shared_ptr<DimensionObject>] is [None] when empty and [Some l] when
      it owns the object at address [l] of the [heap], the storage that
      [make_shared] allocates; addresses are handed out in order, so two
      allocations never share one.
    - A [DimensionTableIndex] is a [gmap] from ids to handles, read with
      [index_at], which is [unordered_map::operator[]]: a key that is absent
      is inserted with an empty handle.
    - [store] holds the locals [dimensions] and [dimension_indexes] of
      [evaluate_for_n_dimensions] and the heap.

    [build_star_schema] is the loop over the dimensions, [build_dimension]
    its body, [emplace_back_dimension_object] and [index_dimension_object]
    the two statements of the inner loop.  The theorems give the store that
    the build returns in closed form ([built_store]) and, from it, what the
    rest of the program relies on: position and id coincide, every id of a
    table is a key of its index, every handle owns a copy of its row, and no
    two handles share an address. *)

From stdpp Require Import pretty.
From S2P Require Import Prelude Config.

(** A tuple of a dimension table. *)
Record DimensionObject : Set := { id_ : Z; info_ : string }.

#[export] Instance DimensionObject_eq_dec : EqDecision DimensionObject.
Proof. solve_decision. Defined.

(** [using DimensionTable = std::vector<DimensionObject>]. *)
Abbreviation DimensionTable := (list DimensionObject).

(** [shared_ptr<DimensionObject>]: empty, or the address of the object it
    owns. *)
Definition shared_ptr : Set := option nat.

(** The objects allocated by [make_shared], by address. *)
Abbreviation heap := (list DimensionObject).

(** [using DimensionTableIndex = std::unordered_map<size_t, shared_ptr<...>>]. *)
Abbreviation DimensionTableIndex := (gmap Z shared_ptr).

Record store : Type := {
  dimensions : list DimensionTable;
  dimension_indexes : list DimensionTableIndex;
  shared : heap;
}.

Definition set_dimensions (d : list DimensionTable) (s : store) : store :=
  {| dimensions := d; dimension_indexes := dimension_indexes s; shared := shared s |}.

Definition set_dimension_indexes (x : list DimensionTableIndex) (s : store) : store :=
  {| dimensions := dimensions s; dimension_indexes := x; shared := shared s |}.

(** The vectors [dimensions] and [dimension_indexes] as declared: empty. *)
Definition empty_store : store :=
  {| dimensions := []; dimension_indexes := []; shared := [] |}.

(** [std::to_string] of a [size_t]. *)
Definition to_string (j : Z) : string := pretty j.

(** [make_shared<DimensionObject>(object)]: a new allocation holding a copy
    of [object]. *)
Definition make_shared (object : DimensionObject) : M store shared_ptr :=
  s <- get ;;
  put {| dimensions := dimensions s;
         dimension_indexes := dimension_indexes s;
         shared := emplace_back (shared s) object |} ;;
  ret (Some (length (shared s))).

(** [*p]. *)
Definition deref (h : heap) (p : shared_ptr) : result DimensionObject :=
  match p with
  | Some l =>
      match h !! l with
      | Some object => Ok object
      | None => Err (UB NullDereference)
      end
  | None => Err (UB NullDereference)
  end.

(** [index[key]] of an [unordered_map]: the handle stored for [key] and the
    map afterwards, which has gained an empty handle when [key] was absent. *)
Definition index_at (index : DimensionTableIndex) (key : Z)
    : shared_ptr * DimensionTableIndex :=
  match index !! key with
  | Some p => (p, index)
  | None => (None, <[key := None]> index)
  end.

Section build.
Context `{cfg : Config}.

(** [dimensions[i].emplace_back(j, to_string(j))]. *)
Definition emplace_back_dimension_object (i j : Z) : M store unit :=
  s <- get ;;
  table <- lift_result (vec_at (dimensions s) i) ;;
  put (set_dimensions
         (<[Z.to_nat i := emplace_back table {| id_ := j; info_ := to_string j |}]>
            (dimensions s)) s).

(** [dimension_indexes[i][j] = make_shared<DimensionObject>(dimensions[i][j])]:
    the right operand is evaluated first. *)
Definition index_dimension_object (i j : Z) : M store unit :=
  s <- get ;;
  table <- lift_result (vec_at (dimensions s) i) ;;
  object <- lift_result (vec_at table j) ;;
  p <- make_shared object ;;
  s <- get ;;
  index <- lift_result (vec_at (dimension_indexes s) i) ;;
  put (set_dimension_indexes
         (<[Z.to_nat i := <[j := p]> (index_at index j).2]> (dimension_indexes s)) s).

(** The body of the loop over the dimensions. *)
Definition build_dimension (i : Z) : M store unit :=
  modify (λ s, set_dimensions (emplace_back (dimensions s) []) s) ;;
  modify (λ s, set_dimension_indexes (emplace_back (dimension_indexes s) ∅) s) ;;
  for_range 0 rows_per_dimension (λ j,
    emplace_back_dimension_object i j ;;
    index_dimension_object i j ;;
    ret Continue).

(** Phase (1.) of [evaluate_for_n_dimensions]. *)
Definition build_star_schema (n : Z) : M store unit :=
  for_range 0 n (λ i, build_dimension i ;; ret Continue).

End build.

(** ** The store in closed form *)

(** Row [j] of every dimension table. *)
Definition dimension_row (j : Z) : DimensionObject :=
  {| id_ := j; info_ := to_string j |}.

(** The first [j] rows of a dimension table. *)
Definition table_upto (j : Z) : DimensionTable := dimension_row <$> seqZ 0 j.

(** The index of a table over its first [j] rows, when the handle of row
    [0] has address [base]. *)
Definition index_upto (base : nat) (j : Z) : DimensionTableIndex :=
  list_to_map ((λ j', (j', Some (base + Z.to_nat j')%nat)) <$> seqZ 0 j).

(** The store with [i] dimensions built and the first [j] rows of the next:
    the state at the head of the inner loop. *)
Definition store_at (k : Z) (i : nat) (j : Z) : store :=
  {| dimensions := replicate i (table_upto k) ++ [table_upto j];
     dimension_indexes :=
       ((λ i', index_upto (i' * Z.to_nat k) k) <$> seq 0 i)
       ++ [index_upto (i * Z.to_nat k) j];
     shared := mjoin (replicate i (table_upto k)) ++ table_upto j |}.

(** The store with [n] dimensions of [k] rows. *)
Definition built_store (k : Z) (n : nat) : store :=
  {| dimensions := replicate n (table_upto k);
     dimension_indexes := (λ i, index_upto (i * Z.to_nat k) k) <$> seq 0 n;
     shared := mjoin (replicate n (table_upto k)) |}.

(** ** What the program relies on

    The invariant of a store with [n] dimension tables of [k] rows: the
    interface between the build and the phases that read the store. *)
Record store_ok (k : Z) (n : nat) (s : store) : Prop := {
  ok_dimensions : length (dimensions s) = n;
  ok_dimension_indexes : length (dimension_indexes s) = n;
  ok_table_length i table :
    dimensions s !! i = Some table → length table = Z.to_nat k;
  (** row [j] of every table has id [j] and the text of [j] *)
  ok_row i j :
    (i < n)%nat → 0 ≤ j < k →
    ∃ table, dimensions s !! i = Some table ∧
             table !! Z.to_nat j = Some (dimension_row j);
  (** every id of a table is a key of its index, and its handle owns a copy
      of the row *)
  ok_handle i j :
    (i < n)%nat → 0 ≤ j < k →
    ∃ index l, dimension_indexes s !! i = Some index ∧
               index !! j = Some (Some l) ∧
               shared s !! l = Some (dimension_row j);
  (** an index has no other key *)
  ok_keys i index key :
    dimension_indexes s !! i = Some index → is_Some (index !! key) → 0 ≤ key < k;
  (** two handles never share an address *)
  ok_separate i i' index index' j j' l :
    dimension_indexes s !! i = Some index → index !! j = Some (Some l) →
    dimension_indexes s !! i' = Some index' → index' !! j' = Some (Some l) →
    i = i' ∧ j = j';
}.

Existing Class store_ok.

(** * Lemmas *)

Section closed_form.
Context (k : Z).
Implicit Types (i : nat) (j : Z).

Lemma table_upto_succ j :
  0 ≤ j → table_upto (j + 1) = emplace_back (table_upto j) (dimension_row j).
Proof.
  intros. unfold table_upto, emplace_back.
  rewrite seqZ_app, fmap_app by lia. by rewrite Z.add_0_l.
Qed.

Lemma length_table_upto j : length (table_upto j) = Z.to_nat j.
Proof. unfold table_upto. by rewrite length_fmap, length_seqZ. Qed.

Lemma table_upto_lookup j (p : nat) :
  Z.of_nat p < j → table_upto j !! p = Some (dimension_row (Z.of_nat p)).
Proof.
  intros. unfold table_upto. rewrite list_lookup_fmap, lookup_seqZ_lt by done.
  by rewrite Z.add_0_l.
Qed.

Lemma index_upto_lookup base j key :
  index_upto base j !! key =
    if bool_decide (0 ≤ key < j) then Some (Some (base + Z.to_nat key)%nat) else None.
Proof.
  unfold index_upto. case_bool_decide as Hk.
  - apply elem_of_list_to_map.
    + rewrite <- list_fmap_compose. simpl. rewrite list_fmap_id. apply NoDup_seqZ.
    + apply list_elem_of_fmap. exists key. split; [done|]. apply elem_of_seqZ. lia.
  - apply not_elem_of_list_to_map. rewrite <- list_fmap_compose. simpl.
    rewrite list_fmap_id, elem_of_seqZ. lia.
Qed.

Lemma index_upto_succ base j :
  0 ≤ j →
  index_upto base (j + 1) = <[j := Some (base + Z.to_nat j)%nat]> (index_upto base j).
Proof.
  intros. apply map_eq. intros key. rewrite lookup_insert, !index_upto_lookup.
  repeat case_decide; repeat case_bool_decide; try done; try lia. by subst.
Qed.

(** Storing the handle of a new row through [operator[]]. *)
Lemma index_at_index_upto base j :
  <[j := Some (base + Z.to_nat j)%nat]> (index_at (index_upto base j) j).2 =
  <[j := Some (base + Z.to_nat j)%nat]> (index_upto base j).
Proof.
  unfold index_at. rewrite index_upto_lookup, bool_decide_eq_false_2 by lia. simpl.
  by rewrite insert_insert_eq.
Qed.

Lemma store_at_0 i :
  store_at k i 0 =
    {| dimensions := emplace_back (dimensions (built_store k i)) [];
       dimension_indexes := emplace_back (dimension_indexes (built_store k i)) ∅;
       shared := shared (built_store k i) |}.
Proof. unfold store_at, built_store. simpl. by rewrite app_nil_r. Qed.

Lemma store_at_full i : 0 ≤ k → store_at k i k = built_store k (S i).
Proof.
  intros. unfold store_at, built_store.
  rewrite replicate_S_end, seq_S, fmap_app, join_app. simpl. by rewrite app_nil_r.
Qed.

Lemma dimensions_store_at_lookup i j :
  dimensions (store_at k i j) !! i = Some (table_upto j).
Proof. apply lookup_last, length_replicate. Qed.

Lemma dimension_indexes_store_at_lookup i j :
  dimension_indexes (store_at k i j) !! i = Some (index_upto (i * Z.to_nat k) j).
Proof. apply lookup_last. by rewrite length_fmap, length_seq. Qed.

Lemma built_store_indexes_lookup n i index :
  dimension_indexes (built_store k n) !! i = Some index ↔
  (i < n)%nat ∧ index = index_upto (i * Z.to_nat k) k.
Proof.
  simpl. rewrite list_lookup_fmap_Some. setoid_rewrite lookup_seq.
  split; [by intros (? & -> & -> & ?) | intros [? ->]; eauto].
Qed.

Lemma built_store_ok n : store_ok k n (built_store k n).
Proof.
  split.
  - apply length_replicate.
  - simpl. by rewrite length_fmap, length_seq.
  - intros i table [-> _]%lookup_replicate. apply length_table_upto.
  - intros i j Hi Hj. exists (table_upto k). split; [by apply lookup_replicate_2|].
    rewrite table_upto_lookup; rewrite ?Z2Nat.id; (done || lia).
  - intros i j Hi Hj.
    exists (index_upto (i * Z.to_nat k) k), (i * Z.to_nat k + Z.to_nat j)%nat.
    split_and!.
    + by apply built_store_indexes_lookup.
    + by rewrite index_upto_lookup, bool_decide_eq_true_2.
    + simpl. rewrite <- (length_table_upto k), join_replicate_lookup, table_upto_lookup;
        rewrite ?length_table_upto, ?Z2Nat.id; (done || lia).
  - intros i index key [_ ->]%built_store_indexes_lookup.
    rewrite index_upto_lookup. case_bool_decide; [done | by intros []].
  - intros i i' index index' j j' l [Hi ->]%built_store_indexes_lookup Hl
      [Hi' ->]%built_store_indexes_lookup Hl'.
    rewrite index_upto_lookup in Hl, Hl'. repeat case_bool_decide; simplify_eq.
    assert (i = i') by nia. split; [done|]. subst. lia.
Qed.

End closed_form.

(** ** Consequences of the invariant *)

Section store_ok.
Context {k : Z} {n : nat} {s : store} (Hok : store_ok k n s).

(** Every row of a table is the row of its position. *)
Lemma store_ok_row_inv (i : nat) table (p : nat) object :
  dimensions s !! i = Some table → table !! p = Some object →
  object = dimension_row (Z.of_nat p) ∧ (i < n)%nat ∧ Z.of_nat p < k.
Proof.
  intros Ht Ho. pose proof (lookup_lt_Some _ _ _ Ht) as Hi.
  pose proof (lookup_lt_Some _ _ _ Ho) as Hp.
  rewrite (ok_dimensions _ _ _ Hok) in Hi.
  rewrite (ok_table_length _ _ _ Hok i table Ht) in Hp.
  destruct (ok_row _ _ _ Hok i (Z.of_nat p)) as (table' & Ht' & Ho'); [done | lia |].
  rewrite Nat2Z.id in Ho'. split_and!; [congruence | done | lia].
Qed.

(** Index completeness: the id of every row of a table is a key of the
    index of the table, and its handle owns a copy of the row. *)
Lemma store_ok_index_complete (i : nat) table object :
  dimensions s !! i = Some table → object ∈ table →
  ∃ index l, dimension_indexes s !! i = Some index ∧
             index !! id_ object = Some (Some l) ∧
             shared s !! l = Some object.
Proof.
  intros Ht [p Ho]%list_elem_of_lookup.
  destruct (store_ok_row_inv i table p object) as (-> & Hi & Hp); [done | done |].
  apply (ok_handle _ _ _ Hok); [done | simpl; lia].
Qed.

End store_ok.

(** ** The statements of the build, on any store *)

Section statements.
Context `{cfg : Config}.
Implicit Types (s : store) (i : nat) (j : Z).

Lemma emplace_back_dimension_object_spec s i j table :
  dimensions s !! i = Some table →
  emplace_back_dimension_object (Z.of_nat i) j s =
    Ok (tt, set_dimensions
              (<[i := emplace_back table (dimension_row j)]> (dimensions s)) s).
Proof.
  intros Ht. cbv [emplace_back_dimension_object bind get put lift_result].
  by rewrite (vec_at_lookup _ _ _ Ht), Nat2Z.id.
Qed.

Lemma index_dimension_object_spec s i j table object index :
  dimensions s !! i = Some table → vec_at table j = Ok object →
  dimension_indexes s !! i = Some index →
  index_dimension_object (Z.of_nat i) j s =
    Ok (tt, {| dimensions := dimensions s;
               dimension_indexes :=
                 <[i := <[j := Some (length (shared s))]> (index_at index j).2]>
                   (dimension_indexes s);
               shared := emplace_back (shared s) object |}).
Proof.
  intros Ht Ho Hi.
  cbv [index_dimension_object make_shared bind get put ret lift_result].
  rewrite (vec_at_lookup _ _ _ Ht), Ho. cbn [dimension_indexes].
  by rewrite (vec_at_lookup _ _ _ Hi), Nat2Z.id.
Qed.

(** Out of range, the first statement of the loop body is undefined. *)
Lemma emplace_back_dimension_object_out_of_range s (i : Z) j :
  ¬ (0 ≤ i < Z.of_nat (length (dimensions s))) →
  emplace_back_dimension_object i j s = Err (UB OutOfRange).
Proof.
  intros Hi. cbv [emplace_back_dimension_object bind get put lift_result].
  by rewrite vec_at_Err.
Qed.

End statements.

(** ** The loops *)

Section build_lemmas.
Context `{cfg : Config}.
Implicit Types (i : nat) (j : Z).
#[local] Abbreviation K := rows_per_dimension.

Lemma build_row_step i j :
  0 ≤ j →
  (emplace_back_dimension_object (Z.of_nat i) j ;;
   index_dimension_object (Z.of_nat i) j ;;
   ret Continue) (store_at K i j) = Ok (Continue, store_at K i (j + 1)).
Proof.
  intros Hj.
  erewrite bind_Ok;
    [|by apply emplace_back_dimension_object_spec, dimensions_store_at_lookup].
  cbn [dimensions set_dimensions store_at dimension_indexes shared].
  rewrite insert_last, <- table_upto_succ by (by rewrite ?length_replicate).
  erewrite bind_Ok.
  2:{ eapply index_dimension_object_spec; cbn [dimensions dimension_indexes].
      - apply lookup_last, length_replicate.
      - apply vec_at_Ok. split; [done|].
        rewrite table_upto_lookup; rewrite ?Z2Nat.id; (done || lia).
      - apply lookup_last. by rewrite length_fmap, length_seq. }
  cbn [dimensions dimension_indexes shared set_dimensions store_at].
  rewrite insert_last by (by rewrite length_fmap, length_seq).
  rewrite length_app, length_join_replicate, !length_table_upto, index_at_index_upto.
  rewrite <- index_upto_succ by done.
  unfold ret, store_at. rewrite (table_upto_succ j) by done.
  unfold emplace_back. by rewrite app_assoc.
Qed.

(** The inner loop, from row [j]. *)
Lemma build_rows i j :
  0 ≤ j ≤ K →
  for_range j K (λ j,
    emplace_back_dimension_object (Z.of_nat i) j ;;
    index_dimension_object (Z.of_nat i) j ;;
    ret Continue) (store_at K i j) = Ok (tt, store_at K i K).
Proof.
  intros [Hj HK]. revert HK.
  apply (for_range_ind (λ j, j ≤ K → for_range j K _ (store_at K i j) = _) j K);
    [| |done].
  - intros j' Hj' HK. replace j' with K by lia. by apply for_range_ge.
  - intros j' Hj' IH _. erewrite for_range_Continue; [|lia|apply build_row_step; lia].
    apply IH. lia.
Qed.

Lemma build_dimension_spec i :
  build_dimension (Z.of_nat i) (built_store K i) = Ok (tt, built_store K (S i)).
Proof.
  pose proof rows_per_dimension_range as [HK _].
  unfold build_dimension. do 2 run_step.
  rewrite <- store_at_full, <- (build_rows i 0) by lia. f_equal.
  by rewrite store_at_0.
Qed.

(** The outer loop, from dimension [i]. *)
Lemma build_dimensions (i n : nat) :
  (i ≤ n)%nat →
  for_range (Z.of_nat i) (Z.of_nat n) (λ i' : Z, build_dimension i' ;; ret Continue)
    (built_store K i) = Ok (tt, built_store K n).
Proof.
  intros Hle. replace i with (n - (n - i))%nat at 1 2 by lia.
  induction (n - i)%nat as [|d IH]; [rewrite Nat.sub_0_r; apply for_range_ge; lia|].
  destruct (decide (S d ≤ n)%nat) as [Hd|Hd].
  - erewrite for_range_Continue; [|lia|].
    2:{ erewrite bind_Ok; [|apply build_dimension_spec]. done. }
    replace (S (n - S d)) with (n - d)%nat by lia.
    by replace (Z.of_nat (n - S d) + 1) with (Z.of_nat (n - d)) by lia.
  - by replace (n - S d)%nat with (n - d)%nat by lia.
Qed.

Lemma build_star_schema_nat (n : nat) :
  build_star_schema (Z.of_nat n) empty_store = Ok (tt, built_store K n).
Proof. apply (build_dimensions 0 n). lia. Qed.

End build_lemmas.

(** * Theorems *)

(** Claim C15 (build, closed form).  Started on the empty vectors, the build
    loops of [evaluate_for_n_dimensions] return, without undefined
    behaviour, [n] tables holding the rows [0 .. rows_per_dimension - 1] with
    the text of their position, [n] indexes mapping each id to a handle, and
    one allocation per row, in the order the rows were made. *)
Theorem build_star_schema_built `{cfg : Config} (n : Z) :
  0 ≤ n →
  build_star_schema n empty_store =
    Ok (tt, built_store rows_per_dimension (Z.to_nat n)).
Proof.
  intros Hn. rewrite <- (Z2Nat.id n) at 1 by done. apply build_star_schema_nat.
Qed.

Lemma build_star_schema_built_witness :
  build_star_schema (cfg := example_config) 2 empty_store =
    Ok (tt, built_store 3 2).
Proof. by apply (build_star_schema_built (cfg := example_config) 2). Defined.

(** Claim C4 (invariant of the store).  The store that the build returns
    satisfies [store_ok]: [n] tables and [n] indexes, row [j] of a table has
    id [j], every id below the row count is a key of the index and its
    handle owns a copy of the row, an index has no other key, and no two
    handles share an address. *)
Theorem build_star_schema_ok `{cfg : Config} (n : Z) :
  0 ≤ n →
  ∃ s, build_star_schema n empty_store = Ok (tt, s) ∧
       store_ok rows_per_dimension (Z.to_nat n) s.
Proof.
  intros Hn. exists (built_store rows_per_dimension (Z.to_nat n)).
  split; [|apply built_store_ok].
  rewrite <- (Z2Nat.id n) at 1 by done. apply build_star_schema_nat.
Qed.

Lemma build_star_schema_ok_witness :
  ∃ s, build_star_schema (cfg := example_config) 2 empty_store = Ok (tt, s) ∧
       store_ok 3 2 s.
Proof. by apply (build_star_schema_ok (cfg := example_config) 2). Defined.

(** Claim C8 (index completeness).  In the store that the build returns,
    the id of every row of every dimension table is a key of the index
    paired with the table, and the handle stored for it owns an object equal
    to the row: same id, same text. *)
Theorem build_star_schema_index_complete `{cfg : Config} (n : Z) :
  0 ≤ n →
  ∃ s, build_star_schema n empty_store = Ok (tt, s) ∧
       ∀ (i : nat) table object,
         dimensions s !! i = Some table → object ∈ table →
         ∃ index l, dimension_indexes s !! i = Some index ∧
                    index !! id_ object = Some (Some l) ∧
                    shared s !! l = Some object.
Proof.
  intros Hn. exists (built_store rows_per_dimension (Z.to_nat n)). split.
  - rewrite <- (Z2Nat.id n) at 1 by done. apply build_star_schema_nat.
  - apply (store_ok_index_complete (built_store_ok _ _)).
Qed.

Lemma build_star_schema_index_complete_witness :
  ∃ s, build_star_schema (cfg := example_config) 2 empty_store = Ok (tt, s) ∧
       ∀ (i : nat) table object,
         dimensions s !! i = Some table → object ∈ table →
         ∃ index l, dimension_indexes s !! i = Some index ∧
                    index !! id_ object = Some (Some l) ∧
                    shared s !! l = Some object.
Proof. by apply (build_star_schema_index_complete (cfg := example_config) 2). Defined.

(** The row with id [7] of dimension [0], through its handle, in the
    reference configuration. *)
Example reference_store_row_7 :
  ∃ index l,
    dimension_indexes (built_store (rows_per_dimension (cfg := reference_config)) 4)
      !! 0%nat = Some index ∧
    index !! 7 = Some (Some l) ∧
    deref (shared (built_store (rows_per_dimension (cfg := reference_config)) 4))
          (Some l) = Ok {| id_ := 7; info_ := "7" |}.
Proof.
  destruct (ok_handle _ _ _ (built_store_ok 100 4) 0 7) as (index & l & Hi & Hl & Ho);
    [lia | lia |].
  exists index, l. split_and!; [done | done |]. unfold deref.
  change (rows_per_dimension (cfg := reference_config)) with 100. by rewrite Ho.
Qed.
