(* ===== verification/Encoders.v ===== *)
(** * The two tuple encodings

    The callbacks that [evaluate_for_n_dimensions] passes to
    [get_fact_table] (lines 129-157 of [src/benchmark.cpp]):
    [add_foreign_key_to_tuple] appends the id of a row of a dimension table,
    [add_pointer_to_tuple] the handle that the index of the table stores for
    the row.  Both capture the store by reference; the second reads the
    index with [operator[]], which would insert an empty handle for a key
    that is absent.

    On a store that satisfies [store_ok] both callbacks implement the
    interface [PureEncoder] of the enumerator, with the encodings
    [foreign_key] and [handle_of]: neither is called out of range, the
    lookup never misses, and the store is left as it was.  The two fact
    tables are therefore the encodings of the same prefix of the
    lexicographic product, and a handle of the pointer table is the handle
    that the index of its column holds for the key at the same place. *)

From stdpp Require Import sorting.
From S2P Require Import Prelude Config LexProduct Enumerator DimensionStore.

(** (2a.) [current_foreign_key_tuple.emplace_back(
    dimensions[dimension_table_index][tuple_index].id_)]. *)
Definition add_foreign_key_to_tuple : callback Z store :=
  λ dimension_table_index tuple_index,
    c <- get ;;
    table <- lift_result (vec_at (dimensions (captured c)) dimension_table_index) ;;
    object <- lift_result (vec_at table tuple_index) ;;
    put (set_current_tuple (emplace_back (current_tuple c) (id_ object)) c).

(** (2b.) [current_pointer_tuple.emplace_back(
    dimension_indexes[dimension_table_index][tuple_index])]. *)
Definition add_pointer_to_tuple : callback shared_ptr store :=
  λ dimension_table_index tuple_index,
    c <- get ;;
    index <- lift_result
               (vec_at (dimension_indexes (captured c)) dimension_table_index) ;;
    put {| current_tuple :=
             emplace_back (current_tuple c) (index_at index tuple_index).1;
           captured :=
             set_dimension_indexes
               (<[Z.to_nat dimension_table_index := (index_at index tuple_index).2]>
                  (dimension_indexes (captured c)))
               (captured c) |}.

(** The foreign key of row [j] of dimension [d]: its id, which is its
    position. *)
Definition foreign_key (d j : Z) : Z := j.

(** The handle that the index of dimension [d] stores for the key [j]
    (empty when there is none). *)
Definition handle_of (s : store) (d j : Z) : shared_ptr :=
  match dimension_indexes s !! Z.to_nat d with
  | Some index => (index_at index j).1
  | None => None
  end.

(** * Lemmas *)

Section encoders.
Context `{cfg : Config} {n : nat} {s : store}.
Context `{!store_ok rows_per_dimension n s}.

(** A key of an index is read without changing the index. *)
Lemma index_at_present (index : DimensionTableIndex) key p :
  index !! key = Some p → index_at index key = (p, index).
Proof. unfold index_at. by intros ->. Qed.

Lemma set_dimension_indexes_id (i : nat) index :
  dimension_indexes s !! i = Some index →
  set_dimension_indexes (<[i := index]> (dimension_indexes s)) s = s.
Proof. intros H. rewrite list_insert_id by done. by destruct s. Qed.

#[export] Instance add_foreign_key_to_tuple_pure :
  PureEncoder (Z.of_nat n) add_foreign_key_to_tuple s foreign_key.
Proof.
  intros d j v Hd Hj.
  destruct (ok_row _ _ _ _ (Z.to_nat d) j) as (table & Ht & Ho); [lia | done |].
  cbv [add_foreign_key_to_tuple bind get put lift_result]. cbn [captured].
  rewrite (proj2 (vec_at_Ok _ _ _) (conj (proj1 Hd) Ht)).
  by rewrite (proj2 (vec_at_Ok _ _ _) (conj (proj1 Hj) Ho)).
Qed.

#[export] Instance add_pointer_to_tuple_pure :
  PureEncoder (Z.of_nat n) add_pointer_to_tuple s (handle_of s).
Proof.
  intros d j v Hd Hj.
  destruct (ok_handle _ _ _ _ (Z.to_nat d) j) as (index & l & Hi & Hl & _);
    [lia | done |].
  cbv [add_pointer_to_tuple bind get put lift_result]. cbn [captured].
  rewrite (proj2 (vec_at_Ok _ _ _) (conj (proj1 Hd) Hi)).
  unfold handle_of. rewrite Hi, (index_at_present _ _ _ Hl). cbn [fst snd current_tuple].
  by rewrite set_dimension_indexes_id.
Qed.

(** The handle of a row owns a copy of the row. *)
Lemma deref_handle_of (d j : Z) :
  0 ≤ d < Z.of_nat n → 0 ≤ j < rows_per_dimension →
  deref (shared s) (handle_of s d j) = Ok (dimension_row j).
Proof.
  intros Hd Hj.
  destruct (ok_handle _ _ _ _ (Z.to_nat d) j) as (index & l & Hi & Hl & Ho);
    [lia | done |].
  unfold handle_of. rewrite Hi, (index_at_present _ _ _ Hl). simpl. by rewrite Ho.
Qed.

End encoders.

(** ** The two fact tables *)

Section fact_tables.
Context `{cfg : Config} `{!ConfigOk cfg} (n : Z) (s : store) (fuel : nat).
Context (Hn : 1 ≤ n < size_t_modulus) (Hfuel : (Z.to_nat n ≤ fuel)%nat).
Context `{!store_ok rows_per_dimension (Z.to_nat n) s}.

Lemma get_fact_table_encoder {E} (cb : callback E store) (encode : Z → Z → E) :
  PureEncoder (Z.of_nat (Z.to_nat n)) cb s encode →
  get_fact_table fuel n cb {| current_tuple := []; captured := s |} =
    Ok (enumerate_spec encode n [], {| current_tuple := []; captured := s |}).
Proof.
  rewrite Z2Nat.id by lia. intros Hpure. unfold get_fact_table.
  by rewrite (rec_pointer_top n _ s encode).
Qed.

Lemma get_fact_table_foreign :
  get_fact_table fuel n add_foreign_key_to_tuple
    {| current_tuple := []; captured := s |} =
  Ok (enumerate_spec foreign_key n [], {| current_tuple := []; captured := s |}).
Proof. apply get_fact_table_encoder, _. Qed.

Lemma get_fact_table_pointer :
  get_fact_table fuel n add_pointer_to_tuple
    {| current_tuple := []; captured := s |} =
  Ok (enumerate_spec (handle_of s) n [], {| current_tuple := []; captured := s |}).
Proof. apply get_fact_table_encoder, _. Qed.

(** The foreign-key fact table is the prefix of the product itself. *)
Lemma enumerate_spec_foreign_key :
  enumerate_spec foreign_key n [] =
    @Build_FactTableObject Z
      <$> take (Z.to_nat number_of_tuples_in_fact_table)
               (lex_product rows_per_dimension (Z.to_nat n)).
Proof.
  unfold enumerate_spec, emitted. apply list_fmap_ext. intros _ t _.
  simpl. f_equal. apply encode_from_id.
Qed.

(** Column by column, the handle of the pointer fact table owns a copy of
    the row that the key of the foreign-key fact table names. *)
Lemma enumerate_spec_handles :
  Forall2 (λ rel rel',
             Forall2 (λ key p, deref (shared s) p = Ok (dimension_row key))
                     (relations_ rel) (relations_ rel'))
          (enumerate_spec foreign_key n []) (enumerate_spec (handle_of s) n []).
Proof.
  clear Hfuel. apply enumerate_spec_Forall2. intros d j Hd Hj.
  apply (deref_handle_of (n := Z.to_nat n)); [lia | done].
Qed.

End fact_tables.

(** ** The handles of the store that the build returns *)

Section built.
Context `{cfg : Config}.

(** On the store that the build returns, the handle of row [j] of
    dimension [d] owns allocation number [d * k + j]. *)
Lemma handle_of_built_store (n : nat) (d j : Z) :
  0 ≤ d < Z.of_nat n → 0 ≤ j < rows_per_dimension →
  ∃ index,
    dimension_indexes (built_store rows_per_dimension n) !! Z.to_nat d = Some index ∧
    index !! j = Some (handle_of (built_store rows_per_dimension n) d j) ∧
    handle_of (built_store rows_per_dimension n) d j =
      Some (Z.to_nat d * Z.to_nat rows_per_dimension + Z.to_nat j)%nat.
Proof.
  intros Hd Hj.
  assert (dimension_indexes (built_store rows_per_dimension n) !! Z.to_nat d =
          Some (index_upto (Z.to_nat d * Z.to_nat rows_per_dimension) rows_per_dimension))
    as Hindex by (apply built_store_indexes_lookup; split; [lia | done]).
  eexists. split; [done|]. unfold handle_of, index_at.
  by rewrite Hindex, index_upto_lookup, bool_decide_eq_true_2.
Qed.

End built.

(** * Theorems *)

(** Claim C13 (foreign-key fact table).  On a store that satisfies
    [store_ok], [get_fact_table] with [add_foreign_key_to_tuple] returns the
    first [number_of_tuples_in_fact_table] tuples of the lexicographic
    product of the row indices themselves, and leaves the store as it was. *)
Theorem foreign_key_fact_table `{cfg : Config} `{!ConfigOk cfg}
    (n : Z) (s : store) (fuel : nat) :
  1 ≤ n < size_t_modulus → (Z.to_nat n ≤ fuel)%nat →
  store_ok rows_per_dimension (Z.to_nat n) s →
  get_fact_table fuel n add_foreign_key_to_tuple
    {| current_tuple := []; captured := s |} =
  Ok (@Build_FactTableObject Z
        <$> take (Z.to_nat number_of_tuples_in_fact_table)
                 (lex_product rows_per_dimension (Z.to_nat n)),
      {| current_tuple := []; captured := s |}).
Proof.
  intros Hn Hfuel Hs. rewrite <- enumerate_spec_foreign_key.
  by apply get_fact_table_foreign.
Qed.

Lemma foreign_key_fact_table_witness :
  get_fact_table (cfg := example_config) 2 2 add_foreign_key_to_tuple
    {| current_tuple := []; captured := built_store 3 2 |} =
  Ok (@Build_FactTableObject Z <$> [[0; 0]; [0; 1]; [0; 2]; [1; 0]; [1; 1]],
      {| current_tuple := []; captured := built_store 3 2 |}).
Proof.
  apply (foreign_key_fact_table (cfg := example_config) 2 (built_store 3 2) 2);
    [unfold size_t_modulus; lia | lia | apply built_store_ok].
Defined.

(** Claim C14 (order of the fact table).  The tuples of the foreign-key fact
    table are strictly increasing in the lexicographic order, column [0]
    being the most significant: no tuple occurs twice and none comes before
    a smaller one. *)
Theorem foreign_key_fact_table_sorted `{cfg : Config} `{!ConfigOk cfg}
    (n : Z) (s : store) (fuel : nat) :
  1 ≤ n < size_t_modulus → (Z.to_nat n ≤ fuel)%nat →
  store_ok rows_per_dimension (Z.to_nat n) s →
  ∃ fact_table_RM,
    get_fact_table fuel n add_foreign_key_to_tuple
      {| current_tuple := []; captured := s |} =
      Ok (fact_table_RM, {| current_tuple := []; captured := s |}) ∧
    StronglySorted (λ rel rel', lex_lt (relations_ rel) (relations_ rel'))
                   fact_table_RM.
Proof.
  intros Hn Hfuel Hs. eexists. split; [by apply get_fact_table_foreign|].
  rewrite enumerate_spec_foreign_key by done.
  eapply StronglySorted_fmap, lex_product_take_sorted. by intros t t'.
Qed.

Lemma foreign_key_fact_table_sorted_witness :
  ∃ fact_table_RM,
    get_fact_table (cfg := example_config) 2 2 add_foreign_key_to_tuple
      {| current_tuple := []; captured := built_store 3 2 |} =
      Ok (fact_table_RM, {| current_tuple := []; captured := built_store 3 2 |}) ∧
    StronglySorted (λ rel rel', lex_lt (relations_ rel) (relations_ rel'))
                   fact_table_RM.
Proof.
  apply (foreign_key_fact_table_sorted (cfg := example_config) 2 (built_store 3 2) 2);
    [unfold size_t_modulus; lia | lia | apply built_store_ok].
Defined.

(** Claim C11 (encoding equivalence).  On a store that satisfies [store_ok]
    both encodings give a fact table, of the same length and with rows of
    the same length, the store is left as it was, and in every row and
    every column the handle of the pointer table owns an object equal to
    the row of the dimension table that the key of the foreign-key table
    names. *)
Theorem fact_tables_equivalent `{cfg : Config} `{!ConfigOk cfg}
    (n : Z) (s : store) (fuel : nat) :
  1 ≤ n < size_t_modulus → (Z.to_nat n ≤ fuel)%nat →
  store_ok rows_per_dimension (Z.to_nat n) s →
  ∃ fact_table_RM fact_table_RTM,
    get_fact_table fuel n add_foreign_key_to_tuple
      {| current_tuple := []; captured := s |} =
      Ok (fact_table_RM, {| current_tuple := []; captured := s |}) ∧
    get_fact_table fuel n add_pointer_to_tuple
      {| current_tuple := []; captured := s |} =
      Ok (fact_table_RTM, {| current_tuple := []; captured := s |}) ∧
    Forall2 (λ rel rel',
               Forall2 (λ key p, deref (shared s) p = Ok (dimension_row key))
                       (relations_ rel) (relations_ rel'))
            fact_table_RM fact_table_RTM.
Proof.
  intros Hn Hfuel Hs. do 2 eexists. split_and!.
  - by apply get_fact_table_foreign.
  - by apply get_fact_table_pointer.
  - by apply enumerate_spec_handles.
Qed.

Lemma fact_tables_equivalent_witness :
  ∃ fact_table_RM fact_table_RTM,
    get_fact_table (cfg := example_config) 2 2 add_foreign_key_to_tuple
      {| current_tuple := []; captured := built_store 3 2 |} =
      Ok (fact_table_RM, {| current_tuple := []; captured := built_store 3 2 |}) ∧
    get_fact_table (cfg := example_config) 2 2 add_pointer_to_tuple
      {| current_tuple := []; captured := built_store 3 2 |} =
      Ok (fact_table_RTM, {| current_tuple := []; captured := built_store 3 2 |}) ∧
    Forall2 (λ rel rel',
               Forall2 (λ key p,
                          deref (shared (built_store 3 2)) p = Ok (dimension_row key))
                       (relations_ rel) (relations_ rel'))
            fact_table_RM fact_table_RTM.
Proof.
  apply (fact_tables_equivalent (cfg := example_config) 2 (built_store 3 2) 2);
    [unfold size_t_modulus; lia | lia | apply built_store_ok].
Defined.

(** Claim C27 (the handles of the pointer table).  In the pointer fact table
    over the store that the build returns, column [j] of tuple [i] is the
    very handle that the index of dimension [j] holds for digit [j] of [i]
    in base [rows_per_dimension], and it owns allocation number
    [j * rows_per_dimension + digit]: the table shares the objects of the
    indexes, nothing is allocated for it, and the handles of two
    dimensions are never the same. *)
Theorem pointer_fact_table_handles `{cfg : Config} `{!ConfigOk cfg}
    (n : Z) (fuel i j : nat) :
  1 ≤ n < size_t_modulus → (Z.to_nat n ≤ fuel)%nat →
  Z.of_nat i < number_of_tuples_in_fact_table →
  Z.of_nat i < rows_per_dimension ^ n → Z.of_nat j < n →
  let key := (Z.of_nat i / rows_per_dimension ^ (n - 1 - Z.of_nat j))
             `mod` rows_per_dimension in
  ∃ s fact_table_RTM row index,
    build_star_schema n empty_store = Ok (tt, s) ∧
    get_fact_table fuel n add_pointer_to_tuple
      {| current_tuple := []; captured := s |} =
      Ok (fact_table_RTM, {| current_tuple := []; captured := s |}) ∧
    fact_table_RTM !! i = Some row ∧
    dimension_indexes s !! j = Some index ∧
    relations_ row !! j = index !! key ∧
    relations_ row !! j =
      Some (Some (j * Z.to_nat rows_per_dimension + Z.to_nat key)%nat).
Proof.
  intros Hn Hfuel HL HK Hj key. pose proof rows_per_dimension_range as [HK0 _].
  assert (0 < rows_per_dimension).
  { destruct (decide (rows_per_dimension = 0)) as [Heq|]; [|lia].
    rewrite Heq, Z.pow_0_l in HK; lia. }
  assert (0 ≤ key < rows_per_dimension) as Hkey by (by apply Z.mod_pos_bound).
  pose proof (built_store_ok rows_per_dimension (Z.to_nat n)) as Hs.
  destruct (handle_of_built_store (Z.to_nat n) (Z.of_nat j) key)
    as (index & Hindex & Hhandle & Haddress); [lia | done |].
  rewrite Nat2Z.id in Hindex, Haddress.
  assert (encode_from (handle_of (built_store rows_per_dimension (Z.to_nat n))) 0
            (digits rows_per_dimension (Z.to_nat n) (Z.of_nat i)) !! j =
          Some (handle_of (built_store rows_per_dimension (Z.to_nat n)) (Z.of_nat j) key))
    as Hcol.
  { rewrite encode_from_lookup, digits_lookup by (rewrite ?Z2Nat.id; lia).
    cbn [fmap option_fmap option_map]. rewrite Z.add_0_l. unfold key.
    by replace (Z.of_nat (Z.to_nat n - 1 - j)) with (n - 1 - Z.of_nat j) by lia. }
  do 4 eexists. split_and!.
  - rewrite <- (Z2Nat.id n) at 1 by lia. apply build_star_schema_nat.
  - by apply get_fact_table_pointer.
  - apply enumerate_spec_lookup; lia.
  - done.
  - rewrite Hhandle. exact Hcol.
  - rewrite <- Haddress. exact Hcol.
Qed.

Lemma pointer_fact_table_handles_witness :
  ∃ s fact_table_RTM row index,
    build_star_schema (cfg := example_config) 2 empty_store = Ok (tt, s) ∧
    get_fact_table (cfg := example_config) 2 2 add_pointer_to_tuple
      {| current_tuple := []; captured := s |} =
      Ok (fact_table_RTM, {| current_tuple := []; captured := s |}) ∧
    fact_table_RTM !! 4%nat = Some row ∧
    dimension_indexes s !! 1%nat = Some index ∧
    relations_ row !! 1%nat = index !! 1 ∧
    relations_ row !! 1%nat = Some (Some 4%nat).
Proof.
  apply (pointer_fact_table_handles (cfg := example_config) 2 2 4 1);
    [unfold size_t_modulus; lia | lia | done | done | done].
Defined.

(** Claim C34 (an index that misses).  [add_pointer_to_tuple] reads the
    index with [operator[]]: for a key that the index of the dimension does
    not hold it appends an empty handle and inserts the key into the
    index, so the store changes. *)
Theorem add_pointer_to_tuple_miss (s : store) (d j : Z) index v :
  0 ≤ d → dimension_indexes s !! Z.to_nat d = Some index → index !! j = None →
  add_pointer_to_tuple d j {| current_tuple := v; captured := s |} =
    Ok (tt, {| current_tuple := emplace_back v None;
               captured :=
                 set_dimension_indexes
                   (<[Z.to_nat d := <[j := None]> index]> (dimension_indexes s)) s |}).
Proof.
  intros Hd Hi Hj. cbv [add_pointer_to_tuple bind get put lift_result]. cbn [captured].
  rewrite (proj2 (vec_at_Ok _ _ _) (conj Hd Hi)).
  unfold index_at. by rewrite Hj.
Qed.

Lemma add_pointer_to_tuple_miss_witness :
  add_pointer_to_tuple 0 3 {| current_tuple := []; captured := built_store 3 1 |} =
    Ok (tt, {| current_tuple := [None];
               captured :=
                 set_dimension_indexes [<[3 := None]> (index_upto 0 3)]
                                       (built_store 3 1) |}).
Proof. by apply (add_pointer_to_tuple_miss (built_store 3 1) 0 3 (index_upto 0 3) []). Defined.

(** Claim C39 (the last tuple of the source's first experiment).  With the
    parameters of the source and four dimension tables, the foreign-key
    fact table has fifty million tuples and the last of them, tuple
    [49999999], is [(49, 99, 99, 99)]: its number written with four digits
    in base one hundred. *)
Example reference_last_tuple :
  ∃ fact_table_RM,
    get_fact_table (cfg := reference_config) 4 4 add_foreign_key_to_tuple
      {| current_tuple := []; captured := built_store 100 4 |} =
      Ok (fact_table_RM, {| current_tuple := []; captured := built_store 100 4 |}) ∧
    Z.of_nat (length fact_table_RM) = 50000000 ∧
    fact_table_RM !! Z.to_nat 49999999 = Some {| relations_ := [49; 99; 99; 99] |}.
Proof.
  eexists. split; [|split].
  - apply (get_fact_table_foreign (cfg := reference_config) 4 (built_store 100 4) 4).
    + unfold size_t_modulus. lia.
    + lia.
    + apply built_store_ok.
  - rewrite length_enumerate_spec by lia. reflexivity.
  - rewrite enumerate_spec_lookup.
    + rewrite Z2Nat.id by lia. reflexivity.
    + lia.
    + rewrite Z2Nat.id by lia. reflexivity.
    + rewrite Z2Nat.id by lia. reflexivity.
Qed.
