(* ===== verification/JoinBenchmark.v ===== *)
(** * The join-access benchmark

    [evaluate_for_n_dimensions] (lines 95-195 of [src/benchmark.cpp]): the
    build of the star schema, then [number_of_repetitions] repetitions, each
    of which makes the two fact tables, scans the foreign-key table
    resolving every column through the index of its dimension, scans the
    pointer table dereferencing every column, and writes one row per phase
    and encoding.

    - [world] is what the function shares with its caller: the two output
      streams, the console and the clock.  A stream is the list of the
      lines written to it; a line keeps its fields ([csv_line],
      [console_line]) and a duration stays an integer count of nanoseconds.
      The clock is a function from the number of readings so far to the
      time read; [ticks] counts the readings.
    - [bench] adds the locals of the function: the store.
    - [resolve_foreign_key] and [resolve_pointer] are the initialisers of
      lines 169 and 186; [scan_foreign] and [scan_pointer] the loops around
      them, which discard the object.  The first reads the index with
      [operator[]], so a key that is absent is inserted with an empty
      handle, which is then dereferenced.

    The theorems show that on the store the build returns no resolution
    fails or changes the store, that both resolutions of a row and column
    give the same object, what a repetition and a whole experiment write,
    that the store is built once and then only read, and that the
    durations written are those of intervals that do not overlap when the
    clock never goes back ([timing_ok]). *)

From S2P Require Import Prelude Config LexProduct Enumerator DimensionStore Encoders.

(** The column [type] of the result files. *)
Inductive encoding : Set := foreign | pointer.

(** A line of [results.csv] or [results_build.csv]: the header, or
    experiment, encoding and duration (in nanoseconds). *)
Inductive csv_line : Set :=
| Header
| Row (exp : Z) (type : encoding) (time : Z).

(** A line of the console. *)
Inductive console_line : Set :=
| RunningExperiment (n : Z)
| Sizes (fact_table_RM fact_table_RTM : Z)
| TimeWithoutPointers (time : Z)
| TimeWithPointers (time : Z)
| NotEnoughTuples (i : Z).

#[export] Instance encoding_eq_dec : EqDecision encoding.
Proof. solve_decision. Defined.
#[export] Instance csv_line_eq_dec : EqDecision csv_line.
Proof. solve_decision. Defined.
#[export] Instance console_line_eq_dec : EqDecision console_line.
Proof. solve_decision. Defined.

Record world : Set := {
  ticks : nat;
  output : list csv_line;
  output_build : list csv_line;
  cout : list console_line;
}.

#[export] Instance world_eq_dec : EqDecision world.
Proof. solve_decision. Defined.

Definition set_ticks (t : nat) (w : world) : world :=
  {| ticks := t; output := output w; output_build := output_build w; cout := cout w |}.
Definition set_output (o : list csv_line) (w : world) : world :=
  {| ticks := ticks w; output := o; output_build := output_build w; cout := cout w |}.
Definition set_output_build (o : list csv_line) (w : world) : world :=
  {| ticks := ticks w; output := output w; output_build := o; cout := cout w |}.
Definition set_cout (c : list console_line) (w : world) : world :=
  {| ticks := ticks w; output := output w; output_build := output_build w; cout := c |}.

(** The state of [evaluate_for_n_dimensions]: its locals and the world. *)
Record bench : Type := { star : store; env : world }.

Definition set_star (s : store) (b : bench) : bench := {| star := s; env := env b |}.
Definition set_env (w : world) (b : bench) : bench := {| star := star b; env := w |}.

(** [output << n << "," << type << "," << duration << "\n"]. *)
Definition write_output (l : csv_line) : M world unit :=
  modify (λ w, set_output (emplace_back (output w) l) w).

Definition write_output_build (l : csv_line) : M world unit :=
  modify (λ w, set_output_build (emplace_back (output_build w) l) w).

(** [cout << ...]. *)
Definition print (l : console_line) : M world unit :=
  modify (λ w, set_cout (emplace_back (cout w) l) w).

(** [*dimension_indexes[j][rel_object.relations_[j]]]. *)
Definition resolve_foreign_key (rel_object : FactTableObject Z) (j : Z)
    : M store DimensionObject :=
  s <- get ;;
  index <- lift_result (vec_at (dimension_indexes s) j) ;;
  key <- lift_result (vec_at (relations_ rel_object) j) ;;
  put (set_dimension_indexes
         (<[Z.to_nat j := (index_at index key).2]> (dimension_indexes s)) s) ;;
  lift_result (deref (shared s) (index_at index key).1).

(** [*rel_object.relations_[j]]. *)
Definition resolve_pointer (rel_object : FactTableObject shared_ptr) (j : Z)
    : M store DimensionObject :=
  s <- get ;;
  p <- lift_result (vec_at (relations_ rel_object) j) ;;
  lift_result (deref (shared s) p).

(** (3a.) The scan of the foreign-key fact table. *)
Definition scan_foreign (n : Z) (fact_table_RM : list (FactTableObject Z))
    : M store unit :=
  for_each fact_table_RM (λ rel_object,
    for_range 0 n (λ j,
      resolve_foreign_key rel_object j ;;
      ret Continue)).

(** (3b.) The scan of the pointer fact table. *)
Definition scan_pointer (n : Z) (fact_table_RTM : list (FactTableObject shared_ptr))
    : M store unit :=
  for_each fact_table_RTM (λ rel_object,
    for_range 0 n (λ j,
      resolve_pointer rel_object j ;;
      ret Continue)).

Section benchmark.
Context `{cfg : Config} (clock : nat → Z).

(** [get_fact_table<T>(n, current_tuple, add_entry_to_tuple)] for a
    [current_tuple] declared just before and a callback that captures the
    store. *)
Definition make_fact_table {E : Type} (fuel : nat) (n : Z)
    (add_entry_to_tuple : callback E store) : M bench (list (FactTableObject E)) :=
  zoom (λ b, {| current_tuple := []; captured := star b |})
       (λ c b, set_star (captured c) b)
       (get_fact_table fuel n add_entry_to_tuple).

(** [chrono::high_resolution_clock::now()]. *)
Definition now : M world Z :=
  w <- get ;;
  put (set_ticks (S (ticks w)) w) ;;
  ret (clock (ticks w)).

(** The body of the loop over the repetitions. *)
Definition repetition (fuel : nat) (n : Z) : M bench unit :=
  start <- zoom env set_env now ;;
  fact_table_RM <- make_fact_table fuel n add_foreign_key_to_tuple ;;
  end_ <- zoom env set_env now ;;
  zoom env set_env (write_output_build (Row n foreign (end_ - start))) ;;
  start <- zoom env set_env now ;;
  fact_table_RTM <- make_fact_table fuel n add_pointer_to_tuple ;;
  end_ <- zoom env set_env now ;;
  zoom env set_env (write_output_build (Row n pointer (end_ - start))) ;;
  zoom env set_env (print (Sizes (Z.of_nat (length fact_table_RM))
                                 (Z.of_nat (length fact_table_RTM)))) ;;
  start <- zoom env set_env now ;;
  zoom star set_star (scan_foreign n fact_table_RM) ;;
  end_ <- zoom env set_env now ;;
  zoom env set_env (write_output (Row n foreign (end_ - start))) ;;
  zoom env set_env (print (TimeWithoutPointers (end_ - start))) ;;
  start <- zoom env set_env now ;;
  zoom star set_star (scan_pointer n fact_table_RTM) ;;
  end_ <- zoom env set_env now ;;
  zoom env set_env (write_output (Row n pointer (end_ - start))) ;;
  zoom env set_env (print (TimeWithPointers (end_ - start))).

(** The function after the declaration of its locals. *)
Definition evaluate_body (fuel : nat) (n : Z) : M bench unit :=
  zoom env set_env (print (RunningExperiment n)) ;;
  zoom star set_star (build_star_schema n) ;;
  for_range 0 repetitions (λ _, repetition fuel n ;; ret Continue).

(** [evaluate_for_n_dimensions(n, output, output_build)]: the locals are
    empty on entry and gone on return. *)
Definition evaluate_for_n_dimensions (fuel : nat) (n : Z) : M world unit :=
  zoom (λ w, {| star := empty_store; env := w |}) (λ b _, env b)
       (evaluate_body fuel n).

End benchmark.

(** ** What a run writes, in closed form *)

Section closed_form.
Context `{cfg : Config} (clock : nat → Z).

(** The number of tuples of a fact table for [n] dimensions, as the
    [size_t] that [size()] returns. *)
Definition fact_table_size (n : Z) : Z :=
  Z.max 0 number_of_tuples_in_fact_table `min` rows_per_dimension ^ n.

(** The lines of a repetition that starts at reading [t] of the clock. *)
Definition build_rows (n : Z) (t : nat) : list csv_line :=
  [Row n foreign (clock (1 + t)%nat - clock t);
   Row n pointer (clock (3 + t)%nat - clock (2 + t)%nat)].

Definition scan_rows (n : Z) (t : nat) : list csv_line :=
  [Row n foreign (clock (5 + t)%nat - clock (4 + t)%nat);
   Row n pointer (clock (7 + t)%nat - clock (6 + t)%nat)].

Definition console_lines (n : Z) (t : nat) : list console_line :=
  [Sizes (fact_table_size n) (fact_table_size n);
   TimeWithoutPointers (clock (5 + t)%nat - clock (4 + t)%nat);
   TimeWithPointers (clock (7 + t)%nat - clock (6 + t)%nat)].

(** The world after [r] repetitions for [n] dimensions. *)
Definition repetitions_world (n : Z) (r : nat) (w : world) : world :=
  {| ticks := r * 8 + ticks w;
     output := output w ++ flat_map (λ i, scan_rows n (i * 8 + ticks w)) (seq 0 r);
     output_build :=
       output_build w ++ flat_map (λ i, build_rows n (i * 8 + ticks w)) (seq 0 r);
     cout := cout w ++ flat_map (λ i, console_lines n (i * 8 + ticks w)) (seq 0 r) |}.

(** The world after the experiment for [n] dimensions. *)
Definition experiment_world (n : Z) (w : world) : world :=
  repetitions_world n (Z.to_nat repetitions)
    (set_cout (emplace_back (cout w) (RunningExperiment n)) w).

End closed_form.

(** ** What the files measure *)

(** The durations of the rows of a file. *)
Definition times (rows : list csv_line) : list Z :=
  omap (λ l, match l with Row _ _ time => Some time | Header => None end) rows.

(** The durations that the two files hold are the lengths of intervals
    that do not overlap, all of them between reading [t0] of the clock and
    the next reading: none is negative and their sum is at most the time
    between the two. *)
Definition timing_ok (clock : nat → Z) (t0 : nat) (w : world) : Prop :=
  Forall (λ time, 0 ≤ time) (times (output w) ++ times (output_build w)) ∧
  (t0 ≤ ticks w)%nat ∧
  sum_Z (times (output w)) + sum_Z (times (output_build w)) ≤
    clock (ticks w) - clock t0.

(** A clock for the examples: reading [t] is [10 * t] nanoseconds. *)
Definition example_clock (t : nat) : Z := 10 * Z.of_nat t.

(** The world in which [main] starts. *)
Definition initial_world : world :=
  {| ticks := 0; output := []; output_build := []; cout := [] |}.

(** * Lemmas *)

(** Evaluate the first step of a run when it is a step on the world. *)
Ltac io_step :=
  lazymatch goal with
  | |- context [bind ?m ?f ?s] =>
      let r := eval cbv [zoom now write_output write_output_build print
                         bind get put ret modify
                         star env set_star set_env ticks output output_build cout
                         set_ticks set_output set_output_build set_cout] in (m s) in
      lazymatch r with
      | Ok (?a, ?s') => rewrite (bind_Ok m f s a s' eq_refl)
      end
  end.

(** Rewrite the first step of a run with its specification. *)
Ltac run_with lem := erewrite bind_Ok; [|apply lem].

Section scans.
Context `{cfg : Config} (n : Z) (s : store).
Context `{!store_ok rows_per_dimension (Z.to_nat n) s}.

Lemma resolve_foreign_key_spec rel_object j key :
  0 ≤ j < n → relations_ rel_object !! Z.to_nat j = Some key →
  0 ≤ key < rows_per_dimension →
  resolve_foreign_key rel_object j s = Ok (dimension_row key, s).
Proof.
  intros Hj Hkey Hk.
  destruct (ok_handle _ _ _ _ (Z.to_nat j) key) as (index & l & Hi & Hl & Ho);
    [lia | done |].
  cbv [resolve_foreign_key bind get put lift_result].
  rewrite (proj2 (vec_at_Ok _ _ _) (conj (proj1 Hj) Hi)).
  rewrite (proj2 (vec_at_Ok _ _ _) (conj (proj1 Hj) Hkey)).
  rewrite (index_at_present _ _ _ Hl). cbn [fst snd].
  rewrite set_dimension_indexes_id by done. unfold deref. by rewrite Ho.
Qed.

Lemma resolve_pointer_spec rel_object j p object :
  0 ≤ j → relations_ rel_object !! Z.to_nat j = Some p →
  deref (shared s) p = Ok object →
  resolve_pointer rel_object j s = Ok (object, s).
Proof.
  intros Hj Hp Ho. cbv [resolve_pointer bind get lift_result].
  by rewrite (proj2 (vec_at_Ok _ _ _) (conj Hj Hp)), Ho.
Qed.

(** Column [j] of the encoding of a tuple of the product resolves to the
    row of the dimension table that the tuple names. *)
Lemma resolve_foreign_key_tuple t j :
  length t = Z.to_nat n → Forall (λ j, 0 ≤ j < rows_per_dimension) t → 0 ≤ j < n →
  ∃ key, t !! Z.to_nat j = Some key ∧
         resolve_foreign_key {| relations_ := [] ++ encode_from foreign_key 0 t |} j s =
           Ok (dimension_row key, s).
Proof.
  intros Hlen Ht Hj.
  destruct (lookup_lt_is_Some_2 t (Z.to_nat j)) as [key Hkey]; [lia|].
  exists key. split; [done|]. apply resolve_foreign_key_spec; [done | |].
  - cbn [relations_ app]. by rewrite encode_from_lookup, Hkey.
  - by apply (Forall_lookup_1 _ _ _ _ Ht Hkey).
Qed.

Lemma resolve_pointer_tuple t j :
  length t = Z.to_nat n → Forall (λ j, 0 ≤ j < rows_per_dimension) t → 0 ≤ j < n →
  ∃ key, t !! Z.to_nat j = Some key ∧
         resolve_pointer {| relations_ := [] ++ encode_from (handle_of s) 0 t |} j s =
           Ok (dimension_row key, s).
Proof.
  intros Hlen Ht Hj.
  destruct (lookup_lt_is_Some_2 t (Z.to_nat j)) as [key Hkey]; [lia|].
  exists key. split; [done|].
  eapply resolve_pointer_spec;
    [lia | cbn [relations_ app]; by rewrite encode_from_lookup, Hkey |].
  apply (deref_handle_of (n := Z.to_nat n)); [lia|].
  by apply (Forall_lookup_1 _ _ _ _ Ht Hkey).
Qed.

Lemma scan_foreign_spec :
  scan_foreign n (enumerate_spec foreign_key n []) s = Ok (tt, s).
Proof.
  apply for_each_skip. intros rel_object Hrel. apply for_range_skip. intros j Hj.
  apply elem_of_enumerate_spec in Hrel as (t & Hrel & Hlen & Ht).
  destruct (resolve_foreign_key_tuple t j) as (key & _ & Hr); [done | done | lia |].
  destruct rel_object as [v]. simpl in Hrel. subst v.
  by rewrite (bind_Ok _ _ _ _ _ Hr).
Qed.

Lemma scan_pointer_spec :
  scan_pointer n (enumerate_spec (handle_of s) n []) s = Ok (tt, s).
Proof.
  apply for_each_skip. intros rel_object Hrel. apply for_range_skip. intros j Hj.
  apply elem_of_enumerate_spec in Hrel as (t & Hrel & Hlen & Ht).
  destruct (resolve_pointer_tuple t j) as (key & _ & Hr); [done | done | lia |].
  destruct rel_object as [v]. simpl in Hrel. subst v.
  by rewrite (bind_Ok _ _ _ _ _ Hr).
Qed.

(** Row [i], column [j] of the two fact tables resolve to the same object. *)
Lemma resolve_agree (i : nat) j rel rel' :
  enumerate_spec foreign_key n [] !! i = Some rel →
  enumerate_spec (handle_of s) n [] !! i = Some rel' → 0 ≤ j < n →
  ∃ key, relations_ rel !! Z.to_nat j = Some key ∧
         resolve_foreign_key rel j s = Ok (dimension_row key, s) ∧
         resolve_pointer rel' j s = Ok (dimension_row key, s).
Proof.
  intros (t & Ht & ->)%enumerate_spec_lookup_Some
         (t' & Ht' & ->)%enumerate_spec_lookup_Some Hj.
  assert (t' = t) as -> by congruence.
  apply lookup_take_Some in Ht as [Ht%list_elem_of_lookup_2 _].
  apply elem_of_lex_product in Ht as [Hlen Hall].
  destruct (resolve_foreign_key_tuple t j) as (key & Hkey & Hr); [done..|].
  destruct (resolve_pointer_tuple t j) as (key' & Hkey' & Hr'); [done..|].
  assert (key' = key) as -> by congruence.
  exists key. split_and!; [|done|done].
  cbn [relations_ app]. by rewrite encode_from_lookup, Hkey.
Qed.

End scans.

(** A key that the index does not hold: [operator[]] inserts an empty
    handle and the dereference is undefined. *)
Lemma resolve_foreign_key_absent (s : store) rel_object j index key :
  0 ≤ j → dimension_indexes s !! Z.to_nat j = Some index →
  relations_ rel_object !! Z.to_nat j = Some key → index !! key = None →
  resolve_foreign_key rel_object j s = Err (UB NullDereference).
Proof.
  intros Hj Hi Hkey Hnone. cbv [resolve_foreign_key bind get put lift_result].
  rewrite (proj2 (vec_at_Ok _ _ _) (conj Hj Hi)).
  rewrite (proj2 (vec_at_Ok _ _ _) (conj Hj Hkey)).
  unfold index_at. by rewrite Hnone.
Qed.

Section runs.
Context `{cfg : Config} `{!ConfigOk cfg} (clock : nat → Z) (fuel : nat) (n : Z).
Context (Hn : 1 ≤ n < size_t_modulus) (Hfuel : (Z.to_nat n ≤ fuel)%nat).
Implicit Types (s : store) (w : world).

Lemma make_fact_table_foreign s w :
  store_ok rows_per_dimension (Z.to_nat n) s →
  make_fact_table fuel n add_foreign_key_to_tuple {| star := s; env := w |} =
    Ok (enumerate_spec foreign_key n [], {| star := s; env := w |}).
Proof.
  intros Hs. unfold make_fact_table, zoom. simpl.
  by rewrite get_fact_table_foreign.
Qed.

Lemma make_fact_table_pointer s w :
  store_ok rows_per_dimension (Z.to_nat n) s →
  make_fact_table fuel n add_pointer_to_tuple {| star := s; env := w |} =
    Ok (enumerate_spec (handle_of s) n [], {| star := s; env := w |}).
Proof.
  intros Hs. unfold make_fact_table, zoom. simpl.
  by rewrite get_fact_table_pointer.
Qed.

Lemma zoom_scan_foreign s w :
  store_ok rows_per_dimension (Z.to_nat n) s →
  zoom star set_star (scan_foreign n (enumerate_spec foreign_key n []))
    {| star := s; env := w |} = Ok (tt, {| star := s; env := w |}).
Proof. intros Hs. unfold zoom. simpl. by rewrite scan_foreign_spec. Qed.

Lemma zoom_scan_pointer s w :
  store_ok rows_per_dimension (Z.to_nat n) s →
  zoom star set_star (scan_pointer n (enumerate_spec (handle_of s) n []))
    {| star := s; env := w |} = Ok (tt, {| star := s; env := w |}).
Proof. intros Hs. unfold zoom. simpl. by rewrite scan_pointer_spec. Qed.

Lemma repetition_spec s w :
  store_ok rows_per_dimension (Z.to_nat n) s →
  repetition clock fuel n {| star := s; env := w |} =
    Ok (tt, {| star := s; env := repetitions_world clock n 1 w |}).
Proof.
  intros Hs. destruct w as [t o ob c]. unfold repetition.
  io_step. run_with make_fact_table_foreign; [|done]. do 3 io_step.
  run_with make_fact_table_pointer; [|done]. do 4 io_step.
  run_with zoom_scan_foreign; [|done]. do 4 io_step.
  run_with zoom_scan_pointer; [|done]. do 2 io_step.
  rewrite !length_enumerate_spec by lia.
  cbv [zoom print modify env set_env set_cout cout ticks output output_build star
       emplace_back repetitions_world].
  simpl. by rewrite <- !app_assoc.
Qed.

Lemma repetitions_world_S (r : nat) w :
  repetitions_world clock n 1 (repetitions_world clock n r w) =
    repetitions_world clock n (S r) w.
Proof.
  unfold repetitions_world at 1 3. cbn [ticks output output_build cout].
  rewrite !seq_S, !flat_map_app. simpl. by rewrite <- !app_assoc.
Qed.

Lemma iter_repetitions_world (r : nat) w :
  Nat.iter r (repetitions_world clock n 1) w = repetitions_world clock n r w.
Proof.
  induction r as [|r IH]; simpl; [|by rewrite IH, repetitions_world_S].
  destruct w. unfold repetitions_world. simpl. by rewrite !app_nil_r.
Qed.

Lemma evaluate_body_spec w :
  evaluate_body clock fuel n {| star := empty_store; env := w |} =
    Ok (tt, {| star := built_store rows_per_dimension (Z.to_nat n);
               env := experiment_world clock n w |}).
Proof.
  unfold evaluate_body. io_step.
  erewrite bind_Ok; [|apply zoom_Ok; simpl; rewrite <- (Z2Nat.id n) at 1 by lia;
                      apply build_star_schema_nat].
  rewrite (for_range_iter
             (λ b, star b = built_store rows_per_dimension (Z.to_nat n))
             (λ b, {| star := star b; env := repetitions_world clock n 1 (env b) |}));
    [| |done].
  - f_equal. f_equal. rewrite Z.sub_0_r. unfold experiment_world.
    rewrite <- iter_repetitions_world.
    generalize (Z.to_nat repetitions). intros r.
    induction r as [|r IH]; [done|]. simpl. by rewrite IH.
  - intros i [s w'] _ Hs. simpl in Hs. subst s. split; [|done].
    erewrite bind_Ok; [|apply repetition_spec, built_store_ok]. done.
Qed.

Lemma evaluate_for_n_dimensions_spec w :
  evaluate_for_n_dimensions clock fuel n w = Ok (tt, experiment_world clock n w).
Proof. unfold evaluate_for_n_dimensions, zoom. by rewrite evaluate_body_spec. Qed.

End runs.

(** ** A clock that never goes back *)

Section timing.
Context `{cfg : Config} (clock : nat → Z).
Context (Hclock : ∀ t, clock t ≤ clock (S t)).

Lemma clock_mono (t t' : nat) : (t ≤ t')%nat → clock t ≤ clock t'.
Proof. induction 1 as [|t' _ IH]; [done|]. etrans; [apply IH | apply Hclock]. Qed.

Lemma times_app rows1 rows2 : times (rows1 ++ rows2) = times rows1 ++ times rows2.
Proof. apply omap_app. Qed.

(** Each of the four phases of a repetition is timed by two readings of
    its own, taken in the order of the phases. *)
Lemma timing_ok_repetition n t0 w :
  timing_ok clock t0 w → timing_ok clock t0 (repetitions_world clock n 1 w).
Proof.
  intros (Hpos & Ht0 & Hsum). unfold timing_ok, repetitions_world.
  cbn [ticks output output_build seq flat_map]. rewrite !app_nil_r, !times_app, !sum_Z_app.
  apply Forall_app in Hpos as [Ho Hb].
  pose proof (λ i, Hclock (i + ticks w)%nat) as Hc.
  pose proof (Hc 0%nat). pose proof (Hc 1%nat). pose proof (Hc 2%nat). pose proof (Hc 3%nat).
  pose proof (Hc 4%nat). pose proof (Hc 5%nat). pose proof (Hc 6%nat). pose proof (Hc 7%nat).
  simpl in *. split_and!; [|lia|lia].
  repeat (apply Forall_app; split); try done; repeat constructor; lia.
Qed.

Lemma timing_ok_repetitions n (r : nat) t0 w :
  timing_ok clock t0 w → timing_ok clock t0 (repetitions_world clock n r w).
Proof.
  intros Hw. rewrite <- iter_repetitions_world.
  induction r as [|r IH]; [done|]. simpl. by apply timing_ok_repetition.
Qed.

Lemma timing_ok_experiment n t0 w :
  timing_ok clock t0 w → timing_ok clock t0 (experiment_world clock n w).
Proof. intros Hw. by apply timing_ok_repetitions. Qed.

End timing.

Section empty_store.
Context `{cfg : Config} (clock : nat → Z).
Context (HK : 0 < rows_per_dimension) (HL : 0 < number_of_tuples_in_fact_table).

(** On the empty store the first call of the callback reads [dimensions[0]]. *)
Lemma make_fact_table_empty_store fuel n w :
  make_fact_table (S fuel) n add_foreign_key_to_tuple
    {| star := empty_store; env := w |} = Err (UB OutOfRange).
Proof.
  unfold make_fact_table, zoom, get_fact_table. simpl rec_pointer.
  unfold rec_pointer_body.
  rewrite (for_range_Err _ _ _ _ (UB OutOfRange)); [done | done |].
  by apply rec_pointer_iteration_callback_Err.
Qed.

Lemma repetition_empty_store fuel n w :
  repetition clock (S fuel) n {| star := empty_store; env := w |} =
    Err (UB OutOfRange).
Proof.
  unfold repetition. io_step. apply bind_Err, make_fact_table_empty_store.
Qed.

End empty_store.

(** * Theorems *)

(** Claim C5 (the scans are safe).  For at least one dimension table, the
    store that the build returns admits both fact tables, and both scans
    of them return without undefined behaviour and leave the store as it
    was: no lookup misses, no empty handle is dereferenced, nothing is
    inserted into an index. *)
Theorem scans_return `{cfg : Config} `{!ConfigOk cfg} (n : Z) (fuel : nat) :
  1 ≤ n < size_t_modulus → (Z.to_nat n ≤ fuel)%nat →
  ∃ s fact_table_RM fact_table_RTM,
    build_star_schema n empty_store = Ok (tt, s) ∧
    get_fact_table fuel n add_foreign_key_to_tuple
      {| current_tuple := []; captured := s |} =
      Ok (fact_table_RM, {| current_tuple := []; captured := s |}) ∧
    get_fact_table fuel n add_pointer_to_tuple
      {| current_tuple := []; captured := s |} =
      Ok (fact_table_RTM, {| current_tuple := []; captured := s |}) ∧
    scan_foreign n fact_table_RM s = Ok (tt, s) ∧
    scan_pointer n fact_table_RTM s = Ok (tt, s).
Proof.
  intros Hn Hfuel.
  pose proof (built_store_ok rows_per_dimension (Z.to_nat n)) as Hs.
  do 3 eexists. split_and!.
  - rewrite <- (Z2Nat.id n) at 1 by lia. apply build_star_schema_nat.
  - by apply get_fact_table_foreign.
  - by apply get_fact_table_pointer.
  - by apply scan_foreign_spec.
  - by apply scan_pointer_spec.
Qed.

Lemma scans_return_witness :
  ∃ s fact_table_RM fact_table_RTM,
    build_star_schema (cfg := example_config) 2 empty_store = Ok (tt, s) ∧
    get_fact_table (cfg := example_config) 2 2 add_foreign_key_to_tuple
      {| current_tuple := []; captured := s |} =
      Ok (fact_table_RM, {| current_tuple := []; captured := s |}) ∧
    get_fact_table (cfg := example_config) 2 2 add_pointer_to_tuple
      {| current_tuple := []; captured := s |} =
      Ok (fact_table_RTM, {| current_tuple := []; captured := s |}) ∧
    scan_foreign 2 fact_table_RM s = Ok (tt, s) ∧
    scan_pointer 2 fact_table_RTM s = Ok (tt, s).
Proof.
  apply (scans_return (cfg := example_config) 2 2); [unfold size_t_modulus; lia | lia].
Defined.

(** Claim C3 (the two resolutions agree).  On a store that satisfies
    [store_ok], for every row [i] and column [j] the lookup of the
    foreign key in the index of dimension [j] followed by the dereference,
    and the dereference of the stored handle, give the same object: the
    row of the dimension table whose id is the foreign key.  Neither
    changes the store. *)
Theorem resolutions_agree `{cfg : Config} `{!ConfigOk cfg}
    (n : Z) (s : store) (fuel : nat) :
  1 ≤ n < size_t_modulus → (Z.to_nat n ≤ fuel)%nat →
  store_ok rows_per_dimension (Z.to_nat n) s →
  ∃ fact_table_RM fact_table_RTM,
    get_fact_table fuel n add_foreign_key_to_tuple
      {| current_tuple := []; captured := s |} =
      Ok (fact_table_RM, {| current_tuple := []; captured := s |}) ∧
    get_fact_table fuel n add_pointer_to_tuple
      {| current_tuple := []; captured := s |} =
      Ok (fact_table_RTM, {| current_tuple := []; captured := s |}) ∧
    ∀ (i : nat) j rel rel',
      fact_table_RM !! i = Some rel → fact_table_RTM !! i = Some rel' → 0 ≤ j < n →
      ∃ key, relations_ rel !! Z.to_nat j = Some key ∧
             resolve_foreign_key rel j s =
               Ok ({| id_ := key; info_ := to_string key |}, s) ∧
             resolve_pointer rel' j s =
               Ok ({| id_ := key; info_ := to_string key |}, s).
Proof.
  intros Hn Hfuel Hs. do 2 eexists. split_and!.
  - by apply get_fact_table_foreign.
  - by apply get_fact_table_pointer.
  - intros i j rel rel'. by apply resolve_agree.
Qed.

Lemma resolutions_agree_witness :
  ∃ fact_table_RM fact_table_RTM,
    get_fact_table (cfg := example_config) 2 2 add_foreign_key_to_tuple
      {| current_tuple := []; captured := built_store 3 2 |} =
      Ok (fact_table_RM, {| current_tuple := []; captured := built_store 3 2 |}) ∧
    get_fact_table (cfg := example_config) 2 2 add_pointer_to_tuple
      {| current_tuple := []; captured := built_store 3 2 |} =
      Ok (fact_table_RTM, {| current_tuple := []; captured := built_store 3 2 |}) ∧
    ∀ (i : nat) j rel rel',
      fact_table_RM !! i = Some rel → fact_table_RTM !! i = Some rel' → 0 ≤ j < 2 →
      ∃ key, relations_ rel !! Z.to_nat j = Some key ∧
             resolve_foreign_key rel j (built_store 3 2) =
               Ok ({| id_ := key; info_ := to_string key |}, built_store 3 2) ∧
             resolve_pointer rel' j (built_store 3 2) =
               Ok ({| id_ := key; info_ := to_string key |}, built_store 3 2).
Proof.
  apply (resolutions_agree (cfg := example_config) 2 (built_store 3 2) 2);
    [unfold size_t_modulus; lia | lia | apply built_store_ok].
Defined.

(** Claim C33 (a foreign key that the index does not hold).  The scan of the
    foreign-key table reads the index with [operator[]]: for a key that is
    absent an empty handle is inserted and then dereferenced, which is
    undefined behaviour. *)
Theorem resolve_foreign_key_miss (s : store) rel_object j index key :
  0 ≤ j → dimension_indexes s !! Z.to_nat j = Some index →
  relations_ rel_object !! Z.to_nat j = Some key → index !! key = None →
  resolve_foreign_key rel_object j s = Err (UB NullDereference).
Proof. apply resolve_foreign_key_absent. Qed.

Lemma resolve_foreign_key_miss_witness :
  resolve_foreign_key {| relations_ := [3] |} 0 (built_store 3 1) =
    Err (UB NullDereference).
Proof.
  by apply (resolve_foreign_key_miss (built_store 3 1) {| relations_ := [3] |} 0
              (index_upto 0 3) 3).
Defined.

(** Claim C35 (idempotent resolution).  On a store that satisfies [store_ok],
    resolving the same foreign key of a dimension twice gives the same
    object both times, the row with that id, and leaves the store as it
    was. *)
Theorem resolve_foreign_key_idempotent `{cfg : Config} (n : Z) (s : store)
    rel_object j key :
  store_ok rows_per_dimension (Z.to_nat n) s →
  0 ≤ j < n → relations_ rel_object !! Z.to_nat j = Some key →
  0 ≤ key < rows_per_dimension →
  (first <- resolve_foreign_key rel_object j ;;
   second <- resolve_foreign_key rel_object j ;;
   ret (first, second)) s =
    Ok (({| id_ := key; info_ := to_string key |},
         {| id_ := key; info_ := to_string key |}), s).
Proof.
  intros Hs Hj Hkey Hk.
  by rewrite !(bind_Ok _ _ _ _ _ (resolve_foreign_key_spec n s rel_object j key Hj Hkey Hk)).
Qed.

Lemma resolve_foreign_key_idempotent_witness :
  (first <- resolve_foreign_key {| relations_ := [7; 42] |} 0 ;;
   second <- resolve_foreign_key {| relations_ := [7; 42] |} 0 ;;
   ret (first, second)) (built_store 100 2) =
    Ok (({| id_ := 7; info_ := "7" |}, {| id_ := 7; info_ := "7" |}),
        built_store 100 2).
Proof.
  apply (resolve_foreign_key_idempotent (cfg := reference_config) 2 (built_store 100 2)
           {| relations_ := [7; 42] |} 0 7);
    [apply built_store_ok | done | done | done].
Defined.

(** Claim C36 (one repetition).  On a store that satisfies [store_ok] a
    repetition returns, reads the clock eight times, leaves the store as it
    was, and appends: to the build file the two rows of the build phase,
    to the results file the two rows of the scan phase (foreign first),
    each with the experiment [n] and the difference of the two readings
    around its phase, and to the console the two sizes and the two
    durations. *)
Theorem repetition_writes `{cfg : Config} `{!ConfigOk cfg} (clock : nat → Z)
    (fuel : nat) (n : Z) (s : store) (w : world) :
  1 ≤ n < size_t_modulus → (Z.to_nat n ≤ fuel)%nat →
  store_ok rows_per_dimension (Z.to_nat n) s →
  repetition clock fuel n {| star := s; env := w |} =
    Ok (tt, {| star := s;
               env := {| ticks := 8 + ticks w;
                         output := output w ++ scan_rows clock n (ticks w);
                         output_build := output_build w ++ build_rows clock n (ticks w);
                         cout := cout w ++ console_lines clock n (ticks w) |} |}).
Proof.
  intros Hn Hfuel Hs. rewrite repetition_spec by done. reflexivity.
Qed.

Lemma repetition_writes_witness :
  repetition (cfg := example_config) example_clock 2 2
    {| star := built_store 3 2; env := initial_world |} =
    Ok (tt, {| star := built_store 3 2;
               env := {| ticks := 8;
                         output := [Row 2 foreign 10; Row 2 pointer 10];
                         output_build := [Row 2 foreign 10; Row 2 pointer 10];
                         cout := [Sizes 5 5; TimeWithoutPointers 10;
                                  TimeWithPointers 10] |} |}).
Proof.
  apply (repetition_writes (cfg := example_config) example_clock 2 2
           (built_store 3 2) initial_world);
    [unfold size_t_modulus; lia | lia | apply built_store_ok].
Defined.

(** Claim C16 (one experiment).  For at least one dimension table and fuel
    of at least [n], [evaluate_for_n_dimensions] returns without undefined
    behaviour, and the world it leaves is [experiment_world]: the console
    line of the experiment, then for each of the [number_of_repetitions]
    repetitions two rows in each file and three console lines, and eight
    readings of the clock. *)
Theorem evaluate_for_n_dimensions_world `{cfg : Config} `{!ConfigOk cfg}
    (clock : nat → Z) (fuel : nat) (n : Z) (w : world) :
  1 ≤ n < size_t_modulus → (Z.to_nat n ≤ fuel)%nat →
  evaluate_for_n_dimensions clock fuel n w = Ok (tt, experiment_world clock n w).
Proof. intros Hn Hfuel. by apply evaluate_for_n_dimensions_spec. Qed.

Lemma evaluate_for_n_dimensions_world_witness :
  evaluate_for_n_dimensions (cfg := example_config) example_clock 2 2 initial_world =
    Ok (tt, {| ticks := 16;
               output := [Row 2 foreign 10; Row 2 pointer 10;
                          Row 2 foreign 10; Row 2 pointer 10];
               output_build := [Row 2 foreign 10; Row 2 pointer 10;
                                Row 2 foreign 10; Row 2 pointer 10];
               cout := [RunningExperiment 2;
                        Sizes 5 5; TimeWithoutPointers 10; TimeWithPointers 10;
                        Sizes 5 5; TimeWithoutPointers 10; TimeWithPointers 10] |}).
Proof.
  apply (evaluate_for_n_dimensions_world (cfg := example_config) example_clock 2 2
           initial_world); [unfold size_t_modulus; lia | lia].
Defined.

(** Claim C30 (built once, read only).  At the end of an experiment the
    locals of [evaluate_for_n_dimensions] hold the store that the build
    returned: the repetitions allocate nothing and leave the tables and
    the indexes as they were, so the heap holds one object per row of each
    dimension table however many repetitions ran. *)
Theorem evaluate_body_store `{cfg : Config} `{!ConfigOk cfg} (clock : nat → Z)
    (fuel : nat) (n : Z) (w : world) :
  1 ≤ n < size_t_modulus → (Z.to_nat n ≤ fuel)%nat →
  ∃ s w',
    evaluate_body clock fuel n {| star := empty_store; env := w |} =
      Ok (tt, {| star := s; env := w' |}) ∧
    build_star_schema n empty_store = Ok (tt, s) ∧
    length (shared s) = (Z.to_nat n * Z.to_nat rows_per_dimension)%nat.
Proof.
  intros Hn Hfuel. do 2 eexists. split_and!.
  - by apply evaluate_body_spec.
  - rewrite <- (Z2Nat.id n) at 1 by lia. apply build_star_schema_nat.
  - cbn [shared built_store]. by rewrite length_join_replicate, length_table_upto.
Qed.

Lemma evaluate_body_store_witness :
  ∃ s w',
    evaluate_body (cfg := example_config) example_clock 2 2
      {| star := empty_store; env := initial_world |} =
      Ok (tt, {| star := s; env := w' |}) ∧
    build_star_schema (cfg := example_config) 2 empty_store = Ok (tt, s) ∧
    length (shared s) = 6%nat.
Proof.
  apply (evaluate_body_store (cfg := example_config) example_clock 2 2 initial_world);
    [unfold size_t_modulus; lia | lia].
Defined.

(** Claim C31 (an experiment without dimension tables).  For [n = 0] the
    build makes nothing and the first call of the callback reads
    [dimensions[0]] of an empty vector: with a row to visit, a positive cap
    and a repetition to run, the experiment is undefined behaviour. *)
Theorem evaluate_for_n_dimensions_no_dimension `{cfg : Config} (clock : nat → Z)
    (fuel : nat) (w : world) :
  0 < rows_per_dimension → 0 < number_of_tuples_in_fact_table → 0 < repetitions →
  evaluate_for_n_dimensions clock (S fuel) 0 w = Err (UB OutOfRange).
Proof.
  intros HK HL HR. unfold evaluate_for_n_dimensions, zoom, evaluate_body. io_step.
  erewrite bind_Ok; [|apply zoom_Ok, for_range_ge; lia].
  rewrite (for_range_Err _ _ _ _ (UB OutOfRange)); [done | done |].
  by apply bind_Err, repetition_empty_store.
Qed.

Lemma evaluate_for_n_dimensions_no_dimension_witness :
  evaluate_for_n_dimensions (cfg := example_config) example_clock 1 0 initial_world =
    Err (UB OutOfRange).
Proof.
  by apply (evaluate_for_n_dimensions_no_dimension (cfg := example_config)
              example_clock 0 initial_world).
Defined.

(** Claim C37 (rows per experiment).  An experiment adds
    [2 * number_of_repetitions] rows to each file, all of them for the
    experiment [n], and reads the clock [8 * number_of_repetitions]
    times. *)
Theorem evaluate_for_n_dimensions_rows `{cfg : Config} `{!ConfigOk cfg}
    (clock : nat → Z) (fuel : nat) (n : Z) (w : world) :
  1 ≤ n < size_t_modulus → (Z.to_nat n ≤ fuel)%nat →
  ∃ w' rows rows_build,
    evaluate_for_n_dimensions clock fuel n w = Ok (tt, w') ∧
    output w' = output w ++ rows ∧ output_build w' = output_build w ++ rows_build ∧
    length rows = (2 * Z.to_nat repetitions)%nat ∧
    length rows_build = (2 * Z.to_nat repetitions)%nat ∧
    Forall (λ l, ∃ type time, l = Row n type time) (rows ++ rows_build) ∧
    ticks w' = (8 * Z.to_nat repetitions + ticks w)%nat.
Proof.
  intros Hn Hfuel. do 3 eexists. split_and!.
  - by apply evaluate_for_n_dimensions_spec.
  - done.
  - done.
  - by rewrite (length_flat_map_const _ _ 2), length_seq.
  - by rewrite (length_flat_map_const _ _ 2), length_seq.
  - apply Forall_app. split; apply Forall_flat_map, Forall_forall; intros i _;
      repeat constructor; eauto.
  - simpl. lia.
Qed.

Lemma evaluate_for_n_dimensions_rows_witness :
  ∃ w' rows rows_build,
    evaluate_for_n_dimensions (cfg := example_config) example_clock 2 2 initial_world =
      Ok (tt, w') ∧
    output w' = [] ++ rows ∧ output_build w' = [] ++ rows_build ∧
    length rows = 4%nat ∧ length rows_build = 4%nat ∧
    Forall (λ l, ∃ type time, l = Row 2 type time) (rows ++ rows_build) ∧
    ticks w' = 16%nat.
Proof.
  apply (evaluate_for_n_dimensions_rows (cfg := example_config) example_clock 2 2
           initial_world); [unfold size_t_modulus; lia | lia].
Defined.

(** Claim C40 (the row with id 7).  In the store built for four dimension
    tables with the parameters of the source, the row with id [7] of
    dimension [0] resolves, through its foreign key and through its
    handle, to the object with id [7] and text ["7"]. *)
Example reference_row_7 :
  ∃ s, build_star_schema (cfg := reference_config) 4 empty_store = Ok (tt, s) ∧
       resolve_foreign_key {| relations_ := [7; 0; 0; 0] |} 0 s =
         Ok ({| id_ := 7; info_ := "7" |}, s) ∧
       resolve_pointer
         {| relations_ := [handle_of s 0 7; handle_of s 1 0;
                           handle_of s 2 0; handle_of s 3 0] |} 0 s =
         Ok ({| id_ := 7; info_ := "7" |}, s).
Proof.
  pose proof (built_store_ok (rows_per_dimension (cfg := reference_config)) 4) as Hs.
  eexists. split_and!.
  - apply (build_star_schema_nat (cfg := reference_config) 4).
  - by apply (resolve_foreign_key_spec (cfg := reference_config) 4).
  - eapply (resolve_pointer_spec _ _ 0); [done | done |].
    by apply (deref_handle_of (cfg := reference_config) (n := 4)).
Qed.
