(* ===== verification/Driver.v ===== *)
(** * The experiment driver

    [main] (lines 197-218 of [src/benchmark.cpp]): it opens the two result
    files, writes their headers, and for every dimension count from [2] to
    [max_number_of_dimension_tables] either reports that the cartesian
    product is smaller than the fact table and goes on, or runs
    [evaluate_for_n_dimensions].

    - Opening an [ofstream] truncates the file: the stream starts empty.
      A stream that fails to open is not modelled.
    - The guard compares [pow(number_of_tuples_in_dimension_tables, i)]
      with [number_of_tuples_in_fact_table] in [double].  [not_enough_tuples]
      compares the integers: an [int] is a [double] exactly, rounding is
      monotone, and a power below an [int] is itself exact, so the two
      comparisons agree.
    - The loop counter is a [size_t] compared with [<=]: for a bound of
      [2^64 - 1] the loop never ends, which [main] reports as [OutOfFuel].

    The theorems give the world that [main] leaves in closed form
    ([main_world]), count the rows of the two files, show that every size
    the console reports is the cap and that the durations are those of
    intervals that do not overlap, and evaluate the sweep for the
    parameters of the source: the experiments [4] to [10] run and [2] and
    [3] are skipped. *)

From S2P Require Import Prelude Config LexProduct Enumerator DimensionStore Encoders.
From S2P Require Import JoinBenchmark.

Section driver.
Context `{cfg : Config} (clock : nat → Z).

(** [pow(number_of_tuples_in_dimension_tables, i) <
    number_of_tuples_in_fact_table]. *)
Definition not_enough_tuples (i : Z) : bool :=
  bool_decide (number_of_tuples_in_dimension_tables ^ i < number_of_tuples_in_fact_table).

(** The body of the main loop. *)
Definition experiment (fuel : nat) (i : Z) : M world ctl :=
  if not_enough_tuples i then
    print (NotEnoughTuples i) ;;
    ret Continue
  else
    evaluate_for_n_dimensions clock fuel i ;;
    ret Continue.

(** [std::ofstream output("./results/results.csv")] and
    [std::ofstream output_build("./results/results_build.csv")]. *)
Definition open_files : M world unit :=
  modify (set_output []) ;;
  modify (set_output_build []).

Definition main (fuel : nat) : M world Z :=
  open_files ;;
  write_output Header ;;
  write_output_build Header ;;
  (if bool_decide (max_dimensions = size_t_modulus - 1) then fail OutOfFuel
   else for_range 2 (max_dimensions + 1) (experiment fuel)) ;;
  ret 0.

(** ** The run in closed form *)

(** The world after iteration [i] of the main loop. *)
Definition experiment_step (i : Z) (w : world) : world :=
  if not_enough_tuples i then set_cout (emplace_back (cout w) (NotEnoughTuples i)) w
  else experiment_world clock i w.

(** The world after the headers were written. *)
Definition headers_world (w : world) : world :=
  {| ticks := ticks w; output := [Header]; output_build := [Header]; cout := cout w |}.

(** The dimension counts of the sweep. *)
Definition sweep : list Z := seqZ 2 (max_dimensions + 1 - 2).

(** The world that [main] leaves. *)
Definition main_world (w : world) : world :=
  foldl (λ w i, experiment_step i w) (headers_world w) sweep.

(** The dimension counts for which an experiment runs. *)
Definition experiments : list Z :=
  filter (λ i, not_enough_tuples i = false) sweep.

End driver.

(** The experiments that the console reports as started, and as skipped. *)
Definition started (lines : list console_line) : list Z :=
  omap (λ l, match l with RunningExperiment n => Some n | _ => None end) lines.

Definition skipped (lines : list console_line) : list Z :=
  omap (λ l, match l with NotEnoughTuples i => Some i | _ => None end) lines.

(** The sizes of the two fact tables that the console reports. *)
Definition sizes (lines : list console_line) : list (Z * Z) :=
  omap (λ l, match l with Sizes rm rtm => Some (rm, rtm) | _ => None end) lines.

(** The experiments of the rows of a file. *)
Definition row_experiments (rows : list csv_line) : list Z :=
  omap (λ l, match l with Row n _ _ => Some n | Header => None end) rows.

(** * Lemmas *)

Section closed_form_lemmas.
Context `{cfg : Config} (clock : nat → Z).
Implicit Types (w : world) (l : list Z).

#[local] Abbreviation sweep_step := (λ w i, experiment_step clock i w).
#[local] Abbreviation runs := (λ i, not_enough_tuples i = false).

(** A measure of the world that every experiment run increases by [c] and
    every skipped one leaves as it is. *)
Lemma foldl_experiment_step_measure (μ : world → nat) (c : nat) l w :
  (∀ i w, μ (experiment_step clock i w) =
            if not_enough_tuples i then μ w else (μ w + c)%nat) →
  μ (foldl sweep_step w l) = (μ w + c * length (filter runs l))%nat.
Proof.
  intros Hμ. revert w. induction l as [|i l IH]; intros w; simpl; [lia|].
  rewrite IH, Hμ. destruct (not_enough_tuples i) eqn:Hi.
  - rewrite filter_cons_False by (by rewrite Hi). lia.
  - rewrite filter_cons_True by done. simpl. lia.
Qed.

Lemma ticks_experiment_step i w :
  ticks (experiment_step clock i w) =
    if not_enough_tuples i then ticks w
    else (ticks w + 8 * Z.to_nat repetitions)%nat.
Proof. unfold experiment_step. destruct (not_enough_tuples i); simpl; lia. Qed.

Lemma length_output_experiment_step i w :
  length (output (experiment_step clock i w)) =
    if not_enough_tuples i then length (output w)
    else (length (output w) + 2 * Z.to_nat repetitions)%nat.
Proof.
  unfold experiment_step. destruct (not_enough_tuples i); simpl; [done|].
  by rewrite length_app, (length_flat_map_const _ _ 2), length_seq.
Qed.

Lemma length_output_build_experiment_step i w :
  length (output_build (experiment_step clock i w)) =
    if not_enough_tuples i then length (output_build w)
    else (length (output_build w) + 2 * Z.to_nat repetitions)%nat.
Proof.
  unfold experiment_step. destruct (not_enough_tuples i); simpl; [done|].
  by rewrite length_app, (length_flat_map_const _ _ 2), length_seq.
Qed.

(** The experiments of the rows that the repetitions of one experiment
    write. *)
Lemma row_experiments_flat_map (rows : Z → nat → list csv_line) n (t r : nat) :
  (∀ t', row_experiments (rows n t') = [n; n]) →
  row_experiments (flat_map (λ i, rows n (i * 8 + t)%nat) (seq 0 r)) =
    replicate (2 * r) n.
Proof.
  intros Hrows. unfold row_experiments in *. induction r as [|r IH]; [done|].
  rewrite seq_S, flat_map_app, omap_app, IH. cbn [flat_map]. rewrite app_nil_r, Hrows.
  replace (2 * S r)%nat with (2 * r + 2)%nat by lia. by rewrite replicate_add.
Qed.

Lemma row_experiments_output_experiment_step i w :
  row_experiments (output (experiment_step clock i w)) =
    row_experiments (output w) ++
    (if not_enough_tuples i then [] else replicate (2 * Z.to_nat repetitions) i).
Proof.
  unfold experiment_step. destruct (not_enough_tuples i); simpl; [by rewrite app_nil_r|].
  unfold row_experiments at 1. rewrite omap_app. f_equal.
  by apply (row_experiments_flat_map (scan_rows clock)).
Qed.

Lemma row_experiments_output_build_experiment_step i w :
  row_experiments (output_build (experiment_step clock i w)) =
    row_experiments (output_build w) ++
    (if not_enough_tuples i then [] else replicate (2 * Z.to_nat repetitions) i).
Proof.
  unfold experiment_step. destruct (not_enough_tuples i); simpl; [by rewrite app_nil_r|].
  unfold row_experiments at 1. rewrite omap_app. f_equal.
  by apply (row_experiments_flat_map (build_rows clock)).
Qed.

(** A list read off the world to which every experiment run appends
    [added i] and every skipped one nothing. *)
Lemma foldl_experiment_step_appends {A} (φ : world → list A) (added : Z → list A) l w :
  (∀ i w, φ (experiment_step clock i w) =
            φ w ++ if not_enough_tuples i then [] else added i) →
  φ (foldl sweep_step w l) = φ w ++ flat_map added (filter runs l).
Proof.
  intros Hφ. revert w. induction l as [|i l IH]; intros w; simpl; [by rewrite app_nil_r|].
  rewrite IH, Hφ, <- app_assoc. f_equal. destruct (not_enough_tuples i) eqn:Hi.
  - by rewrite filter_cons_False by (by rewrite Hi).
  - by rewrite filter_cons_True by done.
Qed.

Lemma started_app (lines1 lines2 : list console_line) :
  started (lines1 ++ lines2) = started lines1 ++ started lines2.
Proof. apply omap_app. Qed.

Lemma started_flat_map n (t r : nat) :
  started (flat_map (λ i, console_lines clock n (i * 8 + t)%nat) (seq 0 r)) = [].
Proof.
  unfold started. induction r as [|r IH]; [done|].
  by rewrite seq_S, flat_map_app, omap_app, IH.
Qed.

Lemma started_cout_experiment_step i w :
  started (cout (experiment_step clock i w)) =
    started (cout w) ++ if not_enough_tuples i then [] else [i].
Proof.
  unfold experiment_step, experiment_world, emplace_back.
  destruct (not_enough_tuples i); cbv [cout set_cout repetitions_world];
    rewrite !started_app.
  - done.
  - by rewrite started_flat_map, app_nil_r.
Qed.

Lemma sizes_flat_map n (t r : nat) :
  sizes (flat_map (λ i, console_lines clock n (i * 8 + t)%nat) (seq 0 r)) =
    replicate r (fact_table_size n, fact_table_size n).
Proof.
  unfold sizes. induction r as [|r IH]; [done|].
  rewrite seq_S, flat_map_app, omap_app, IH. cbn [flat_map]. rewrite app_nil_r.
  by rewrite replicate_S_end.
Qed.

Lemma sizes_cout_experiment_step i w :
  sizes (cout (experiment_step clock i w)) =
    sizes (cout w) ++
    if not_enough_tuples i then []
    else replicate (Z.to_nat repetitions) (fact_table_size i, fact_table_size i).
Proof.
  unfold experiment_step, experiment_world, emplace_back.
  destruct (not_enough_tuples i); cbv [cout set_cout repetitions_world];
    unfold sizes at 1; rewrite !omap_app; [done|].
  fold (sizes (cout w)). cbn [omap list_omap]. rewrite app_nil_r. f_equal.
  apply sizes_flat_map.
Qed.

(** An experiment that passes the guard has fact tables of the size of
    the cap. *)
Lemma fact_table_size_full `{!ConfigOk cfg} n :
  0 ≤ number_of_tuples_in_dimension_tables → 0 ≤ number_of_tuples_in_fact_table →
  n ∈ experiments → fact_table_size n = number_of_tuples_in_fact_table.
Proof.
  unfold experiments. intros Hk HL [Hn _]%list_elem_of_filter. unfold fact_table_size.
  rewrite rows_per_dimension_nonneg by done.
  unfold not_enough_tuples in Hn. apply bool_decide_eq_false in Hn. lia.
Qed.

Lemma timing_ok_experiment_step (t0 : nat) i w :
  (∀ t, clock t ≤ clock (S t)) →
  timing_ok clock t0 w → timing_ok clock t0 (experiment_step clock i w).
Proof.
  intros Hclock Hw. unfold experiment_step.
  destruct (not_enough_tuples i); [done | by apply timing_ok_experiment].
Qed.

(** The first line of a file stays the first. *)
Lemma head_output_foldl_experiment_step l w x :
  head (output w) = Some x → head (output (foldl sweep_step w l)) = Some x.
Proof.
  revert w. induction l as [|i l IH]; intros w Hw; [done|]. simpl. apply IH.
  unfold experiment_step. destruct (not_enough_tuples i); [done|]. simpl.
  by destruct (output w).
Qed.

Lemma head_output_build_foldl_experiment_step l w x :
  head (output_build w) = Some x → head (output_build (foldl sweep_step w l)) = Some x.
Proof.
  revert w. induction l as [|i l IH]; intros w Hw; [done|]. simpl. apply IH.
  unfold experiment_step. destruct (not_enough_tuples i); [done|]. simpl.
  by destruct (output_build w).
Qed.

End closed_form_lemmas.

Section main_lemmas.
Context `{cfg : Config} `{!ConfigOk cfg} (clock : nat → Z) (fuel : nat).
Context (Hmax : max_dimensions < size_t_modulus - 1).
Context (Hfuel : (Z.to_nat max_dimensions ≤ fuel)%nat).

Lemma experiment_spec i w :
  2 ≤ i ≤ max_dimensions →
  experiment clock fuel i w = Ok (Continue, experiment_step clock i w).
Proof.
  intros Hi. unfold experiment, experiment_step.
  destruct (not_enough_tuples i); [done|].
  by rewrite (bind_Ok _ _ _ _ _ (evaluate_for_n_dimensions_spec clock fuel i
                                    ltac:(lia) ltac:(lia) w)).
Qed.

Lemma main_spec w : main clock fuel w = Ok (0, main_world clock w).
Proof.
  unfold main. rewrite bool_decide_eq_false_2 by lia. do 3 run_step.
  rewrite (bind_Ok _ _ _ tt (main_world clock w)); [done|].
  rewrite (for_range_steps (λ _, True) (experiment_step clock)); [by destruct w | | done].
  intros i w' Hi _. split; [|done]. apply experiment_spec. lia.
Qed.

End main_lemmas.

(** Every dimension count of the sweep is at least [2]. *)
Lemma elem_of_experiments `{cfg : Config} n :
  n ∈ experiments ↔ 2 ≤ n ≤ max_dimensions ∧ not_enough_tuples n = false.
Proof.
  unfold experiments, sweep. rewrite list_elem_of_filter, elem_of_seqZ.
  split; intros [? ?]; split; (done || lia).
Qed.

(** * Theorems *)

(** Claim C10 (the sweep returns).  When the bound of the sweep is below
    [2^64 - 1] and the fuel is at least the bound, [main] returns [0]
    without undefined behaviour, and the world it leaves is [main_world]:
    the two headers, then for each dimension count from [2] to the bound,
    in order, either the console line of a skipped experiment or what the
    experiment writes. *)
Theorem main_returns `{cfg : Config} `{!ConfigOk cfg} (clock : nat → Z)
    (fuel : nat) (w : world) :
  max_dimensions < size_t_modulus - 1 → (Z.to_nat max_dimensions ≤ fuel)%nat →
  main clock fuel w = Ok (0, main_world clock w).
Proof. intros Hmax Hfuel. by apply main_spec. Qed.

Lemma main_returns_witness :
  main (cfg := example_config) example_clock 3 initial_world =
    Ok (0, main_world (cfg := example_config) example_clock initial_world).
Proof.
  apply (main_returns (cfg := example_config) example_clock 3 initial_world);
    [done | done].
Defined.

(** Claim C17 (one row per experiment, repetition, phase and encoding).  Each
    of the two files that [main] leaves starts with the header, which is
    followed by [2 * number_of_repetitions] rows for each dimension count
    that passes the guard, in increasing order of the dimension count, and
    by nothing else. *)
Theorem main_files `{cfg : Config} `{!ConfigOk cfg} (clock : nat → Z)
    (fuel : nat) (w : world) :
  max_dimensions < size_t_modulus - 1 → (Z.to_nat max_dimensions ≤ fuel)%nat →
  ∃ w',
    main clock fuel w = Ok (0, w') ∧
    head (output w') = Some Header ∧ head (output_build w') = Some Header ∧
    row_experiments (output w') =
      flat_map (replicate (2 * Z.to_nat repetitions)) experiments ∧
    row_experiments (output_build w') =
      flat_map (replicate (2 * Z.to_nat repetitions)) experiments ∧
    length (output w') = S (2 * Z.to_nat repetitions * length experiments) ∧
    length (output_build w') = S (2 * Z.to_nat repetitions * length experiments).
Proof.
  intros Hmax Hfuel. exists (main_world clock w). unfold main_world, experiments.
  split_and!.
  - by apply main_spec.
  - by apply head_output_foldl_experiment_step.
  - by apply head_output_build_foldl_experiment_step.
  - by rewrite (foldl_experiment_step_appends clock _ _ _ _
                   (row_experiments_output_experiment_step clock)).
  - by rewrite (foldl_experiment_step_appends clock _ _ _ _
                   (row_experiments_output_build_experiment_step clock)).
  - by rewrite (foldl_experiment_step_measure clock _ _ _ _
                   (length_output_experiment_step clock)).
  - by rewrite (foldl_experiment_step_measure clock _ _ _ _
                   (length_output_build_experiment_step clock)).
Qed.

Lemma main_files_witness :
  ∃ w',
    main (cfg := example_config) example_clock 3 initial_world = Ok (0, w') ∧
    head (output w') = Some Header ∧ head (output_build w') = Some Header ∧
    row_experiments (output w') = [2; 2; 2; 2; 3; 3; 3; 3] ∧
    row_experiments (output_build w') = [2; 2; 2; 2; 3; 3; 3; 3] ∧
    length (output w') = 9%nat ∧ length (output_build w') = 9%nat.
Proof.
  apply (main_files (cfg := example_config) example_clock 3 initial_world);
    [done | done].
Defined.

(** Claim C38 (console and clock).  The console reports as started exactly
    the dimension counts that pass the guard, in increasing order, and the
    clock is read eight times per repetition of each of them. *)
Theorem main_console `{cfg : Config} `{!ConfigOk cfg} (clock : nat → Z)
    (fuel : nat) (w : world) :
  max_dimensions < size_t_modulus - 1 → (Z.to_nat max_dimensions ≤ fuel)%nat →
  ∃ w',
    main clock fuel w = Ok (0, w') ∧
    started (cout w') = started (cout w) ++ experiments ∧
    ticks w' = (ticks w + 8 * Z.to_nat repetitions * length experiments)%nat.
Proof.
  intros Hmax Hfuel. exists (main_world clock w). unfold main_world, experiments.
  split_and!.
  - by apply main_spec.
  - rewrite (foldl_experiment_step_appends clock (λ w, started (cout w)) (λ i, [i]))
      by apply started_cout_experiment_step.
    by rewrite flat_map_singleton.
  - by rewrite (foldl_experiment_step_measure clock _ _ _ _
                   (ticks_experiment_step clock)).
Qed.

Lemma main_console_witness :
  ∃ w',
    main (cfg := example_config) example_clock 3 initial_world = Ok (0, w') ∧
    started (cout w') = [] ++ [2; 3] ∧
    ticks w' = 32%nat.
Proof.
  apply (main_console (cfg := example_config) example_clock 3 initial_world);
    [done | done].
Defined.

(** Claim C28 (the guard gives full fact tables).  When the row count and
    the cap are not negative, the two sizes that a repetition prints are
    both [number_of_tuples_in_fact_table], for every repetition of every
    experiment that [main] runs: no fact table is the whole of a product
    that is smaller than the cap. *)
Theorem main_sizes `{cfg : Config} `{!ConfigOk cfg} (clock : nat → Z)
    (fuel : nat) (w : world) :
  max_dimensions < size_t_modulus - 1 → (Z.to_nat max_dimensions ≤ fuel)%nat →
  0 ≤ number_of_tuples_in_dimension_tables → 0 ≤ number_of_tuples_in_fact_table →
  ∃ w',
    main clock fuel w = Ok (0, w') ∧
    sizes (cout w') =
      sizes (cout w) ++
      replicate (Z.to_nat repetitions * length experiments)
                (number_of_tuples_in_fact_table, number_of_tuples_in_fact_table).
Proof.
  intros Hmax Hfuel Hk HL. exists (main_world clock w). split; [by apply main_spec|].
  unfold main_world.
  rewrite (foldl_experiment_step_appends clock _ _ _ _ (sizes_cout_experiment_step clock)).
  f_equal. apply (flat_map_replicate_const (λ i, (fact_table_size i, fact_table_size i))).
  intros i Hi. by rewrite fact_table_size_full.
Qed.

Lemma main_sizes_witness :
  ∃ w',
    main (cfg := example_config) example_clock 3 initial_world = Ok (0, w') ∧
    sizes (cout w') = [] ++ replicate 4 (5, 5).
Proof.
  apply (main_sizes (cfg := example_config) example_clock 3 initial_world);
    [done | done | done | done].
Defined.

(** Claim C29 (the phases are timed apart).  For a clock that never goes
    back, no duration that [main] writes is negative, and the durations of
    the two files together add up to at most the time between the first
    reading of the clock and the reading after the last: every phase is
    timed by two readings of its own, and no two of the timed intervals
    overlap. *)
Theorem main_times `{cfg : Config} `{!ConfigOk cfg} (clock : nat → Z)
    (fuel : nat) (w : world) :
  (∀ t, clock t ≤ clock (S t)) →
  max_dimensions < size_t_modulus - 1 → (Z.to_nat max_dimensions ≤ fuel)%nat →
  ∃ w',
    main clock fuel w = Ok (0, w') ∧
    Forall (λ time, 0 ≤ time) (times (output w') ++ times (output_build w')) ∧
    sum_Z (times (output w')) + sum_Z (times (output_build w')) ≤
      clock (ticks w') - clock (ticks w).
Proof.
  intros Hclock Hmax Hfuel. exists (main_world clock w). split; [by apply main_spec|].
  cut (timing_ok clock (ticks w) (main_world clock w)); [by intros (? & _ & ?)|].
  apply (for_range_steps_inv (timing_ok clock (ticks w)) (experiment_step clock)).
  - intros i w' _. by apply timing_ok_experiment_step.
  - split_and!; simpl; [done | done | lia].
Qed.

Lemma main_times_witness :
  ∃ w',
    main (cfg := example_config) example_clock 3 initial_world = Ok (0, w') ∧
    Forall (λ time, 0 ≤ time) (times (output w') ++ times (output_build w')) ∧
    sum_Z (times (output w')) + sum_Z (times (output_build w')) ≤
      example_clock (ticks w') - example_clock (ticks initial_world).
Proof.
  apply (main_times (cfg := example_config) example_clock 3 initial_world);
    [unfold example_clock; lia | done | done].
Defined.

(** Claim C18 (the sweep of the source).  With the parameters of the source
    and fuel of at least [10], [main] returns [0]; the experiments for [2]
    and [3] dimension tables are skipped and those for [4] to [10] run;
    each file holds the header and twenty rows for each of them; the clock
    is read [560] times. *)
Theorem main_reference (clock : nat → Z) (fuel : nat) :
  (10 ≤ fuel)%nat →
  ∃ w',
    main (cfg := reference_config) clock fuel initial_world = Ok (0, w') ∧
    started (cout w') = [4; 5; 6; 7; 8; 9; 10] ∧
    skipped (cout w') = [2; 3] ∧
    row_experiments (output w') = flat_map (replicate 20) [4; 5; 6; 7; 8; 9; 10] ∧
    row_experiments (output_build w') =
      flat_map (replicate 20) [4; 5; 6; 7; 8; 9; 10] ∧
    length (output w') = 141%nat ∧ length (output_build w') = 141%nat ∧
    ticks w' = 560%nat.
Proof.
  intros Hfuel. exists (main_world (cfg := reference_config) clock initial_world).
  split; [by apply main_spec|]. by vm_compute.
Qed.

Lemma main_reference_witness :
  ∃ w',
    main (cfg := reference_config) example_clock 10 initial_world = Ok (0, w') ∧
    started (cout w') = [4; 5; 6; 7; 8; 9; 10] ∧
    skipped (cout w') = [2; 3] ∧
    row_experiments (output w') = flat_map (replicate 20) [4; 5; 6; 7; 8; 9; 10] ∧
    row_experiments (output_build w') =
      flat_map (replicate 20) [4; 5; 6; 7; 8; 9; 10] ∧
    length (output w') = 141%nat ∧ length (output_build w') = 141%nat ∧
    ticks w' = 560%nat.
Proof. apply (main_reference example_clock 10). lia. Defined.
